(** * Snapshot garbage collector: journal catalog and GC engine

    A shallow embedding of the snapshot GC (snapshot_gc_types.hpp,
    snapshot_gc_interfaces.hpp, journal_catalog.hpp, filesystem_storage.hpp,
    snapshot_gc.hpp) and the properties of its specification.

    Conventions of the embedding:
    - [std::string] is [string]; [std::optional<T>] is [option T];
      [std::unordered_set<std::string>] is [gset string];
      [std::unordered_map<std::string, SnapshotMeta>] is
      [gmap string SnapshotMeta]; [std::vector<T>] is [list T].
    - Fixed-width integers are [Z]; where the code does arithmetic on them the
      wrap-around is written out.  Counters of type [std::size_t] that count
      records held in memory are [nat].  The LP64 data model is assumed
      ([long], [long long] and [std::size_t] are 64 bits wide).
    - A [TimePoint] is the tick count of [std::chrono::system_clock] since
      the epoch.  The tick period is implementation-defined, so the number of
      ticks per millisecond is a parameter ([ticks_per_ms]).  Arithmetic on time
      points is unbounded ([Z]): signed overflow is undefined in C++.
    - What the C++ standard leaves open is a parameter with its contract: the
      order in which an unordered map is traversed ([Traversal]) and the
      order [std::sort] gives to equal elements ([Sort]).
    - The interfaces are type classes over the state of the object; a method
      takes the state and returns it with its result.
    - In the journal a C++ call that throws, or whose behaviour is undefined
      (the read of an uninitialised variable), is [None]; in the engine
      [None] is a pass that does not return. *)

From Stdlib Require Import ZArith Lia Ascii String Sorted.
From stdpp Require Import gmap strings list fin_maps.

Local Open Scope Z_scope.

(** ** snapshot_gc_types.hpp *)

Definition TimePoint := Z.

(** [enum class SnapshotState]: the underlying type is [int], and a cast
    from [int] gives the enumeration any of its values.  Apart from the five
    enumerators (0 to 4) these are the values below them ([Below p] is
    [-p]) and above them ([Above p] is [4 + p]). *)
Inductive SnapshotState :=
  | Active
  | Tombstoned
  | Deleting
  | Deleted
  | Quarantined
  | Below (p : positive)
  | Above (p : positive).

Global Instance SnapshotState_eq_dec : EqDecision SnapshotState.
Proof. solve_decision. Defined.

Record SnapshotMeta := mkSnapshotMeta {
  id : string;
  created : TimePoint;
  sizeBytes : Z;                       (* std::uint64_t *)
  state : SnapshotState;
  parentId : option string;
  tags : gset string;
  leaseCount : Z;                      (* std::uint32_t *)
  lastAccess : TimePoint;
  hardDeleteAfter : option TimePoint;
  deleteFailures : Z;                  (* std::uint32_t *)
  nextRetryAfter : option TimePoint;
  lastError : string
}.

Global Instance SnapshotMeta_eq_dec : EqDecision SnapshotMeta.
Proof. solve_decision. Defined.

(** [SnapshotMeta m;] : the default member initialisers. *)
Definition default_meta : SnapshotMeta :=
  {| id := ""; created := 0; sizeBytes := 0; state := Active;
     parentId := None; tags := ∅; leaseCount := 0; lastAccess := 0;
     hardDeleteAfter := None; deleteFailures := 0; nextRetryAfter := None;
     lastError := "" |}.

(** Assignments to single members of a record. *)
Definition set_state (st : SnapshotState) (m : SnapshotMeta) : SnapshotMeta :=
  {| id := id m; created := created m; sizeBytes := sizeBytes m; state := st;
     parentId := parentId m; tags := tags m; leaseCount := leaseCount m;
     lastAccess := lastAccess m; hardDeleteAfter := hardDeleteAfter m;
     deleteFailures := deleteFailures m; nextRetryAfter := nextRetryAfter m;
     lastError := lastError m |}.

Definition set_hardDeleteAfter (t : option TimePoint) (m : SnapshotMeta) : SnapshotMeta :=
  {| id := id m; created := created m; sizeBytes := sizeBytes m; state := state m;
     parentId := parentId m; tags := tags m; leaseCount := leaseCount m;
     lastAccess := lastAccess m; hardDeleteAfter := t;
     deleteFailures := deleteFailures m; nextRetryAfter := nextRetryAfter m;
     lastError := lastError m |}.

Definition set_deleteFailures (n : Z) (m : SnapshotMeta) : SnapshotMeta :=
  {| id := id m; created := created m; sizeBytes := sizeBytes m; state := state m;
     parentId := parentId m; tags := tags m; leaseCount := leaseCount m;
     lastAccess := lastAccess m; hardDeleteAfter := hardDeleteAfter m;
     deleteFailures := n; nextRetryAfter := nextRetryAfter m;
     lastError := lastError m |}.

Definition set_nextRetryAfter (t : option TimePoint) (m : SnapshotMeta) : SnapshotMeta :=
  {| id := id m; created := created m; sizeBytes := sizeBytes m; state := state m;
     parentId := parentId m; tags := tags m; leaseCount := leaseCount m;
     lastAccess := lastAccess m; hardDeleteAfter := hardDeleteAfter m;
     deleteFailures := deleteFailures m; nextRetryAfter := t;
     lastError := lastError m |}.

Definition set_lastError (e : string) (m : SnapshotMeta) : SnapshotMeta :=
  {| id := id m; created := created m; sizeBytes := sizeBytes m; state := state m;
     parentId := parentId m; tags := tags m; leaseCount := leaseCount m;
     lastAccess := lastAccess m; hardDeleteAfter := hardDeleteAfter m;
     deleteFailures := deleteFailures m; nextRetryAfter := nextRetryAfter m;
     lastError := e |}.

Record RetentionPolicy := {
  keepLastN : nat;                     (* std::size_t *)
  maxAge : Z;                          (* std::chrono::hours *)
  enableCheckpointing : bool;
  checkpointInterval : Z               (* std::chrono::hours *)
}.

Record GCOptions := {
  dryRun : bool;
  enableTombstoneStage : bool;
  enableHardDeleteStage : bool;
  inactiveTimeout : Z;                 (* std::chrono::hours *)
  gracePeriod : Z;                     (* std::chrono::hours *)
  maxDeletesPerRun : nat;              (* std::size_t *)
  batchDeleteSize : nat;               (* std::size_t *)
  maxDeleteFailuresBeforeQuarantine : Z; (* std::uint32_t *)
  baseRetryBackoff : Z                 (* std::chrono::seconds *)
}.

Definition default_policy : RetentionPolicy :=
  {| keepLastN := 10; maxAge := 24 * 30; enableCheckpointing := false;
     checkpointInterval := 24 * 7 |}.

Definition default_options : GCOptions :=
  {| dryRun := false; enableTombstoneStage := true; enableHardDeleteStage := true;
     inactiveTimeout := 24 * 7; gracePeriod := 24 * 7;
     maxDeletesPerRun := 1000; batchDeleteSize := 50;
     maxDeleteFailuresBeforeQuarantine := 5; baseRetryBackoff := 10 |}.

(** The ranges of the fixed-width members. *)
Definition uint32_max : Z := 2 ^ 32 - 1.
Definition uint64_max : Z := 2 ^ 64 - 1.
Definition int64_min : Z := - 2 ^ 63.
Definition int64_max : Z := 2 ^ 63 - 1.
Definition int_min : Z := - 2 ^ 31.
Definition int_max : Z := 2 ^ 31 - 1.

(** ** Strings and the C++ library functions used by the journal *)

Definition nl : ascii := "010"%char.
Definition cr : ascii := "013"%char.
Definition backslash : ascii := "\"%char.
Definition pipe : ascii := "|"%char.

Fixpoint contains (c : ascii) (s : string) : bool :=
  match s with
  | EmptyString => false
  | String a s' => if decide (a = c) then true else contains c s'
  end.

Fixpoint has_space (s : string) : bool :=
  match s with
  | EmptyString => false
  | String a s' => if Ascii.is_space a then true else has_space s'
  end.

(** [s.rfind(p, 0) == 0]: [s] starts with [p]. *)
Fixpoint starts_with (p s : string) : bool :=
  match p, s with
  | EmptyString, _ => true
  | String a p', String b s' => if decide (a = b) then starts_with p' s' else false
  | String _ _, EmptyString => false
  end.

(** [s.substr(n)] for [n <= s.size()]. *)
Fixpoint substr_from (n : nat) (s : string) : string :=
  match n, s with
  | O, _ => s
  | S n', String _ s' => substr_from n' s'
  | S _, EmptyString => EmptyString
  end.

(** *** std::to_string on integers *)

Definition digit_char (d : Z) : ascii := ascii_of_N (48 + Z.to_N d).

Definition digit_val (c : ascii) : option Z :=
  let n := Z.of_N (N_of_ascii c) in
  if (48 <=? n) && (n <=? 57) then Some (n - 48) else None.

(** Decimal digits of [n >= 0], most significant first, put before [acc];
    [fuel] bounds the number of digits. *)
Fixpoint to_digits (fuel : nat) (n : Z) (acc : string) : string :=
  match fuel with
  | O => acc
  | S f =>
      let acc' := String (digit_char (n mod 10)) acc in
      if n / 10 =? 0 then acc' else to_digits f (n / 10) acc'
  end.

Definition to_string_unsigned (n : Z) : string :=
  to_digits (S (Z.to_nat (Z.log2 n))) n "".

Definition to_string (n : Z) : string :=
  if n <? 0 then String "-" (to_string_unsigned (- n)) else to_string_unsigned n.

(** *** std::stoll, std::stoull, std::stoul, std::stoi (base 10) *)

Fixpoint skip_space (s : string) : string :=
  match s with
  | EmptyString => EmptyString
  | String c s' => if Ascii.is_space c then skip_space s' else s
  end.

Fixpoint read_digits (acc : Z) (s : string) : Z * string :=
  match s with
  | EmptyString => (acc, EmptyString)
  | String c s' =>
      match digit_val c with
      | Some d => read_digits (acc * 10 + d) s'
      | None => (acc, s)
      end
  end.

Definition starts_with_digit (s : string) : bool :=
  match s with
  | String c _ => match digit_val c with Some _ => true | None => false end
  | EmptyString => false
  end.

(** The common part of [strtol] and friends: leading white space, an
    optional sign, at least one digit; what follows the digits is left.
    The result is the sign, the magnitude and the rest; [None] when there is
    no digit ([std::invalid_argument]). *)
Definition scan_integer (s : string) : option (bool * Z * string) :=
  let s1 := skip_space s in
  let '(neg, s2) :=
    match s1 with
    | String "-" r => (true, r)
    | String "+" r => (false, r)
    | _ => (false, s1)
    end in
  if starts_with_digit s2
  then let '(v, rest) := read_digits 0 s2 in Some (neg, v, rest)
  else None.

Definition signed_value (neg : bool) (v : Z) : Z := if neg then - v else v.

(** [std::stoll]: [None] also when the value does not fit ([std::out_of_range]). *)
Definition stoll (s : string) : option Z :=
  match scan_integer s with
  | Some (neg, v, _) =>
      let x := signed_value neg v in
      if (int64_min <=? x) && (x <=? int64_max) then Some x else None
  | None => None
  end.

(** [std::stoull]: the magnitude must fit; a minus sign negates modulo 2^64. *)
Definition stoull (s : string) : option Z :=
  match scan_integer s with
  | Some (neg, v, _) =>
      if v <=? uint64_max then Some (signed_value neg v mod 2 ^ 64) else None
  | None => None
  end.

(** [std::stoul]: [unsigned long] is 64 bits wide. *)
Definition stoul (s : string) : option Z := stoull s.

(** [std::stoi]: [strtol], then the check against the range of [int]. *)
Definition stoi (s : string) : option Z :=
  match scan_integer s with
  | Some (neg, v, _) =>
      let x := signed_value neg v in
      if (int_min <=? x) && (x <=? int_max) then Some x else None
  | None => None
  end.

(** *** std::getline and formatted extraction from a std::istringstream *)

(** The lines [std::getline] yields on a file with contents [s], [cur] being
    the characters of the current line read so far.  A last line without
    newline is yielded unless it is empty. *)
Fixpoint getlines_from (cur s : string) : list string :=
  match s with
  | EmptyString => match cur with EmptyString => [] | _ => [cur] end
  | String c s' =>
      if decide (c = nl) then cur :: getlines_from "" s'
      else getlines_from (cur +:+ String c "") s'
  end.

Definition getlines (s : string) : list string := getlines_from "" s.

(** The characters up to the next white space, and the rest. *)
Fixpoint take_word (s : string) : string * string :=
  match s with
  | EmptyString => (EmptyString, EmptyString)
  | String c s' =>
      if Ascii.is_space c then (EmptyString, s)
      else let '(w, rest) := take_word s' in (String c w, rest)
  end.

(** [iss >> n] for an [int n] on a stream that has not failed, [s] being
    what is left of it.  When nothing but white space is left the stream
    fails before anything is stored in [n] ([NotExtracted]).  Otherwise: on
    success the value and the rest of the stream; on failure the value stored
    in [n] (0 when there is no number, the nearest bound when it does not
    fit). *)
Inductive extraction :=
  | Extracted (v : Z) (rest : string)
  | ExtractFailed (stored : Z)
  | NotExtracted.

Definition extract_int (s : string) : extraction :=
  match skip_space s with
  | EmptyString => NotExtracted
  | _ =>
      match scan_integer s with
      | None => ExtractFailed 0
      | Some (neg, v, rest) =>
          let x := signed_value neg v in
          if x <? int_min then ExtractFailed int_min
          else if int_max <? x then ExtractFailed int_max
          else Extracted x rest
      end
  end.

(** ** snapshot_gc_interfaces.hpp *)

Record GCEvent := {
  when : TimePoint;
  snapshotId : string;
  type : string;
  details : string
}.

Class ISnapshotCatalog (C : Type) := {
  ListAll : C -> list SnapshotMeta;
  Get : string -> C -> option SnapshotMeta;
  TransitionState : string -> SnapshotState -> SnapshotState -> C -> bool * C;
  Upsert : SnapshotMeta -> C -> bool * C;
  RecordEvent : GCEvent -> C -> C
}.

(** The out-parameters [failed] and [err] are passed in and returned. *)
Class IStorageBackend (S : Type) := {
  DeleteSnapshotPayload : string -> string -> S -> bool * string * S;
  DeleteSnapshotPayloadBatch :
    list string -> list string -> string -> S -> bool * list string * string * S;
  Exists : string -> S -> bool
}.

Class ILeaderElector (L : Type) := {
  TryAcquire : L -> bool * L;
  Release : L -> L
}.

Class ICorruptionTracker (K : Type) := {
  RecordCorruptOffset : string -> Z -> K -> K;
  ForgetCorruptionForSnapshot : string -> K -> K
}.

(** The default body of [IStorageBackend::DeleteSnapshotPayloadBatch], over
    the single deletion [del]: the loop over [ids], then [err.clear()].
    [failed] is the out-parameter as the caller passes it. *)
Section DefaultBatch.
Context {S : Type}.
Variable del : string -> string -> S -> bool * string * S.

Fixpoint batch_loop (ids : list string) (allOk : bool) (failed : list string) (st : S)
  : bool * list string * S :=
  match ids with
  | [] => (allOk, failed, st)
  | i :: ids' =>
      let '(ok, _, st') := del i "" st in
      if ok then batch_loop ids' allOk failed st'
      else batch_loop ids' false (failed ++ [i]) st'
  end.

Definition default_DeleteSnapshotPayloadBatch
    (ids : list string) (failed : list string) (err : string) (st : S)
  : bool * list string * string * S :=
  let '(allOk, failed', st') := batch_loop ids true failed st in
  (allOk, failed', "", st').
End DefaultBatch.

(** ** journal_catalog.hpp *)

Class ClockPeriod := ticks_per_ms : positive.

Definition state_to_int (s : SnapshotState) : Z :=
  match s with
  | Active => 0
  | Tombstoned => 1
  | Deleting => 2
  | Deleted => 3
  | Quarantined => 4
  | Below p => Z.neg p
  | Above p => 4 + Z.pos p
  end.

(** The cast from [int]: an integer outside 0..4 gives a value of the
    enumeration that is none of the five enumerators. *)
Definition state_of_int (n : Z) : SnapshotState :=
  if n =? 0 then Active
  else if n =? 1 then Tombstoned
  else if n =? 2 then Deleting
  else if n =? 3 then Deleted
  else if n =? 4 then Quarantined
  else if n <? 0 then Below (Z.to_pos (- n))
  else Above (Z.to_pos (n - 4)).

(** The values of the enumeration: those of an [int]. *)
Definition int_state (s : SnapshotState) : bool :=
  (int_min <=? state_to_int s) && (state_to_int s <=? int_max).

Fixpoint Escape (s : string) : string :=
  match s with
  | EmptyString => EmptyString
  | String c s' =>
      if decide (c = nl) then String backslash (String "n" (Escape s'))
      else if decide (c = cr) then String backslash (String "r" (Escape s'))
      else if decide (c = backslash) then String backslash (String backslash (Escape s'))
      else String c (Escape s')
  end.

Fixpoint Unescape (s : string) : string :=
  match s with
  | EmptyString => EmptyString
  | String c rest =>
      if decide (c = backslash) then
        match rest with
        | String n rest' =>
            if decide (n = "n"%char) then String nl (Unescape rest')
            else if decide (n = "r"%char) then String cr (Unescape rest')
            else if decide (n = backslash) then String backslash (Unescape rest')
            else String c (Unescape rest)
        | EmptyString => String c EmptyString
        end
      else String c (Unescape rest)
  end.

(** The splitting loop of [Deserialize]: [parts] and [cur] as in the code. *)
Fixpoint split_fields (parts : list string) (cur : string) (line : string) : list string :=
  match line with
  | EmptyString => parts ++ [cur]
  | String c line' =>
      if decide (c = pipe) then split_fields (parts ++ [cur]) "" line'
      else split_fields parts (cur +:+ String c "") line'
  end.

(** The order in which the elements of a [std::unordered_map] are visited is
    not specified: it is a parameter, an enumeration of the values of the
    map. *)
Class Traversal := {
  traverse : gmap string SnapshotMeta -> list SnapshotMeta;
  traverse_values : forall m, traverse m ≡ₚ (map_to_list m).*2
}.

Section Journal.
Context {period : ClockPeriod} {order : Traversal}.

(** [duration_cast<milliseconds>] truncates towards zero. *)
Definition toMs (t : TimePoint) : Z := Z.quot t (Z.pos ticks_per_ms).
Definition fromMs (ms : Z) : TimePoint := ms * Z.pos ticks_per_ms.

Definition Serialize (m : SnapshotMeta) : string :=
  let hd := match hardDeleteAfter m with Some t => toMs t | None => -1 end in
  let nr := match nextRetryAfter m with Some t => toMs t | None => -1 end in
  id m +:+ "|" +:+ to_string (toMs (created m)) +:+ "|" +:+ to_string (sizeBytes m) +:+ "|" +:+
  to_string (state_to_int (state m)) +:+ "|" +:+ to_string (leaseCount m) +:+ "|" +:+
  to_string (toMs (lastAccess m)) +:+ "|" +:+ to_string hd +:+ "|" +:+
  to_string (deleteFailures m) +:+ "|" +:+ to_string nr +:+ "|" +:+ Escape (lastError m).

(** [parts.at(i)] and the conversions throw on a missing field or a
    malformed number: [None].  [parentId] and [tags] keep their default
    values. *)
Definition Deserialize (line : string) : option SnapshotMeta :=
  let parts := split_fields [] "" line in
  p0 ← parts !! 0%nat;
  v1 ← parts !! 1%nat ≫= stoll;
  v2 ← parts !! 2%nat ≫= stoull;
  v3 ← parts !! 3%nat ≫= stoi;
  v4 ← parts !! 4%nat ≫= stoul;
  v5 ← parts !! 5%nat ≫= stoll;
  hd ← parts !! 6%nat ≫= stoll;
  v7 ← parts !! 7%nat ≫= stoul;
  nr ← parts !! 8%nat ≫= stoll;
  p9 ← parts !! 9%nat;
  Some {| id := p0;
          created := fromMs v1;
          sizeBytes := v2;
          state := state_of_int v3;
          parentId := None;
          tags := ∅;
          leaseCount := v4 mod 2 ^ 32;
          lastAccess := fromMs v5;
          hardDeleteAfter := if 0 <=? hd then Some (fromMs hd) else None;
          deleteFailures := v7 mod 2 ^ 32;
          nextRetryAfter := if 0 <=? nr then Some (fromMs nr) else None;
          lastError := Unescape p9 |}.

(** The catalog object together with the journal file it writes:
    [journalFile] is [None] while the file does not exist.  The stream
    operations of [Append] are taken to succeed. *)
Record JournalCatalog := {
  journalFile : option string;
  items_ : gmap string SnapshotMeta
}.

Definition Append (rec : string) (c : JournalCatalog) : JournalCatalog :=
  {| journalFile := Some (default "" (journalFile c) +:+ rec +:+ String nl "");
     items_ := items_ c |}.

Definition JournalCatalog_ListAll (c : JournalCatalog) : list SnapshotMeta :=
  traverse (items_ c).

Definition JournalCatalog_Get (i : string) (c : JournalCatalog) : option SnapshotMeta :=
  items_ c !! i.

Definition JournalCatalog_TransitionState
    (i : string) (expected desired : SnapshotState) (c : JournalCatalog)
  : bool * JournalCatalog :=
  match items_ c !! i with
  | None => (false, c)
  | Some m =>
      if decide (state m = expected) then
        let c' := {| journalFile := journalFile c;
                     items_ := <[i := set_state desired m]> (items_ c) |} in
        (true, Append ("STATE " +:+ i +:+ " " +:+ to_string (state_to_int expected) +:+ " " +:+
                       to_string (state_to_int desired)) c')
      else (false, c)
  end.

Definition JournalCatalog_Upsert (m : SnapshotMeta) (c : JournalCatalog)
  : bool * JournalCatalog :=
  let c' := {| journalFile := journalFile c; items_ := <[id m := m]> (items_ c) |} in
  (true, Append ("UPSERT " +:+ Serialize m) c').

Definition JournalCatalog_RecordEvent (e : GCEvent) (c : JournalCatalog) : JournalCatalog :=
  Append ("EVENT " +:+ snapshotId e +:+ " " +:+ type e +:+ " " +:+ Escape (details e)) c.

Global Instance JournalCatalog_catalog : ISnapshotCatalog JournalCatalog := {|
  ListAll := JournalCatalog_ListAll;
  Get := JournalCatalog_Get;
  TransitionState := JournalCatalog_TransitionState;
  Upsert := JournalCatalog_Upsert;
  RecordEvent := JournalCatalog_RecordEvent
|}.

(** [iss >> tag >> id >> expected >> desired] on a [STATE] line: the id
    and the value of [desired], [None] when no extraction wrote it (it is
    then uninitialised): after an extraction has failed the stream extracts
    nothing more. *)
Definition parse_state_line (line : string) : string * option Z :=
  let '(tag, s1) := take_word (skip_space line) in
  match tag with
  | EmptyString => (EmptyString, None)
  | _ =>
      let '(i, s2) := take_word (skip_space s1) in
      match i with
      | EmptyString => (EmptyString, None)
      | _ =>
          match extract_int s2 with
          | Extracted _ s3 =>
              match extract_int s3 with
              | Extracted v _ => (i, Some v)
              | ExtractFailed v => (i, Some v)
              | NotExtracted => (i, None)
              end
          | ExtractFailed _ | NotExtracted => (i, None)
          end
      end
  end.

(** The body of the loop of [Replay] for one line.  On a [STATE] line for
    an id of the index, the assignment reads [desired]; where no extraction
    has written it the read is one of an uninitialised variable, and the
    behaviour is undefined: [None]. *)
Definition replay_line (items : gmap string SnapshotMeta) (line : string)
  : option (gmap string SnapshotMeta) :=
  if starts_with "UPSERT " line then
    m ← Deserialize (substr_from 7 line);
    Some (<[id m := m]> items)
  else if starts_with "STATE " line then
    let '(i, desired) := parse_state_line line in
    match items !! i with
    | None => Some items
    | Some m =>
        d ← desired;
        Some (<[i := set_state (state_of_int d) m]> items)
    end
  else Some items.

Fixpoint replay_lines (items : gmap string SnapshotMeta) (lines : list string)
  : option (gmap string SnapshotMeta) :=
  match lines with
  | [] => Some items
  | l :: ls => items' ← replay_line items l; replay_lines items' ls
  end.

Definition Replay (file : option string) (items : gmap string SnapshotMeta)
  : option (gmap string SnapshotMeta) :=
  match file with
  | None => Some items
  | Some contents => replay_lines items (getlines contents)
  end.

(** The constructor: an empty index, then [Replay]. *)
Definition open_JournalCatalog (file : option string) : option JournalCatalog :=
  items ← Replay file ∅;
  Some {| journalFile := file; items_ := items |}.
End Journal.

(** ** filesystem_storage.hpp *)

(** The payload directories under [root_] ([payloads]) and those whose
    removal raises a [std::exception], with its [what()] ([busy]).  A
    payload directory is an entry of [root_]; its name is a plain one, and
    the model is one of such ids: the paths [root_ / id] of two of them are
    two entries of [root_], neither inside the other.  For an id that is
    empty, a dot name or a path of several names, [root_ / id] is [root_]
    itself or a place inside or outside of it, which the two sets do not
    describe. *)
Record FilesystemStorage := {
  payloads : gset string;
  busy : gmap string string
}.

Definition FilesystemStorage_DeleteSnapshotPayload
    (snapshot : string) (err : string) (fs : FilesystemStorage)
  : bool * string * FilesystemStorage :=
  if decide (snapshot ∈ payloads fs) then
    match busy fs !! snapshot with
    | Some what => (false, what, fs)
    | None => (true, "", {| payloads := payloads fs ∖ {[snapshot]}; busy := busy fs |})
    end
  else (true, err, fs).

Definition FilesystemStorage_DeleteSnapshotPayloadBatch
    (ids : list string) (failed : list string) (err : string) (fs : FilesystemStorage)
  : bool * list string * string * FilesystemStorage :=
  let '(ok, failed', fs') :=
    batch_loop FilesystemStorage_DeleteSnapshotPayload ids true failed fs in
  (ok, failed', "", fs').

Definition FilesystemStorage_Exists (snapshot : string) (fs : FilesystemStorage) : bool :=
  bool_decide (snapshot ∈ payloads fs).

Global Instance FilesystemStorage_storage : IStorageBackend FilesystemStorage := {|
  DeleteSnapshotPayload := FilesystemStorage_DeleteSnapshotPayload;
  DeleteSnapshotPayloadBatch := FilesystemStorage_DeleteSnapshotPayloadBatch;
  Exists := FilesystemStorage_Exists
|}.

(** ** file_lock_leader.hpp *)

Record FileLockLeaderElector := {
  lockFile : bool;                     (* the lock file exists *)
  acquired_ : bool
}.

Definition FileLockLeaderElector_TryAcquire (l : FileLockLeaderElector)
  : bool * FileLockLeaderElector :=
  if lockFile l then (false, l)
  else (true, {| lockFile := true; acquired_ := true |}).

Definition FileLockLeaderElector_Release (l : FileLockLeaderElector) : FileLockLeaderElector :=
  if acquired_ l then {| lockFile := false; acquired_ := false |} else l.

Global Instance FileLockLeaderElector_elector : ILeaderElector FileLockLeaderElector := {|
  TryAcquire := FileLockLeaderElector_TryAcquire;
  Release := FileLockLeaderElector_Release
|}.

(** A tracker that remembers nothing, for passes without corruption state. *)
Global Instance unit_tracker : ICorruptionTracker unit := {|
  RecordCorruptOffset := fun _ _ k => k;
  ForgetCorruptionForSnapshot := fun _ k => k
|}.

(** ** snapshot_gc.hpp *)

Record GCMetrics := {
  scanned : nat;
  tombstoned : nat;
  deleted : nat;
  quarantined : nat;
  deleteFailed : nat;
  inactiveLoadedSignals : nat
}.

Definition zero_metrics : GCMetrics :=
  {| scanned := 0; tombstoned := 0; deleted := 0; quarantined := 0;
     deleteFailed := 0; inactiveLoadedSignals := 0 |}.

Definition set_scanned (n : nat) (g : GCMetrics) : GCMetrics :=
  {| scanned := n; tombstoned := tombstoned g; deleted := deleted g;
     quarantined := quarantined g; deleteFailed := deleteFailed g;
     inactiveLoadedSignals := inactiveLoadedSignals g |}.
Definition incr_tombstoned (g : GCMetrics) : GCMetrics :=
  {| scanned := scanned g; tombstoned := S (tombstoned g); deleted := deleted g;
     quarantined := quarantined g; deleteFailed := deleteFailed g;
     inactiveLoadedSignals := inactiveLoadedSignals g |}.
Definition incr_deleted (g : GCMetrics) : GCMetrics :=
  {| scanned := scanned g; tombstoned := tombstoned g; deleted := S (deleted g);
     quarantined := quarantined g; deleteFailed := deleteFailed g;
     inactiveLoadedSignals := inactiveLoadedSignals g |}.
Definition incr_quarantined (g : GCMetrics) : GCMetrics :=
  {| scanned := scanned g; tombstoned := tombstoned g; deleted := deleted g;
     quarantined := S (quarantined g); deleteFailed := deleteFailed g;
     inactiveLoadedSignals := inactiveLoadedSignals g |}.
Definition incr_deleteFailed (g : GCMetrics) : GCMetrics :=
  {| scanned := scanned g; tombstoned := tombstoned g; deleted := deleted g;
     quarantined := quarantined g; deleteFailed := S (deleteFailed g);
     inactiveLoadedSignals := inactiveLoadedSignals g |}.
Definition incr_inactiveLoadedSignals (g : GCMetrics) : GCMetrics :=
  {| scanned := scanned g; tombstoned := tombstoned g; deleted := deleted g;
     quarantined := quarantined g; deleteFailed := deleteFailed g;
     inactiveLoadedSignals := S (inactiveLoadedSignals g) |}.

(** The calls a pass makes on its collaborators, as they are recorded in the
    log of the world it runs in. *)
Inductive Call :=
  | CallListAll
  | CallGet (i : string)
  | CallTransitionState (i : string) (expected desired : SnapshotState) (ok : bool)
  | CallUpsert (m : SnapshotMeta)
  | CallRecordEvent (e : GCEvent)
  | CallDeleteSnapshotPayloadBatch (ids : list string)
  | CallForgetCorruptionForSnapshot (i : string)
  | CallTryAcquire (ok : bool)
  | CallRelease.

(** [std::sort] with the comparison [a.created > b.created]: the result holds
    the same records, none of them before one that is newer.  The order of
    records with equal [created] is not specified, so the sort is a
    parameter. *)
Class Sort := {
  sort_newest_first : list SnapshotMeta -> list SnapshotMeta;
  sort_permutes : forall l, sort_newest_first l ≡ₚ l;
  sort_sorts : forall l,
    StronglySorted (fun a b => created b <= created a) (sort_newest_first l)
}.

Definition is_empty_string (s : string) : bool :=
  match s with EmptyString => true | _ => false end.

Definition is_empty_list {A} (l : list A) : bool :=
  match l with [] => true | _ => false end.

Section Engine.
Context {C S L K : Type}.
Context {catalog : ISnapshotCatalog C} {storage : IStorageBackend S}.
Context {elector : ILeaderElector L} {tracker : ICorruptionTracker K}.
Context {period : ClockPeriod} {sorter : Sort}.

(** [clock n] is what the [n]-th call of [Clock::now()] returns. *)
Variable clock : nat -> TimePoint.
Variable policy_ : RetentionPolicy.
Variable opts_ : GCOptions.

(** The collaborators a [SnapshotGC] refers to ([leader_] and
    [corruption_] may be null), the number of clock readings so far and
    the log of calls, the most recent first. *)
Record World := {
  catalog_ : C;
  storage_ : S;
  leader_ : option L;
  corruption_ : option K;
  reads : nat;
  calls : list Call
}.

(** Computations on the world; [None] is a computation that does not
    return. *)
Definition M (A : Type) : Type := World -> option (A * World).

Definition ret {A} (a : A) : M A := fun w => Some (a, w).
Definition bind {A B} (m : M A) (k : A -> M B) : M B :=
  fun w => match m w with Some (a, w') => k a w' | None => None end.
Definition diverge {A} : M A := fun _ => None.

Notation "x <- m ;; k" := (bind m (fun x => k))
  (at level 100, m at next level, right associativity).
Notation "m ;;; k" := (bind m (fun _ => k))
  (at level 100, right associativity).

Fixpoint foldM {A B} (f : B -> A -> M B) (l : list A) (b : B) : M B :=
  match l with
  | [] => ret b
  | a :: l' => b' <- f b a ;; foldM f l' b'
  end.

Definition log (c : Call) (w : World) : World :=
  {| catalog_ := catalog_ w; storage_ := storage_ w; leader_ := leader_ w;
     corruption_ := corruption_ w; reads := reads w; calls := c :: calls w |}.

Definition with_catalog (c : C) (w : World) : World :=
  {| catalog_ := c; storage_ := storage_ w; leader_ := leader_ w;
     corruption_ := corruption_ w; reads := reads w; calls := calls w |}.

Definition Clock_now : M TimePoint :=
  fun w => Some (clock (reads w),
                 {| catalog_ := catalog_ w; storage_ := storage_ w; leader_ := leader_ w;
                    corruption_ := corruption_ w; reads := Datatypes.S (reads w);
                    calls := calls w |}).

Definition catalog_ListAll : M (list SnapshotMeta) :=
  fun w => Some (ListAll (catalog_ w), log CallListAll w).

Definition catalog_Get (i : string) : M (option SnapshotMeta) :=
  fun w => Some (Get i (catalog_ w), log (CallGet i) w).

Definition catalog_TransitionState (i : string) (expected desired : SnapshotState) : M bool :=
  fun w => let '(ok, c) := TransitionState i expected desired (catalog_ w) in
           Some (ok, log (CallTransitionState i expected desired ok) (with_catalog c w)).

Definition catalog_Upsert (m : SnapshotMeta) : M bool :=
  fun w => let '(ok, c) := Upsert m (catalog_ w) in
           Some (ok, log (CallUpsert m) (with_catalog c w)).

Definition catalog_RecordEvent (e : GCEvent) : M unit :=
  fun w => Some (tt, log (CallRecordEvent e) (with_catalog (RecordEvent e (catalog_ w)) w)).

Definition storage_DeleteSnapshotPayloadBatch
    (ids : list string) (failed : list string) (err : string)
  : M (bool * list string * string) :=
  fun w => let '(ok, failed', err', s) :=
             DeleteSnapshotPayloadBatch ids failed err (storage_ w) in
           Some ((ok, failed', err'),
                 log (CallDeleteSnapshotPayloadBatch ids)
                   {| catalog_ := catalog_ w; storage_ := s; leader_ := leader_ w;
                      corruption_ := corruption_ w; reads := reads w; calls := calls w |}).

(** [if (corruption_) corruption_->ForgetCorruptionForSnapshot(id)] *)
Definition corruption_Forget (i : string) : M unit :=
  fun w => match corruption_ w with
           | Some k =>
               Some (tt, log (CallForgetCorruptionForSnapshot i)
                           {| catalog_ := catalog_ w; storage_ := storage_ w;
                              leader_ := leader_ w;
                              corruption_ := Some (ForgetCorruptionForSnapshot i k);
                              reads := reads w; calls := calls w |})
           | None => Some (tt, w)
           end.

(** [leader_ && !leader_->TryAcquire()] *)
Definition leader_refuses : M bool :=
  fun w => match leader_ w with
           | Some l =>
               let '(ok, l') := TryAcquire l in
               Some (negb ok, log (CallTryAcquire ok)
                                {| catalog_ := catalog_ w; storage_ := storage_ w;
                                   leader_ := Some l'; corruption_ := corruption_ w;
                                   reads := reads w; calls := calls w |})
           | None => Some (false, w)
           end.

(** [if (leader_) leader_->Release()] *)
Definition leader_Release : M unit :=
  fun w => match leader_ w with
           | Some l =>
               Some (tt, log CallRelease
                           {| catalog_ := catalog_ w; storage_ := storage_ w;
                              leader_ := Some (Release l); corruption_ := corruption_ w;
                              reads := reads w; calls := calls w |})
           | None => Some (tt, w)
           end.

(** Durations in ticks of the clock. *)
Definition hours (h : Z) : Z := h * 3600000 * Z.pos ticks_per_ms.
Definition seconds (s : Z) : Z := s * 1000 * Z.pos ticks_per_ms.

(** The recursion stops at an id that is live already, so its depth is
    bounded by the number of records; [fuel] is that bound, and running
    out of it is a recursion that does not return. *)
Fixpoint MarkLiveWithParents (fuel : nat) (s : SnapshotMeta) (live : gset string)
  : M (gset string) :=
  match fuel with
  | O => diverge
  | Datatypes.S fuel' =>
      if decide (id s ∈ live) then ret live
      else
        let live := {[id s]} ∪ live in
        match parentId s with
        | Some parent =>
            p <- catalog_Get parent ;;
            match p with
            | Some p' => MarkLiveWithParents fuel' p' live
            | None => ret live
            end
        | None => ret live
        end
  end.

Definition mark_fuel : M nat :=
  fun w => Some (Datatypes.S (Datatypes.S (length (ListAll (catalog_ w)))), w).

Definition mark (s : SnapshotMeta) (live : gset string) : M (gset string) :=
  fuel <- mark_fuel ;; MarkLiveWithParents fuel s live.

Definition has_pin_tag (s : SnapshotMeta) : bool :=
  bool_decide ("pin" ∈ tags s) || bool_decide ("retain" ∈ tags s)
  || bool_decide ("legal" ∈ tags s).

Definition ComputeLiveSet (all : list SnapshotMeta) : M (gset string) :=
  now <- Clock_now ;;
  let cutoff := now - hours (maxAge policy_) in
  let sorted := sort_newest_first all in
  live <- foldM (fun live s => mark s live) (firstn (keepLastN policy_) sorted) ∅ ;;
  foldM (fun live s =>
           if decide (state s = Deleted) then ret live
           else
             live <- (if cutoff <=? created s then mark s live else ret live) ;;
             live <- (if 0 <? leaseCount s then mark s live else ret live) ;;
             if has_pin_tag s then mark s live else ret live)
        all live.

Definition TombstoneCandidates
    (all : list SnapshotMeta) (live : gset string) (metrics : GCMetrics) : M GCMetrics :=
  now <- Clock_now ;;
  metrics <- foldM (fun metrics s =>
    if negb (bool_decide (state s = Active)) then ret metrics
    else if bool_decide (id s ∈ live) then ret metrics
    else if 0 <? leaseCount s then ret metrics
    else if dryRun opts_ then
      catalog_RecordEvent {| when := now; snapshotId := id s;
                             type := "DRYRUN_TOMBSTONE"; details := "Would tombstone" |} ;;;
      ret metrics
    else
      ok <- catalog_TransitionState (id s) Active Tombstoned ;;
      if ok then
        cur <- catalog_Get (id s) ;;
        match cur with
        | Some m =>
            let m := set_hardDeleteAfter (Some (now + hours (gracePeriod opts_))) m in
            let m := set_nextRetryAfter None m in
            let m := set_lastError "" m in
            catalog_Upsert m ;;;
            catalog_RecordEvent {| when := now; snapshotId := id s; type := "TOMBSTONE";
                                   details := "Soft-deleted; hardDeleteAfter set" |} ;;;
            ret (incr_tombstoned metrics)
        | None => ret metrics
        end
      else ret metrics) all metrics ;;
  foldM (fun metrics s =>
    if negb (bool_decide (state s = Active)) then ret metrics
    else if bool_decide (id s ∈ live) then ret metrics
    else if 0 <? lastAccess s then
      let inactiveAfter := lastAccess s + hours (inactiveTimeout opts_) in
      t <- Clock_now ;;
      if inactiveAfter <=? t then
        t' <- Clock_now ;;
        catalog_RecordEvent
          {| when := t'; snapshotId := id s; type := "INACTIVE_ELIGIBLE";
             details := "Unreferenced long enough to be considered inactive" |} ;;;
        ret (incr_inactiveLoadedSignals metrics)
      else ret metrics
    else ret metrics) all metrics.

(** The test of the first loop of [HardDeleteEligible]. *)
Definition is_eligible (now : TimePoint) (s : SnapshotMeta) : bool :=
  if negb (bool_decide (state s = Tombstoned)) then false
  else if 0 <? leaseCount s then false
  else match hardDeleteAfter s with
       | None => false
       | Some h =>
           if now <? h then false
           else match nextRetryAfter s with
                | Some r => if now <? r then false else true
                | None => true
                end
       end.

(** [eligible] after the filter and the [resize]. *)
Definition eligible_records (now : TimePoint) (all : list SnapshotMeta) : list SnapshotMeta :=
  let eligible := filter (fun s => is_eligible now s = true) all in
  if (maxDeletesPerRun opts_ <? length eligible)%nat
  then firstn (maxDeletesPerRun opts_) eligible
  else eligible.

Definition is_catastrophic (ok : bool) (failed : list string) (err : string) : bool :=
  negb ok && is_empty_list failed && negb (is_empty_string err).

(** [baseRetryBackoff * (1u << std::min<std::uint32_t>(deleteFailures, 10))],
    in seconds. *)
Definition backoff (failures : Z) : Z :=
  baseRetryBackoff opts_ * (Z.shiftl 1 (Z.min failures 10) mod 2 ^ 32).

(** The body of the loop "Finalize each". *)
Definition finalize (ok : bool) (failed : list string) (err : string)
    (metrics : GCMetrics) (i : string) : M GCMetrics :=
  cur <- catalog_Get i ;;
  match cur with
  | None => ret metrics
  | Some m =>
      let isFailed := bool_decide (i ∈ failed) in
      let isFailed := if is_catastrophic ok failed err then true else isFailed in
      if negb isFailed then
        catalog_TransitionState i Deleting Deleted ;;;
        t <- Clock_now ;;
        catalog_RecordEvent {| when := t; snapshotId := i; type := "DELETE_OK";
                               details := "Payload permanently deleted" |} ;;;
        let metrics := incr_deleted metrics in
        corruption_Forget i ;;;
        ret metrics
      else
        let metrics := incr_deleteFailed metrics in
        let m := set_deleteFailures ((deleteFailures m + 1) mod 2 ^ 32) m in
        let m := set_lastError (if is_empty_string err then "Delete failed" else err) m in
        t <- Clock_now ;;
        let m := set_nextRetryAfter (Some (t + seconds (backoff (deleteFailures m)))) m in
        metrics <-
          (if maxDeleteFailuresBeforeQuarantine opts_ <=? deleteFailures m then
             catalog_TransitionState i Deleting Quarantined ;;;
             t <- Clock_now ;;
             catalog_RecordEvent
               {| when := t; snapshotId := i; type := "QUARANTINE";
                  details := "Too many delete failures: " +:+ lastError m |} ;;;
             ret (incr_quarantined metrics)
           else
             catalog_TransitionState i Deleting Tombstoned ;;;
             t <- Clock_now ;;
             catalog_RecordEvent
               {| when := t; snapshotId := i; type := "DELETE_FAIL";
                  details := "Will retry after backoff; err=" +:+ lastError m |} ;;;
             ret metrics) ;;
        catalog_Upsert m ;;;
        ret metrics
  end.

(** One batch: the body of the loop over [i] after [batchIds] is built. *)
Definition process_batch (now : TimePoint) (batchIds : list string) (metrics : GCMetrics)
  : M GCMetrics :=
  if dryRun opts_ then
    foldM (fun (_ : unit) i =>
             catalog_RecordEvent {| when := now; snapshotId := i; type := "DRYRUN_DELETE";
                                    details := "Would hard-delete payload" |})
          batchIds tt ;;;
    ret metrics
  else
    deletingIds <- foldM (fun deletingIds i =>
                            ok <- catalog_TransitionState i Tombstoned Deleting ;;
                            ret (if ok then deletingIds ++ [i] else deletingIds))
                         batchIds [] ;;
    if is_empty_list deletingIds then ret metrics
    else
      r <- storage_DeleteSnapshotPayloadBatch deletingIds [] "" ;;
      let '(ok, failed, err) := r in
      foldM (finalize ok failed err) deletingIds metrics.

(** [for (i = 0; i < eligible.size(); i += batchDeleteSize)]; every round
    of a loop that ends takes [i] further, so [fuel = eligible.size()]
    rounds are enough for it, and running out of them is a loop that does
    not end ([batchDeleteSize = 0]). *)
Fixpoint batches (fuel : nat) (i : nat) (now : TimePoint)
    (eligible : list SnapshotMeta) (metrics : GCMetrics) : M GCMetrics :=
  if (i <? length eligible)%nat then
    match fuel with
    | O => diverge
    | Datatypes.S fuel' =>
        let batchIds := id <$> firstn (batchDeleteSize opts_) (skipn i eligible) in
        metrics <- process_batch now batchIds metrics ;;
        batches fuel' (i + batchDeleteSize opts_) now eligible metrics
    end
  else ret metrics.

Definition HardDeleteEligible (metrics : GCMetrics) : M GCMetrics :=
  now <- Clock_now ;;
  all <- catalog_ListAll ;;
  let eligible := eligible_records now all in
  batches (length eligible) 0 now eligible metrics.

Definition RunOnce : M GCMetrics :=
  refused <- leader_refuses ;;
  if refused then ret zero_metrics
  else
    let metrics := zero_metrics in
    all <- catalog_ListAll ;;
    let metrics := set_scanned (length all) metrics in
    live <- ComputeLiveSet all ;;
    metrics <- (if enableTombstoneStage opts_
                then TombstoneCandidates all live metrics else ret metrics) ;;
    metrics <- (if enableHardDeleteStage opts_
                then HardDeleteEligible metrics else ret metrics) ;;
    leader_Release ;;;
    ret metrics.
End Engine.

(** ** Notions used to state the properties *)

(** *** Sequences of catalog operations *)

Inductive CatalogOp :=
  | OpUpsert (m : SnapshotMeta)
  | OpTransitionState (i : string) (expected desired : SnapshotState)
  | OpRecordEvent (e : GCEvent).

(** The contents of a file that holds the lines [ls]. *)
Definition file_of_lines (ls : list string) : string :=
  foldr (fun l rest => l +:+ String nl rest) "" ls.

Section CatalogOps.
Context {period : ClockPeriod}.

Definition apply_op (c : JournalCatalog) (o : CatalogOp) : JournalCatalog :=
  match o with
  | OpUpsert m => (JournalCatalog_Upsert m c).2
  | OpTransitionState i expected desired =>
      (JournalCatalog_TransitionState i expected desired c).2
  | OpRecordEvent e => JournalCatalog_RecordEvent e c
  end.

(** A catalog constructed on a path without file. *)
Definition new_catalog : JournalCatalog := {| journalFile := None; items_ := ∅ |}.

Definition run_ops (ops : list CatalogOp) : JournalCatalog :=
  fold_left apply_op ops new_catalog.

(** A time point that is a whole number of milliseconds. *)
Definition whole_ms (t : TimePoint) : bool := Z.rem t (Z.pos ticks_per_ms) =? 0.

Definition int64_ticks (t : TimePoint) : bool := (int64_min <=? t) && (t <=? int64_max).

Definition journal_time (t : TimePoint) : bool := whole_ms t && int64_ticks t.

Definition journal_optional_time (o : option TimePoint) : bool :=
  match o with
  | Some t => journal_time t && (0 <=? t)
  | None => true
  end.

(** The records the ten fields of a journal line can hold: no parent and
    no tags, no field separator in the two text fields, time points that
    are whole milliseconds (and not before the epoch where -1 stands for
    an absent one), members within the range of their C++ type. *)
Definition representable (m : SnapshotMeta) : bool :=
  bool_decide (parentId m = None) && bool_decide (tags m = ∅)
  && negb (contains pipe (id m)) && negb (contains pipe (lastError m))
  && journal_time (created m) && journal_time (lastAccess m)
  && journal_optional_time (hardDeleteAfter m)
  && journal_optional_time (nextRetryAfter m)
  && (0 <=? sizeBytes m) && (sizeBytes m <=? uint64_max)
  && (0 <=? leaseCount m) && (leaseCount m <=? uint32_max)
  && (0 <=? deleteFailures m) && (deleteFailures m <=? uint32_max)
  && int_state (state m).

(** An id a [STATE] line can hold: one word. *)
Definition one_word (s : string) : bool :=
  negb (is_empty_string s) && negb (has_space s).

(** The operations whose journal lines replay to what they did: an
    [Upsert] of a record a journal line can hold, under an id of one word; a
    transition between values of the enumeration (those of an [int]); an
    event whose snapshot id and type are free of newlines. *)
Definition journal_safe (o : CatalogOp) : bool :=
  match o with
  | OpUpsert m => representable m && one_word (id m)
  | OpTransitionState _ expected desired => int_state expected && int_state desired
  | OpRecordEvent e => negb (contains nl (snapshotId e)) && negb (contains nl (type e))
  end.
(** The journal holds lines that replay to the index, and every record of
    the index is filed under its own id, which is one word. *)
Definition journal_inv (c : JournalCatalog) : Prop :=
  (forall k m, items_ c !! k = Some m -> id m = k /\ one_word k = true) /\
  exists ls, default "" (journalFile c) = file_of_lines ls /\
             Forall (fun l => contains nl l = false) ls /\
             replay_lines ∅ ls = Some (items_ c).
End CatalogOps.

(** *** The turns of a loop *)

(** Every element of [l] with the elements before it, [done] being those
    before [l]. *)
Fixpoint turns {A} (done l : list A) : list (list A * A) :=
  match l with
  | [] => []
  | a :: l' => (done, a) :: turns (done ++ [a]) l'
  end.

(** *** Calls of a pass *)

(** The calls of a dry run: reads of the catalog, the leader handshake and
    events of the three dry-run kinds. *)
Definition dry_run_call (c : Call) : Prop :=
  match c with
  | CallListAll | CallGet _ | CallTryAcquire _ | CallRelease => True
  | CallRecordEvent e =>
      type e = "DRYRUN_TOMBSTONE" \/ type e = "DRYRUN_DELETE" \/ type e = "INACTIVE_ELIGIBLE"
  | CallTransitionState _ _ _ _ | CallUpsert _
  | CallDeleteSnapshotPayloadBatch _ | CallForgetCorruptionForSnapshot _ => False
  end.

(** The calls of the hard-delete stage that name snapshots name them from
    [ids]; the stage makes no call on the leader. *)
Definition call_within (ids : list string) (c : Call) : Prop :=
  match c with
  | CallListAll | CallUpsert _ => True
  | CallGet i | CallTransitionState i _ _ _ | CallForgetCorruptionForSnapshot i => i ∈ ids
  | CallRecordEvent e => snapshotId e ∈ ids
  | CallDeleteSnapshotPayloadBatch l => l ⊆ ids
  | CallTryAcquire _ | CallRelease => False
  end.

(** The record an [Upsert] writes has its retry time at a clock reading plus
    the backoff for its failure counter. *)
Definition retry_call {period : ClockPeriod} (clock : nat -> TimePoint) (opts : GCOptions)
    (c : Call) : Prop :=
  match c with
  | CallUpsert m =>
      exists r, nextRetryAfter m =
                  Some (clock r + seconds (baseRetryBackoff opts * 2 ^ Z.min (deleteFailures m) 10))
  | _ => True
  end.

(** The payload ids a call hands to the storage backend for deletion. *)
Definition deleted_payloads (c : Call) : list string :=
  match c with
  | CallDeleteSnapshotPayloadBatch l => l
  | _ => []
  end.

(** The number of payload ids the calls [new] hand to the storage backend. *)
Definition payloads_deleted (new : list Call) : nat :=
  length (concat (deleted_payloads <$> new)).

(** The log [cur] extends the log [old] by calls that hand at most [n]
    payload ids to the storage backend. *)
Definition count_inv (n : nat) (old cur : list Call) : Prop :=
  exists new, cur = new ++ old /\ (payloads_deleted new <= n)%nat.

(** *** Weakest preconditions *)

Section WP.
Context {C S L K : Type}.

(** [wp T m Q w]: run in [w], [m] returns a result and a world that
    satisfy [Q]; or it does not return, and then [T] is false.  With
    [T := True] this is total correctness, with [T := False] partial. *)
Definition wp (T : Prop) {A} (m : @M C S L K A) (Q : A -> @World C S L K -> Prop)
    (w : @World C S L K) : Prop :=
  match m w with
  | Some (a, w') => Q a w'
  | None => ~ T
  end.

(** The log of [w] extends that of [w0] by calls that satisfy [P], and the
    catalog and the storage of [w] satisfy [J]. *)
Definition call_inv (P : Call -> Prop) (J : C -> S -> Prop) (w0 w : @World C S L K) : Prop :=
  J (catalog_ w) (storage_ w) /\
  exists new, calls w = new ++ calls w0 /\ Forall P new.
End WP.

(** The index of the catalog and the storage are those of [w0]. *)
Definition unchanged {S L K : Type} {period : ClockPeriod}
    (w0 : @World JournalCatalog S L K) (c : JournalCatalog) (s : S) : Prop :=
  items_ c = items_ (catalog_ w0) /\ s = storage_ w0.

(** The counters of a pass that committed nothing. *)
Definition dry_metrics (g : GCMetrics) : Prop :=
  tombstoned g = 0%nat /\ deleted g = 0%nat /\ quarantined g = 0%nat /\ deleteFailed g = 0%nat.

(** *** Lines of fields *)

(** The number of occurrences of [c] in [s]. *)
Fixpoint count_char (c : ascii) (s : string) : nat :=
  match s with
  | EmptyString => O
  | String a s' => if decide (a = c) then S (count_char c s') else count_char c s'
  end.

(** The fields [parts], with the separator of the journal between them. *)
Fixpoint join_fields (parts : list string) : string :=
  match parts with
  | [] => ""
  | [p] => p
  | p :: ps => p +:+ "|" +:+ join_fields ps
  end.

Section JournalNotions.
Context {period : ClockPeriod}.

(** A time point cut to whole milliseconds, as a journal line holds it. *)
Definition truncate_ms (t : TimePoint) : TimePoint := fromMs (toMs t).

(** An optional time point as a journal line holds it: one whose millisecond
    count is negative is read as an absent one. *)
Definition truncate_optional (o : option TimePoint) : option TimePoint :=
  match o with
  | Some t => if 0 <=? toMs t then Some (truncate_ms t) else None
  | None => None
  end.

(** What a journal line holds of a record. *)
Definition journal_image (m : SnapshotMeta) : SnapshotMeta :=
  {| id := id m; created := truncate_ms (created m); sizeBytes := sizeBytes m;
     state := state m; parentId := None; tags := ∅; leaseCount := leaseCount m;
     lastAccess := truncate_ms (lastAccess m);
     hardDeleteAfter := truncate_optional (hardDeleteAfter m);
     deleteFailures := deleteFailures m;
     nextRetryAfter := truncate_optional (nextRetryAfter m);
     lastError := lastError m |}.

Definition optional_int64_ticks (o : option TimePoint) : bool :=
  match o with Some t => int64_ticks t | None => true end.

(** The records of the C++ type whose line [Deserialize] splits into the
    ten fields [Serialize] wrote: no field separator in the two text fields;
    the numeric members are within the range of their C++ types. *)
Definition splittable (m : SnapshotMeta) : bool :=
  negb (contains pipe (id m)) && negb (contains pipe (lastError m))
  && int64_ticks (created m) && int64_ticks (lastAccess m)
  && optional_int64_ticks (hardDeleteAfter m)
  && optional_int64_ticks (nextRetryAfter m)
  && (0 <=? sizeBytes m) && (sizeBytes m <=? uint64_max)
  && (0 <=? leaseCount m) && (leaseCount m <=? uint32_max)
  && (0 <=? deleteFailures m) && (deleteFailures m <=? uint32_max)
  && int_state (state m).

(** Every record of the index is filed under its own id. *)
Definition keyed (items : gmap string SnapshotMeta) : Prop :=
  forall k m, items !! k = Some m -> id m = k.

(** [Replay] where the read of a [desired] that no extraction has written
    gives some value [n] of [int], whichever: one line, the lines of a
    file, and the catalogs the constructor builds on a journal file when it
    returns. *)
Definition replay_line_any (items : gmap string SnapshotMeta) (line : string)
    (items' : gmap string SnapshotMeta) : Prop :=
  replay_line items line = Some items' \/
  (starts_with "UPSERT " line = false /\ starts_with "STATE " line = true /\
   exists i m n, parse_state_line line = (i, None) /\ items !! i = Some m /\
                 items' = <[i := set_state (state_of_int n) m]> items).

Inductive replay_lines_any
  : gmap string SnapshotMeta -> list string -> gmap string SnapshotMeta -> Prop :=
  | replay_any_nil items : replay_lines_any items [] items
  | replay_any_cons items l items1 ls items' :
      replay_line_any items l items1 -> replay_lines_any items1 ls items' ->
      replay_lines_any items (l :: ls) items'.

Definition opens_as (file : option string) (c : JournalCatalog) : Prop :=
  journalFile c = file /\
  match file with
  | None => items_ c = ∅
  | Some contents => replay_lines_any ∅ (getlines contents) (items_ c)
  end.
End JournalNotions.

(** *** Payloads that cannot be removed *)



(** The payload of [i] is there and its removal raises. *)
Definition stuck (fs : FilesystemStorage) (i : string) : Prop :=
  i ∈ payloads fs /\ is_Some (busy fs !! i).

Global Instance stuck_dec (fs : FilesystemStorage) (i : string) : Decision (stuck fs i).
Proof. unfold stuck. apply _. Defined.

(** *** Electors on one lock path *)

(** Several [FileLockLeaderElector] objects constructed on the same path:
    the lock file they share, and [acquired_] of each of them. *)
Record LockPath := {
  lock_file : bool;
  electors : list bool
}.

Inductive LockCall :=
  | DoTryAcquire (k : nat)
  | DoRelease (k : nat).

(** A method of the [k]-th elector, run on the shared lock file. *)
Definition on_elector (k : nat) (f : FileLockLeaderElector -> FileLockLeaderElector)
    (p : LockPath) : LockPath :=
  match electors p !! k with
  | Some a =>
      let l := f {| lockFile := lock_file p; acquired_ := a |} in
      {| lock_file := lockFile l; electors := <[k := acquired_ l]> (electors p) |}
  | None => p
  end.

(** Calls that do not overlap in time, one after the other. *)
Definition lock_call (p : LockPath) (c : LockCall) : LockPath :=
  match c with
  | DoTryAcquire k => on_elector k (fun l => (FileLockLeaderElector_TryAcquire l).2) p
  | DoRelease k => on_elector k FileLockLeaderElector_Release p
  end.

(** At most one elector has acquired the lock, and the lock file exists
    while one has. *)
Definition one_leader (p : LockPath) : Prop :=
  (forall j k, electors p !! j = Some true -> electors p !! k = Some true -> j = k) /\
  (forall k, electors p !! k = Some true -> lock_file p = true).

(** *** The live set *)

(** The records [ComputeLiveSet] marks in its second loop: not deleted and
    created at or after the cutoff, leased, or tagged to be kept. *)
Definition anchored {period : ClockPeriod} (policy : RetentionPolicy) (now : TimePoint)
    (s : SnapshotMeta) : Prop :=
  state s <> Deleted /\
  (now - hours (maxAge policy) <= created s \/ 0 < leaseCount s \/ has_pin_tag s = true).

(** With every record of the index that is in [live], its parent is in
    [live] when the index has it. *)
Definition parents_closed (items : gmap string SnapshotMeta) (live : gset string) : Prop :=
  forall k m p,
    items !! k = Some m -> k ∈ live -> parentId m = Some p -> is_Some (items !! p) -> p ∈ live.

(** *** The tombstone stage *)

(** The test of the first loop of [TombstoneCandidates]. *)
Definition tombstone_candidate (live : gset string) (s : SnapshotMeta) : bool :=
  bool_decide (state s = Active) && negb (bool_decide (id s ∈ live))
  && negb (0 <? leaseCount s).

(** The record the stage writes back for a candidate. *)
Definition tombstoned_at (t : TimePoint) (s : SnapshotMeta) : SnapshotMeta :=
  set_lastError "" (set_nextRetryAfter None (set_hardDeleteAfter (Some t)
    (set_state Tombstoned s))).

(** *** The calls of the stages of a pass *)

(** The calls of [ComputeLiveSet]. *)
Definition live_set_call (c : Call) : Prop :=
  match c with
  | CallGet _ => True
  | _ => False
  end.

(** The calls of the tombstone stage: for the snapshots [cand] the
    transition from Active to Tombstoned, the [Get] and the [Upsert] of the
    record with its [hardDeleteAfter] at [t], and the event of the stage;
    in a dry run the event only. *)
Definition tombstone_call (dry : bool) (cand : string -> Prop) (t : TimePoint) (c : Call)
  : Prop :=
  match c with
  | CallTransitionState i e d _ => dry = false /\ e = Active /\ d = Tombstoned /\ cand i
  | CallGet i => dry = false /\ cand i
  | CallUpsert m =>
      dry = false /\ hardDeleteAfter m = Some t /\ nextRetryAfter m = None /\ lastError m = ""
  | CallRecordEvent e =>
      type e = "INACTIVE_ELIGIBLE" \/
      (cand (snapshotId e) /\ type e = if dry then "DRYRUN_TOMBSTONE" else "TOMBSTONE")
  | _ => False
  end.

(** The calls of the hard-delete stage: the listing; outside of a dry run
    the transition from Tombstoned to Deleting, the deletion of a batch that
    is not empty, and, to finalize, [Get], a transition from Deleting, the
    event, the corruption hook and [Upsert]; in a dry run the event only. *)
Definition hard_delete_call (dry : bool) (c : Call) : Prop :=
  match c with
  | CallListAll => True
  | CallGet _ | CallUpsert _ | CallForgetCorruptionForSnapshot _ => dry = false
  | CallTransitionState _ e d _ =>
      dry = false /\
      (e = Tombstoned /\ d = Deleting \/
       e = Deleting /\ (d = Deleted \/ d = Quarantined \/ d = Tombstoned))
  | CallDeleteSnapshotPayloadBatch ids => dry = false /\ ids <> []
  | CallRecordEvent e =>
      if dry then type e = "DRYRUN_DELETE"
      else type e = "DELETE_OK" \/ type e = "QUARANTINE" \/ type e = "DELETE_FAIL"
  | _ => False
  end.

(** What the tombstone stage does to the counters: [tombstoned] grows by
    at most [a] and [inactiveLoadedSignals] by at most [b]; the others stay. *)
Definition tombstone_metrics (a b : nat) (g g' : GCMetrics) : Prop :=
  scanned g' = scanned g /\ deleted g' = deleted g /\ quarantined g' = quarantined g /\
  deleteFailed g' = deleteFailed g /\
  (tombstoned g <= tombstoned g' <= tombstoned g + a)%nat /\
  (inactiveLoadedSignals g <= inactiveLoadedSignals g'
   <= inactiveLoadedSignals g + b)%nat.

(** What the hard-delete stage does to the counters: [deleted] and
    [deleteFailed] grow by at most [n] together, [quarantined] grows by no
    more than [deleteFailed] does; the others stay. *)
Definition hard_delete_metrics (n : nat) (g g' : GCMetrics) : Prop :=
  scanned g' = scanned g /\ tombstoned g' = tombstoned g /\
  inactiveLoadedSignals g' = inactiveLoadedSignals g /\
  (deleted g <= deleted g')%nat /\ (deleteFailed g <= deleteFailed g')%nat /\
  (quarantined g <= quarantined g')%nat /\
  (deleted g' + deleteFailed g' <= deleted g + deleteFailed g + n)%nat /\
  (quarantined g' + deleteFailed g <= quarantined g + deleteFailed g')%nat.

(** The elector of [w] is the one of [w0], the storage of [w] satisfies
    [J], and the log of [w] extends that of [w0] by calls that satisfy [P]. *)
Definition stage_inv {C S L K : Type} (P : Call -> Prop) (J : S -> Prop)
    (w0 w : @World C S L K) : Prop :=
  leader_ w = leader_ w0 /\ J (storage_ w) /\
  exists new, calls w = new ++ calls w0 /\ Forall P new.

(** The records a pass may tombstone: Active, without lease, not anchored,
    and not among the [keepLastN] newest of the listing. *)
Definition unprotected {period : ClockPeriod} {sorter : Sort}
    (policy : RetentionPolicy) (now : TimePoint) (all : list SnapshotMeta) (i : string) : Prop :=
  exists s, s ∈ all /\ id s = i /\ state s = Active /\ leaseCount s <= 0 /\
            ~ anchored policy now s /\
            s ∉ firstn (keepLastN policy) (sort_newest_first all).

(** The handshake with the elector around a pass that runs. *)
Definition acquire_calls {L : Type} (leader : option L) : list Call :=
  match leader with Some _ => [CallTryAcquire true] | None => [] end.

Definition release_calls {L : Type} (leader : option L) : list Call :=
  match leader with Some _ => [CallRelease] | None => [] end.

(** A call on the elector. *)
Definition leader_call (c : Call) : Prop :=
  match c with
  | CallTryAcquire _ | CallRelease => True
  | _ => False
  end.

(** *** The records a stage leaves alone *)

(** The index [items] has the ids of [items0], every record under its own
    id, and outside of [ids] the records of [items0]. *)
Definition frame (ids : list string) (items0 items : gmap string SnapshotMeta) : Prop :=
  keyed items /\
  (forall k, is_Some (items !! k) <-> is_Some (items0 !! k)) /\
  (forall k, k ∉ ids -> items !! k = items0 !! k).

(** ** Scenarios *)

(** A clock that counts nanoseconds, stopped at [t]. *)
Definition nanoseconds : ClockPeriod := 1000000%positive.
Definition stopped (t : TimePoint) : nat -> TimePoint := fun _ => t.

(** The traversal of the index in the order of [map_to_list]. *)
Definition by_key : Traversal :=
  {| traverse := fun m => (map_to_list m).*2;
     traverse_values := fun m => Permutation_refl _ |}.

(** A stable insertion sort: records with equal [created] keep the order of
    the listing. *)
Fixpoint insert_newest_first (x : SnapshotMeta) (l : list SnapshotMeta) : list SnapshotMeta :=
  match l with
  | [] => [x]
  | y :: l' => if created y <=? created x then x :: l else y :: insert_newest_first x l'
  end.

Definition insertion_sort : Sort.
Proof.
  assert (Hperm : forall x l, insert_newest_first x l ≡ₚ x :: l).
  { intros x l. induction l as [|y l IH]; [reflexivity|]. simpl.
    destruct (created y <=? created x); [reflexivity|].
    rewrite IH. apply Permutation_swap. }
  refine {| sort_newest_first := foldr insert_newest_first [] |}.
  - intros l. induction l as [|x l IH]; [reflexivity|]. simpl.
    rewrite Hperm, IH. reflexivity.
  - intros l. induction l as [|x l IH]; [constructor|]. simpl.
    induction IH as [|y l' Hsorted IHl Hall]; simpl.
    + repeat constructor.
    + destruct (Z.leb_spec (created y) (created x)) as [Hle|Hgt].
      * constructor; [constructor; assumption|].
        constructor; [exact Hle|].
        eapply Forall_impl; [exact Hall|]. simpl. intros z Hz. lia.
      * constructor; [exact IHl|].
        rewrite Hperm. constructor; [lia | exact Hall].
Defined.

(** 2024-01-01T00:00:00Z and one hour, in nanoseconds. *)
Definition t0 : TimePoint := 1704067200000 * 1000000.
Definition hour : Z := 3600000 * 1000000.

Definition snapshot (i : string) (t : TimePoint) (st : SnapshotState)
    (parent : option string) : SnapshotMeta :=
  {| id := i; created := t; sizeBytes := 1; state := st; parentId := parent; tags := ∅;
     leaseCount := 0; lastAccess := 0; hardDeleteAfter := None; deleteFailures := 0;
     nextRetryAfter := None; lastError := "" |}.

Definition catalog_of (l : list SnapshotMeta) : JournalCatalog :=
  {| journalFile := None; items_ := list_to_map ((fun s => (id s, s)) <$> l) |}.

(** A world without elector and without corruption tracker. *)
Definition world_of (c : JournalCatalog) (fs : FilesystemStorage)
  : @World JournalCatalog FilesystemStorage FileLockLeaderElector unit :=
  {| catalog_ := c; storage_ := fs; leader_ := None; corruption_ := None;
     reads := 0; calls := [] |}.

Definition state_of (i : string)
    (w : @World JournalCatalog FilesystemStorage FileLockLeaderElector unit)
  : option SnapshotState :=
  state <$> items_ (catalog_ w) !! i.

(** Scenario D: the payload of the tombstoned snapshot X cannot be removed;
    X has failed [failures] times before. *)
Definition snapshot_X (failures : Z) : SnapshotMeta :=
  set_deleteFailures failures
    (set_hardDeleteAfter (Some (t0 + hour)) (snapshot "X" t0 Tombstoned None)).

Definition world_D (failures : Z) :=
  world_of (catalog_of [snapshot_X failures])
           {| payloads := {["X"]}; busy := {["X" := "Device or resource busy"]} |}.

Definition options_D : GCOptions :=
  {| dryRun := false; enableTombstoneStage := true; enableHardDeleteStage := true;
     inactiveTimeout := 24 * 7; gracePeriod := 24 * 7;
     maxDeletesPerRun := 1000; batchDeleteSize := 50;
     maxDeleteFailuresBeforeQuarantine := 3; baseRetryBackoff := 10 |}.


(** A deleted snapshot D, the newest, with parent P; Q between them. *)
Definition listing_DQP : list SnapshotMeta :=
  [snapshot "P" t0 Active None;
   snapshot "Q" (t0 + hour) Active None;
   snapshot "D" (t0 + 2 * hour) Deleted (Some "P")].

Definition policy_keep1 : RetentionPolicy :=
  {| keepLastN := 1; maxAge := 1; enableCheckpointing := false; checkpointInterval := 24 * 7 |}.

Definition world_DQP := world_of (catalog_of listing_DQP) {| payloads := ∅; busy := ∅ |}.

(** Scenario A: five snapshots an hour apart, the three newest to be kept;
    scenario E: the same in a dry run. *)
Definition world_A :=
  world_of (catalog_of [snapshot "s0" t0 Active None;
                        snapshot "s1" (t0 + hour) Active None;
                        snapshot "s2" (t0 + 2 * hour) Active None;
                        snapshot "s3" (t0 + 3 * hour) Active None;
                        snapshot "s4" (t0 + 4 * hour) Active None])
           {| payloads := ∅; busy := ∅ |}.

Definition policy_A : RetentionPolicy :=
  {| keepLastN := 3; maxAge := 0; enableCheckpointing := false; checkpointInterval := 24 * 7 |}.

Definition options_E : GCOptions :=
  {| dryRun := true; enableTombstoneStage := true; enableHardDeleteStage := true;
     inactiveTimeout := 24 * 7; gracePeriod := 24 * 7;
     maxDeletesPerRun := 1000; batchDeleteSize := 50;
     maxDeleteFailuresBeforeQuarantine := 5; baseRetryBackoff := 10 |}.

(** Scenario B: the snapshot B, the only one to be kept, has the parent A. *)
Definition world_B :=
  world_of (catalog_of [snapshot "A" t0 Active None;
                        snapshot "B" (t0 + hour) Active (Some "A")])
           {| payloads := ∅; busy := ∅ |}.

(** Scenario C: the grace of the tombstoned snapshot X has elapsed, and its
    payload can be removed. *)
Definition world_C :=
  world_of (catalog_of [snapshot_X 0]) {| payloads := {["X"]}; busy := ∅ |}.

(** Scenario F: the lock file of the leader exists. *)
Definition world_F : @World JournalCatalog FilesystemStorage FileLockLeaderElector unit :=
  {| catalog_ := catalog_of []; storage_ := {| payloads := ∅; busy := ∅ |};
     leader_ := Some {| lockFile := true; acquired_ := false |};
     corruption_ := None; reads := 0; calls := [] |}.

(** The passes and the journals of the scenarios, with the clock, the
    traversal and the sort above. *)
Section Scenarios.
#[local] Existing Instance nanoseconds.
#[local] Existing Instance by_key.
#[local] Existing Instance insertion_sort.

Definition pass_D (failures : Z) :=
  RunOnce (stopped (t0 + 4 * hour)) default_policy options_D (world_D failures).




Definition live_DQP :=
  ComputeLiveSet (stopped (t0 + 4 * hour)) policy_keep1 (ListAll (catalog_ world_DQP))
    world_DQP.

Definition pass_DQP :=
  RunOnce (stopped (t0 + 4 * hour)) policy_keep1 default_options world_DQP.

Definition pass_A := RunOnce (stopped (t0 + 4 * hour)) policy_A default_options world_A.

Definition pass_B := RunOnce (stopped (t0 + 4 * hour)) policy_keep1 default_options world_B.

Definition pass_C := RunOnce (stopped (t0 + 4 * hour)) default_policy default_options world_C.

Definition pass_E := RunOnce (stopped (t0 + 4 * hour)) policy_A options_E world_A.

Definition pass_F := RunOnce (stopped (t0 + 4 * hour)) default_policy default_options world_F.

Definition written (m : SnapshotMeta) : string := Serialize m.
Definition read_back (m : SnapshotMeta) : option SnapshotMeta := Deserialize (Serialize m).
Definition journal_after (ops : list CatalogOp) : JournalCatalog := run_ops ops.
Definition reopened (ops : list CatalogOp) : option JournalCatalog :=
  open_JournalCatalog (journalFile (run_ops ops)).
End Scenarios.

(** A record with a retry time and an error text of several lines. *)
Definition with_escapes : SnapshotMeta :=
  set_lastError (String "a" (String nl (String cr (String backslash "n"))))
    (set_nextRetryAfter (Some (t0 + 5 * hour)) (snapshot_X 2)).

(** The operations of a failed deletion of X. *)
Definition journal_of_X : list CatalogOp :=
  [OpUpsert (snapshot_X 0);
   OpTransitionState "X" Tombstoned Deleting;
   OpRecordEvent {| when := t0; snapshotId := "X"; type := "DELETE_FAIL";
                    details := String "e" (String nl "rr") |};
   OpTransitionState "X" Deleting Tombstoned;
   OpUpsert (set_lastError (String backslash "busy")
               (set_nextRetryAfter (Some (t0 + 5 * hour)) (snapshot_X 1)))].

(** Records and operations outside of what a journal line holds. *)
Definition with_parent : SnapshotMeta := snapshot "B" t0 Active (Some "A").
Definition with_tag : SnapshotMeta :=
  {| id := "A"; created := t0; sizeBytes := 1; state := Active; parentId := None;
     tags := {["pin"]}; leaseCount := 0; lastAccess := 0; hardDeleteAfter := None;
     deleteFailures := 0; nextRetryAfter := None; lastError := "" |}.
Definition with_pipe : SnapshotMeta := set_lastError "a|b" (snapshot "A" t0 Tombstoned None).
Definition off_millisecond : SnapshotMeta := snapshot "A" (t0 + 1) Active None.
Definition before_epoch : SnapshotMeta :=
  set_hardDeleteAfter (Some (- 1000000)) (snapshot "A" t0 Tombstoned None).
Definition forged_event : GCEvent :=
  {| when := t0; snapshotId := "A";
     type := String "X" (String nl "UPSERT ghost|0|0|0|0|0|-1|0|-1|");
     details := "" |}.
Definition two_words : SnapshotMeta := snapshot "A B" t0 Active None.

(** Two electors on one lock path: before any call, and with the lock file
    left behind by a third. *)
Definition free_path : LockPath := {| lock_file := false; electors := [false; false] |}.
Definition stale_path : LockPath := {| lock_file := true; electors := [false; false] |}.

(** A record off the millisecond, with a parent; a record to be deleted a
    nanosecond before the epoch. *)
Definition off_millisecond_child : SnapshotMeta := snapshot "B" (t0 + 1) Active (Some "A").
Definition just_before_epoch : SnapshotMeta :=
  set_hardDeleteAfter (Some (- 1)) (snapshot "A" t0 Tombstoned None).

(** Scenario G: an elector whose lock file does not exist. *)
Definition world_G : @World JournalCatalog FilesystemStorage FileLockLeaderElector unit :=
  {| catalog_ := catalog_of [snapshot "s0" t0 Active None];
     storage_ := {| payloads := ∅; busy := ∅ |};
     leader_ := Some {| lockFile := false; acquired_ := false |};
     corruption_ := None; reads := 0; calls := [] |}.

(** The live set of scenario B, the tombstone stage of scenario A with the
    three newest snapshots live, and the pass of scenario G; a storage with
    the payloads of X, which cannot be removed, and Y; a journal whose
    last line, a [STATE] line for X, ends after [expected], and a catalog
    built on it, the state of X having the value 7. *)
Section FurtherScenarios.
#[local] Existing Instance nanoseconds.
#[local] Existing Instance by_key.
#[local] Existing Instance insertion_sort.


Definition cut_state_journal : string :=
  file_of_lines ["UPSERT " +:+ written (snapshot_X 0); "STATE X 1"].

Definition catalog_of_cut_journal : JournalCatalog :=
  {| journalFile := Some cut_state_journal;
     items_ := {["X" := set_state (state_of_int 7) (snapshot_X 0)]} |}.

Definition live_B :=
  ComputeLiveSet (stopped (t0 + 4 * hour)) policy_keep1 (ListAll (catalog_ world_B)) world_B.

Definition tombstone_A :=
  TombstoneCandidates (stopped (t0 + 4 * hour)) default_options (ListAll (catalog_ world_A))
    {["s2"; "s3"; "s4"]} zero_metrics world_A.

Definition pass_G := RunOnce (stopped (t0 + 4 * hour)) default_policy default_options world_G.
End FurtherScenarios.

(** * Properties *)

(** ** The scenarios of the specification *)

(** Scenario A: the two oldest of five snapshots are tombstoned. *)
Example scenario_A :
  exists g w',
    pass_A = Some (g, w') /\ scanned g = 5%nat /\ tombstoned g = 2%nat /\
    state_of "s0" w' = Some Tombstoned /\ state_of "s1" w' = Some Tombstoned /\
    state_of "s2" w' = Some Active /\ state_of "s3" w' = Some Active /\
    state_of "s4" w' = Some Active.
Proof. vm_compute. do 2 eexists. repeat split. Qed.

(** Scenario B: the parent of the kept snapshot is kept. *)
Example scenario_B :
  exists g w',
    pass_B = Some (g, w') /\ tombstoned g = 0%nat /\
    state_of "A" w' = Some Active /\ state_of "B" w' = Some Active.
Proof. vm_compute. do 2 eexists. repeat split. Qed.

(** Scenario C: after the grace the payload is removed, with one call on the
    storage, and the record is Deleted. *)
Example scenario_C :
  exists g w',
    pass_C = Some (g, w') /\ deleted g = 1%nat /\
    state_of "X" w' = Some Deleted /\
    payloads (storage_ w') = ∅ /\
    filter (fun c => deleted_payloads c <> []) (calls w')
      = [CallDeleteSnapshotPayloadBatch ["X"]] /\
    (exists e, In (CallRecordEvent e) (calls w') /\ type e = "DELETE_OK").
Proof.
  vm_compute. do 2 eexists. split; [reflexivity|]. repeat split.
  eexists. split; [left; reflexivity | reflexivity].
Qed.

(** Scenario E: the dry run names the two candidates and changes nothing. *)
Example scenario_E :
  exists g w',
    pass_E = Some (g, w') /\ tombstoned g = 0%nat /\
    items_ (catalog_ w') = items_ (catalog_ world_A) /\
    (fun c => match c with CallRecordEvent e => Some (snapshotId e, type e) | _ => None end)
      <$> calls w'
    = [None; Some ("s0", "DRYRUN_TOMBSTONE"); Some ("s1", "DRYRUN_TOMBSTONE"); None].
Proof. vm_compute. do 2 eexists. repeat split. Qed.

(** ** Leadership *)

Section Leadership.
Context {C S L K : Type}.
Context {catalog : ISnapshotCatalog C} {storage : IStorageBackend S}.
Context {elector : ILeaderElector L} {tracker : ICorruptionTracker K}.
Context {period : ClockPeriod} {sorter : Sort}.

(** C9.  With an elector whose [TryAcquire] returns false, [RunOnce]
    returns the all-zero metrics, and the world it leaves differs from the
    one it started in only in the elector's own state and in the log,
    whose single new entry is the refused [TryAcquire]: no call on the
    catalog (no [ListAll], transition, [Upsert] or event), none on the
    storage, and no [Release]. *)
Theorem RunOnce_not_leader
    (clock : nat -> TimePoint) (policy : RetentionPolicy) (opts : GCOptions)
    (w : @World C S L K) (l l' : L) :
  leader_ w = Some l ->
  TryAcquire l = (false, l') ->
  RunOnce clock policy opts w =
    Some (zero_metrics,
          {| catalog_ := catalog_ w; storage_ := storage_ w; leader_ := Some l';
             corruption_ := corruption_ w; reads := reads w;
             calls := CallTryAcquire false :: calls w |}).
Proof.
  intros Hl Hacq. unfold RunOnce, bind, leader_refuses.
  rewrite Hl, Hacq. reflexivity.
Qed.
End Leadership.

(** Scenario F: the refused handshake on a lock file that another holder
    has created. *)
Lemma RunOnce_not_leader_witness :
  pass_F =
    Some (zero_metrics,
          {| catalog_ := catalog_of []; storage_ := {| payloads := ∅; busy := ∅ |};
             leader_ := Some {| lockFile := true; acquired_ := false |};
             corruption_ := None; reads := 0; calls := [CallTryAcquire false] |}).
Proof.
  exact (RunOnce_not_leader (catalog := JournalCatalog_catalog (period := nanoseconds)
                                          (order := by_key))
           (period := nanoseconds) (sorter := insertion_sort)
           (stopped (t0 + 4 * hour)) default_policy default_options world_F
           {| lockFile := true; acquired_ := false |}
           {| lockFile := true; acquired_ := false |} eq_refl eq_refl).
Defined.

(** ** Batch deletion *)

Lemma elem_of_turns {A} (l : list A) :
  forall done pre a,
    (pre, a) ∈ turns done l <-> exists p post, l = p ++ a :: post /\ pre = done ++ p.
Proof.
  induction l as [|x l IH]; intros done pre a; simpl.
  - split; [intros H; inversion H|].
    intros (p & post & Hl & _). destruct p; discriminate.
  - rewrite elem_of_cons, IH. split.
    + intros [[= -> ->]|(p & post & -> & ->)].
      * exists [], l. rewrite app_nil_r. split; reflexivity.
      * exists (x :: p), post. rewrite <- app_assoc. split; reflexivity.
    + intros (p & post & Hl & ->). destruct p as [|y p]; simpl in Hl.
      * injection Hl as -> ->. left. rewrite app_nil_r. reflexivity.
      * injection Hl as -> ->. right. exists p, post. rewrite <- app_assoc.
        split; reflexivity.
Qed.

Section Batch.
Context {S : Type}.
Variable del : string -> string -> S -> bool * string * S.
Variable st0 : S.

(** The storage when the ids [pre] have had their turn. *)
Local Abbreviation before := (fun pre : list string => fold_left (fun s i => (del i "" s).2) pre st0).

(** The turns at which the single deletion returns false. *)
Local Abbreviation failing := (fun done ids : list string =>
  filter (fun t : list string * string => (del t.2 "" (before t.1)).1.1 = false)
         (turns done ids)).

Lemma batch_loop_turns (ids : list string) :
  forall (done : list string) (allOk : bool) (failed : list string),
    batch_loop del ids allOk failed (before done)
    = (allOk && bool_decide (failing done ids = []),
       failed ++ (failing done ids).*2,
       before (done ++ ids)).
Proof.
  induction ids as [|i ids IH]; intros done allOk failed; cbn [batch_loop turns].
  - rewrite filter_nil, !app_nil_r. rewrite bool_decide_eq_true_2 by reflexivity.
    rewrite andb_true_r. reflexivity.
  - destruct (del i "" (before done)) as [[ok e] st'] eqn:Hdel.
    assert (Hst : st' = before (done ++ [i])).
    { rewrite fold_left_app. simpl. rewrite Hdel. reflexivity. }
    rewrite Hst. destruct ok.
    + rewrite filter_cons_False by (simpl; rewrite Hdel; simpl; discriminate).
      rewrite IH, <- app_assoc. reflexivity.
    + rewrite filter_cons_True by (simpl; rewrite Hdel; reflexivity).
      rewrite IH, <- !app_assoc. simpl. rewrite andb_false_r. reflexivity.
Qed.
End Batch.

(** C10.  Both batch deletions return with [err] empty, so the condition of
    a catastrophic batch error is false on their results, and a snapshot is
    taken as failed exactly when it is in [failed].  The default one of the
    interface, over any single deletion, deletes the ids in their order, each
    on the storage its predecessors have left; it appends to [failed] the
    ids whose single deletion returns false, in their order, and no other; it
    returns true exactly when there is none.  The one of [FilesystemStorage]
    is that loop over the single deletion of [FilesystemStorage]. *)
Theorem batch_delete_clears_err
    {S : Type} (del : string -> string -> S -> bool * string * S)
    (ids failed : list string) (err : string) (st : S) (fs : FilesystemStorage) :
  let before := fun pre : list string => fold_left (fun s i => (del i "" s).2) pre st in
  let failing :=
    filter (fun t : list string * string => (del t.2 "" (before t.1)).1.1 = false)
           (turns [] ids) in
  (let '(ok, failed', err', st') := default_DeleteSnapshotPayloadBatch del ids failed err st in
   err' = "" /\ is_catastrophic ok failed' err' = false /\
   (forall i, (if is_catastrophic ok failed' err' then true else bool_decide (i ∈ failed'))
              = bool_decide (i ∈ failed')) /\
   st' = before ids /\
   failed' = failed ++ failing.*2 /\
   ok = bool_decide (failing = []) /\
   (forall i, i ∈ failing.*2 <->
              exists pre post, ids = pre ++ i :: post /\ (del i "" (before pre)).1.1 = false)) /\
  FilesystemStorage_DeleteSnapshotPayloadBatch ids failed err fs
  = default_DeleteSnapshotPayloadBatch FilesystemStorage_DeleteSnapshotPayload ids failed err fs.
Proof.
  intros before failing. split; [|reflexivity].
  assert (Hcat : forall ok fl, is_catastrophic ok fl "" = false).
  { intros ok fl. unfold is_catastrophic. simpl. apply andb_false_r. }
  unfold default_DeleteSnapshotPayloadBatch.
  pose proof (batch_loop_turns del st ids [] true failed) as Hloop. simpl in Hloop.
  rewrite Hloop. rewrite Hcat. repeat split; try reflexivity.
  - intros Hi. apply list_elem_of_fmap in Hi as ([pre a] & -> & Ht).
    apply list_elem_of_filter in Ht as [Hfail Ht]. simpl in *.
    apply elem_of_turns in Ht as (p & post & Hl & ->).
    exists p, post. split; [exact Hl | exact Hfail].
  - intros (pre & post & Hl & Hfail).
    apply list_elem_of_fmap. exists (pre, i). split; [reflexivity|].
    apply list_elem_of_filter. split; [exact Hfail|].
    apply elem_of_turns. exists pre, post. split; [exact Hl | reflexivity].
Qed.

(** ** Reasoning about passes *)

Section WPRules.
Context {C S L K : Type}.
Implicit Types w : @World C S L K.

Lemma wp_ret (T : Prop) {A} (a : A) (Q : A -> World -> Prop) w :
  Q a w -> wp T (ret a) Q w.
Proof. intros HQ. exact HQ. Qed.

Lemma wp_bind (T : Prop) {A B} (m : M A) (k : A -> M B) (Q : B -> World -> Prop) w :
  wp T m (fun a w' => wp T (k a) Q w') w -> wp T (bind m k) Q w.
Proof.
  unfold wp, bind. destruct (m w) as [[a w']|]; intros H; exact H.
Qed.

Lemma wp_mono (T : Prop) {A} (m : M A) (Q Q' : A -> World -> Prop) w :
  (forall a w', Q a w' -> Q' a w') -> wp T m Q w -> wp T m Q' w.
Proof.
  unfold wp. intros HQ. destruct (m w) as [[a w']|]; [apply HQ | intros H; exact H].
Qed.

Lemma wp_foldM (T : Prop) {A B} (f : B -> A -> M B) (I : B -> World -> Prop) (l : list A) :
  (forall b a w, a ∈ l -> I b w -> wp T (f b a) I w) ->
  forall b w, I b w -> wp T (foldM f l b) I w.
Proof.
  induction l as [|a l IH]; intros Hf b w HI; simpl.
  - apply wp_ret. exact HI.
  - apply wp_bind. eapply wp_mono; [|apply Hf; [left | exact HI]].
    intros b' w' HI'. apply IH; [|exact HI'].
    intros b0 a0 w0 Ha0. apply Hf. right. exact Ha0.
Qed.

Lemma call_inv_refl P (J : C -> S -> Prop) w : J (catalog_ w) (storage_ w) -> call_inv P J w w.
Proof. intros HJ. split; [exact HJ|]. exists []. split; [reflexivity | constructor]. Qed.

Lemma call_inv_step P (J : C -> S -> Prop) w0 w w' :
  call_inv P J w0 w ->
  J (catalog_ w') (storage_ w') ->
  calls w' = calls w ->
  call_inv P J w0 w'.
Proof.
  intros [_ (new & Hc & HP)] HJ Heq. split; [exact HJ|].
  exists new. rewrite Heq. split; assumption.
Qed.

Lemma call_inv_log P (J : C -> S -> Prop) w0 w w' c :
  call_inv P J w0 w ->
  P c ->
  J (catalog_ w') (storage_ w') ->
  calls w' = c :: calls w ->
  call_inv P J w0 w'.
Proof.
  intros [_ (new & Hc & HP)] Hc' HJ Heq. split; [exact HJ|].
  exists (c :: new). rewrite Heq, Hc. split; [reflexivity | constructor; assumption].
Qed.

Lemma wp_bind_inv (T : Prop) {A B} (I : World -> Prop) (m : M A) (k : A -> M B)
    (Q : B -> World -> Prop) w :
  wp T m (fun _ w' => I w') w ->
  (forall a w', I w' -> wp T (k a) Q w') ->
  wp T (bind m k) Q w.
Proof.
  intros Hm Hk. apply wp_bind. eapply wp_mono; [|exact Hm].
  intros a w' HI. apply Hk. exact HI.
Qed.

Section Primitives.
Context {catalog : ISnapshotCatalog C} {storage : IStorageBackend S}.
Context {elector : ILeaderElector L} {tracker : ICorruptionTracker K}.
Variable clock : nat -> TimePoint.
Variable T : Prop.
Variable P : Call -> Prop.
Variable J : C -> S -> Prop.
Variable w0 : @World C S L K.

Lemma wp_Clock_now w :
  call_inv P J w0 w -> wp T (Clock_now clock) (fun _ w' => call_inv P J w0 w') w.
Proof. intros H. eapply call_inv_step; [exact H | apply H | reflexivity]. Qed.

Lemma wp_catalog_ListAll w :
  P CallListAll ->
  call_inv P J w0 w -> wp T catalog_ListAll (fun _ w' => call_inv P J w0 w') w.
Proof. intros HP H. eapply call_inv_log; [exact H | exact HP | apply H | reflexivity]. Qed.

Lemma wp_catalog_Get i w :
  P (CallGet i) ->
  call_inv P J w0 w -> wp T (catalog_Get i) (fun _ w' => call_inv P J w0 w') w.
Proof. intros HP H. eapply call_inv_log; [exact H | exact HP | apply H | reflexivity]. Qed.

Lemma wp_catalog_TransitionState i e d w :
  (forall ok, P (CallTransitionState i e d ok)) ->
  J (TransitionState i e d (catalog_ w)).2 (storage_ w) ->
  call_inv P J w0 w ->
  wp T (catalog_TransitionState i e d) (fun _ w' => call_inv P J w0 w') w.
Proof.
  intros HP HJ H. unfold wp, catalog_TransitionState.
  destruct (TransitionState i e d (catalog_ w)) as [ok c].
  eapply call_inv_log; [exact H | apply HP | exact HJ | reflexivity].
Qed.

Lemma wp_catalog_Upsert m w :
  P (CallUpsert m) ->
  J (Upsert m (catalog_ w)).2 (storage_ w) ->
  call_inv P J w0 w ->
  wp T (catalog_Upsert m) (fun _ w' => call_inv P J w0 w') w.
Proof.
  intros HP HJ H. unfold wp, catalog_Upsert.
  destruct (Upsert m (catalog_ w)) as [ok c].
  eapply call_inv_log; [exact H | apply HP | exact HJ | reflexivity].
Qed.

Lemma wp_catalog_RecordEvent e w :
  P (CallRecordEvent e) ->
  J (RecordEvent e (catalog_ w)) (storage_ w) ->
  call_inv P J w0 w ->
  wp T (catalog_RecordEvent e) (fun _ w' => call_inv P J w0 w') w.
Proof.
  intros HP HJ H. eapply call_inv_log; [exact H | exact HP | exact HJ | reflexivity].
Qed.

Lemma wp_storage_DeleteSnapshotPayloadBatch ids failed err w :
  P (CallDeleteSnapshotPayloadBatch ids) ->
  J (catalog_ w) (DeleteSnapshotPayloadBatch ids failed err (storage_ w)).2 ->
  call_inv P J w0 w ->
  wp T (storage_DeleteSnapshotPayloadBatch ids failed err)
     (fun _ w' => call_inv P J w0 w') w.
Proof.
  intros HP HJ H. unfold wp, storage_DeleteSnapshotPayloadBatch.
  destruct (DeleteSnapshotPayloadBatch ids failed err (storage_ w)) as [[[ok fl] er] s].
  eapply call_inv_log; [exact H | exact HP | exact HJ | reflexivity].
Qed.

Lemma wp_corruption_Forget i w :
  P (CallForgetCorruptionForSnapshot i) ->
  call_inv P J w0 w ->
  wp T (corruption_Forget i) (fun _ w' => call_inv P J w0 w') w.
Proof.
  intros HP H. unfold wp, corruption_Forget. destruct (corruption_ w) as [k|].
  - eapply call_inv_log; [exact H | exact HP | apply H | reflexivity].
  - exact H.
Qed.

Lemma wp_leader_refuses w :
  (forall ok, P (CallTryAcquire ok)) ->
  call_inv P J w0 w ->
  wp T leader_refuses (fun _ w' => call_inv P J w0 w') w.
Proof.
  intros HP H. unfold wp, leader_refuses. destruct (leader_ w) as [l|].
  - destruct (TryAcquire l) as [ok l'].
    eapply call_inv_log; [exact H | apply HP | apply H | reflexivity].
  - exact H.
Qed.

Lemma wp_leader_Release w :
  P CallRelease ->
  call_inv P J w0 w ->
  wp T leader_Release (fun _ w' => call_inv P J w0 w') w.
Proof.
  intros HP H. unfold wp, leader_Release. destruct (leader_ w) as [l|].
  - eapply call_inv_log; [exact H | exact HP | apply H | reflexivity].
  - exact H.
Qed.
End Primitives.
End WPRules.

Section WPSeq.
Context {C S L K : Type}.
Lemma wp_seq (T : Prop) {A B} (I : A -> @World C S L K -> Prop) (m : M A) (k : A -> M B)
    (Q : B -> World -> Prop) w :
  wp T m I w ->
  (forall a w', I a w' -> wp T (k a) Q w') ->
  wp T (bind m k) Q w.
Proof.
  intros Hm Hk. apply wp_bind. eapply wp_mono; [|exact Hm]. exact Hk.
Qed.
End WPSeq.

(** Narrowing a filter on an element that passed it makes the result shorter. *)
Lemma length_filter_narrow {A} (P Q : A -> Prop)
    `{forall x, Decision (P x)} `{forall x, Decision (Q x)} (l : list A) (x : A) :
  (forall y, Q y -> P y) -> x ∈ l -> P x -> ~ Q x ->
  (length (filter Q l) < length (filter P l))%nat.
Proof.
  intros HQP Hx HPx HQx.
  assert (Hle : forall l', (length (filter Q l') <= length (filter P l'))%nat).
  { induction l' as [|y l' IH]; [reflexivity|].
    rewrite !filter_cons. destruct (decide (Q y)) as [Hq|Hq].
    - destruct (decide (P y)) as [Hp|Hp]; [simpl; lia | destruct Hp; auto].
    - destruct (decide (P y)); simpl; lia. }
  induction l as [|y l IH]; [inversion Hx|].
  rewrite !filter_cons. apply elem_of_cons in Hx as [<-|Hx].
  - destruct (decide (Q x)); [contradiction|].
    destruct (decide (P x)); [|contradiction]. simpl. specialize (Hle l). lia.
  - specialize (IH Hx). destruct (decide (Q y)) as [Hq|Hq].
    + destruct (decide (P y)) as [Hp|Hp]; [simpl; lia | destruct Hp; auto].
    + destruct (decide (P y)); simpl; lia.
Qed.

Section Batches.
Context {C S L K : Type}.
Context {catalog : ISnapshotCatalog C} {storage : IStorageBackend S}.
Context {elector : ILeaderElector L} {tracker : ICorruptionTracker K}.
Context {period : ClockPeriod}.
Variable clock : nat -> TimePoint.
Variable opts : GCOptions.
Variable I : GCMetrics -> @World C S L K -> Prop.
Variable now : TimePoint.
Variable eligible : list SnapshotMeta.
Hypothesis batch_ok : forall batchIds g w,
  batchIds ⊆ id <$> eligible -> I g w ->
  wp (0 < batchDeleteSize opts)%nat (process_batch clock opts now batchIds g) I w.

Lemma wp_batches_gen :
  forall fuel i g w,
    ((0 < batchDeleteSize opts)%nat -> (length eligible - i <= fuel)%nat) ->
    I g w ->
    wp (0 < batchDeleteSize opts)%nat (batches clock opts fuel i now eligible g) I w.
Proof.
  induction fuel as [|fuel IH]; intros i g w Hfuel Hinv; simpl.
  - destruct (Nat.ltb_spec i (length eligible)); [|exact Hinv].
    intros HT. specialize (Hfuel HT). lia.
  - destruct (Nat.ltb_spec i (length eligible)); [|exact Hinv].
    eapply wp_seq.
    + apply batch_ok; [|exact Hinv].
      intros x Hx. apply list_elem_of_fmap in Hx as (s & -> & Hs).
      apply list_elem_of_fmap_2.
      apply subseteq_take in Hs. apply subseteq_drop in Hs. exact Hs.
    + intros g' w1 H1. apply IH; [|exact H1].
      intros HT. specialize (Hfuel HT). lia.
Qed.
End Batches.

Lemma count_inv_log n old cur c :
  count_inv n old cur -> count_inv (n + length (deleted_payloads c)) old (c :: cur).
Proof.
  intros (new & -> & Hn). exists (c :: new). split; [reflexivity|].
  unfold payloads_deleted in *. rewrite fmap_cons. simpl. rewrite length_app. lia.
Qed.

Lemma count_inv_log0 n old cur c :
  deleted_payloads c = [] -> count_inv n old cur -> count_inv n old (c :: cur).
Proof.
  intros Hc H. pose proof (count_inv_log n old cur c H) as H'.
  rewrite Hc in H'. simpl in H'. rewrite Nat.add_0_r in H'. exact H'.
Qed.

Lemma count_inv_mono n n' old cur :
  (n <= n')%nat -> count_inv n old cur -> count_inv n' old cur.
Proof. intros Hle (new & Hc & Hn). exists new. split; [exact Hc | lia]. Qed.

Section Counting.
Context {C S L K : Type}.
Context {catalog : ISnapshotCatalog C} {storage : IStorageBackend S}.
Context {elector : ILeaderElector L} {tracker : ICorruptionTracker K}.
Context {period : ClockPeriod}.
Variable clock : nat -> TimePoint.
Variable opts : GCOptions.
Variable T : Prop.
Variable old : list Call.

(** A fold whose invariant follows the elements it has gone through. *)
Lemma wp_foldM_prefix {A B} (f : B -> A -> M B) (I : list A -> B -> World -> Prop) :
  (forall pre a b w, I pre b w -> wp T (f b a) (I (pre ++ [a])) w) ->
  forall l pre b (w : @World C S L K), I pre b w -> wp T (foldM f l b) (I (pre ++ l)) w.
Proof.
  intros Hf. induction l as [|a l IH]; intros pre b w HI; simpl.
  - rewrite app_nil_r. exact HI.
  - eapply wp_seq; [apply Hf; exact HI|].
    intros b' w' HI'. rewrite (cons_middle a pre l), app_assoc. apply IH. exact HI'.
Qed.

Ltac logged := repeat (apply count_inv_log0; [reflexivity|]).

Lemma wp_finalize_count n ok failed err g i (w : @World C S L K) :
  count_inv n old (calls w) ->
  wp T (finalize clock opts ok failed err g i) (fun _ w' => count_inv n old (calls w')) w.
Proof.
  intros Hinv. unfold finalize, bind, wp, catalog_Get. simpl.
  destruct (Get i (catalog_ w)) as [m|]; [|simpl; logged; exact Hinv].
  destruct (negb _).
  - unfold catalog_TransitionState. simpl.
    destruct (TransitionState i Deleting Deleted (catalog_ w)) as [ok' c]. simpl.
    unfold corruption_Forget. simpl.
    destruct (corruption_ w) as [k|]; simpl; logged; exact Hinv.
  - simpl. destruct (_ <=? _); unfold catalog_TransitionState; simpl.
    + destruct (TransitionState i Deleting Quarantined (catalog_ w)) as [ok' c]. simpl.
      unfold catalog_Upsert. simpl. destruct (Upsert _ _) as [ok'' c']. simpl.
      logged. exact Hinv.
    + destruct (TransitionState i Deleting Tombstoned (catalog_ w)) as [ok' c]. simpl.
      unfold catalog_Upsert. simpl. destruct (Upsert _ _) as [ok'' c']. simpl.
      logged. exact Hinv.
Qed.

Lemma wp_process_batch_count n now batchIds g (w : @World C S L K) :
  count_inv n old (calls w) ->
  wp T (process_batch clock opts now batchIds g)
     (fun _ w' => count_inv (n + length batchIds) old (calls w')) w.
Proof.
  intros Hinv. unfold process_batch. destruct (dryRun opts).
  - eapply (wp_seq T (fun _ w' => count_inv n old (calls w'))).
    + apply (wp_foldM T _ (fun _ w' => count_inv n old (calls w'))); [|exact Hinv].
      intros [] i w1 _ H1. unfold wp. simpl. logged. exact H1.
    + intros _ w1 H1. eapply count_inv_mono; [|exact H1]. lia.
  - eapply (wp_seq T (fun dl w' => count_inv n old (calls w') /\
                                   (length dl <= length batchIds)%nat)).
    + refine (wp_foldM_prefix _
                (fun pre dl w' => count_inv n old (calls w') /\ (length dl <= length pre)%nat)
                _ batchIds [] [] w _); [|split; [exact Hinv | reflexivity]].
      intros pre i dl w1 [H1 Hlen].
      unfold wp, bind, catalog_TransitionState.
      destruct (TransitionState i Tombstoned Deleting (catalog_ w1)) as [ok c]. simpl.
      split; [logged; exact H1|].
      rewrite length_app. simpl. destruct ok; [rewrite length_app; simpl|]; lia.
    + intros dl w1 [H1 Hlen]. destruct (is_empty_list dl).
      { eapply count_inv_mono; [|exact H1]. lia. }
      eapply (wp_seq T (fun _ w' => count_inv (n + length batchIds) old (calls w'))).
      * unfold wp, storage_DeleteSnapshotPayloadBatch.
        destruct (DeleteSnapshotPayloadBatch dl [] "" (storage_ w1)) as [[[ok fl] er] st].
        simpl. eapply count_inv_mono; [|apply count_inv_log; exact H1].
        simpl. lia.
      * intros [[ok failed] err] w2 H2.
        apply (wp_foldM T _ (fun _ w' => count_inv (n + length batchIds) old (calls w')));
          [|exact H2].
        intros g' i w3 _ H3. apply wp_finalize_count. exact H3.
Qed.
End Counting.

Section CountingBatches.
Context {C S L K : Type}.
Context {catalog : ISnapshotCatalog C} {storage : IStorageBackend S}.
Context {elector : ILeaderElector L} {tracker : ICorruptionTracker K}.
Context {period : ClockPeriod}.
Variable clock : nat -> TimePoint.
Variable opts : GCOptions.
Variable old : list Call.
Variable now : TimePoint.
Variable eligible : list SnapshotMeta.

Lemma wp_batches_count :
  forall fuel i g (w : @World C S L K),
    ((0 < batchDeleteSize opts)%nat -> (length eligible - i <= fuel)%nat) ->
    count_inv (i `min` length eligible) old (calls w) ->
    wp (0 < batchDeleteSize opts)%nat (batches clock opts fuel i now eligible g)
       (fun _ w' => count_inv (length eligible) old (calls w')) w.
Proof.
  induction fuel as [|fuel IH]; intros i g w Hfuel Hinv; simpl.
  - destruct (Nat.ltb_spec i (length eligible)).
    + intros HT. specialize (Hfuel HT). lia.
    + eapply count_inv_mono; [|exact Hinv]. lia.
  - destruct (Nat.ltb_spec i (length eligible)).
    2:{ eapply count_inv_mono; [|exact Hinv]. lia. }
    eapply wp_seq.
    + apply wp_process_batch_count. exact Hinv.
    + intros g' w1 H1. apply IH.
      * intros HT. specialize (Hfuel HT). lia.
      * eapply count_inv_mono; [|exact H1].
        rewrite length_fmap, length_take, length_drop. lia.
Qed.
End CountingBatches.

Section BackoffSequence.
Variable opts : GCOptions.

Lemma backoff_pow2 (n : Z) :
  0 <= n -> backoff opts n = baseRetryBackoff opts * 2 ^ Z.min n 10.
Proof.
  intros Hn. unfold backoff. rewrite Z.shiftl_1_l. f_equal.
  apply Z.mod_small. split; [apply Z.pow_nonneg; lia|].
  apply Z.pow_lt_mono_r; lia.
Qed.

End BackoffSequence.

Section HardDelete.
Context {C S L K : Type}.
Context {catalog : ISnapshotCatalog C} {storage : IStorageBackend S}.
Context {elector : ILeaderElector L} {tracker : ICorruptionTracker K}.
Context {period : ClockPeriod}.
Variable clock : nat -> TimePoint.
Variable opts : GCOptions.
Implicit Types w : @World C S L K.

Lemma is_eligible_spec now s :
  is_eligible now s = true <->
  state s = Tombstoned /\ leaseCount s <= 0 /\
  (exists h, hardDeleteAfter s = Some h /\ h <= now) /\
  (nextRetryAfter s = None \/ exists r, nextRetryAfter s = Some r /\ r <= now).
Proof.
  unfold is_eligible. 
  destruct (bool_decide_reflect (state s = Tombstoned)) as [Hs|Hs]; simpl.
  2:{ split; [discriminate | intros [? _]; contradiction]. }
  destruct (Z.ltb_spec 0 (leaseCount s)).
  { split; [discriminate | intros (_ & ? & _); lia]. }
  destruct (hardDeleteAfter s) as [h|].
  2:{ split; [discriminate | intros (_ & _ & (h & Hh & _) & _); discriminate]. }
  destruct (Z.ltb_spec now h).
  { split; [discriminate | intros (_ & _ & (h' & Hh & ?) & _)]. injection Hh as ->. lia. }
  destruct (nextRetryAfter s) as [r|].
  - destruct (Z.ltb_spec now r).
    + split; [discriminate | intros (_ & _ & _ & [?|(r' & Hr & ?)])]; [discriminate|].
      injection Hr as ->. lia.
    + split; [|reflexivity]. intros _. repeat split; eauto.
  - split; [|reflexivity]. intros _. repeat split; eauto.
Qed.

Lemma eligible_records_spec now all :
  (length (eligible_records opts now all) <= maxDeletesPerRun opts)%nat /\
  forall s, s ∈ eligible_records opts now all -> s ∈ all /\ is_eligible now s = true.
Proof.
  unfold eligible_records.
  destruct (Nat.ltb_spec (maxDeletesPerRun opts)
              (length (filter (fun s => is_eligible now s = true) all))).
  - split; [rewrite length_take; lia|].
    intros s Hs. apply subseteq_take in Hs. apply list_elem_of_filter in Hs. tauto.
  - split; [assumption|].
    intros s Hs. apply list_elem_of_filter in Hs. tauto.
Qed.

Section Stage.
Variable T : Prop.
Variable ids : list string.
Variable w0 : @World C S L K.

Local Abbreviation stage_call := (fun c => call_within ids c /\ retry_call clock opts c).
Local Abbreviation stage_inv := (call_inv stage_call (fun _ _ => True) w0).

Lemma wp_Clock_now_reading w :
  stage_inv w ->
  wp T (Clock_now clock) (fun t w' => stage_inv w' /\ exists r, t = clock r) w.
Proof.
  intros H. split; [|eexists; reflexivity].
  eapply call_inv_step; [exact H | exact I | reflexivity].
Qed.

Lemma wp_finalize ok failed err g i w :
  i ∈ ids -> stage_inv w ->
  wp T (finalize clock opts ok failed err g i) (fun _ w' => stage_inv w') w.
Proof.
  intros Hi Hinv. pose proof (conj Hi I : stage_call (CallGet i)) as Hget.
  unfold finalize.
  eapply (wp_bind_inv T stage_inv); [apply wp_catalog_Get; [exact Hget | exact Hinv]|].
  intros [m|] w1 H1; [|exact H1].
  destruct (negb _).
  - eapply (wp_bind_inv T stage_inv);
      [apply wp_catalog_TransitionState; [intros; exact (conj Hi I) | exact I | exact H1]|].
    intros _ w2 H2.
    eapply (wp_bind_inv T stage_inv); [apply wp_Clock_now; exact H2|].
    intros t w3 H3.
    eapply (wp_bind_inv T stage_inv);
      [apply wp_catalog_RecordEvent; [exact (conj Hi I) | exact I | exact H3]|].
    intros _ w4 H4.
    eapply (wp_bind_inv T stage_inv);
      [apply wp_corruption_Forget; [exact (conj Hi I) | exact H4]|].
    intros _ w5 H5. exact H5.
  - eapply wp_seq; [apply wp_Clock_now_reading; exact H1|].
    intros t w2 [H2 [r ->]].
    eapply (wp_bind_inv T stage_inv).
    + destruct (_ <=? _).
      * eapply (wp_bind_inv T stage_inv);
          [apply wp_catalog_TransitionState; [intros; exact (conj Hi I) | exact I | exact H2]|].
        intros _ w3 H3.
        eapply (wp_bind_inv T stage_inv); [apply wp_Clock_now; exact H3|].
        intros t' w4 H4.
        eapply (wp_bind_inv T stage_inv);
          [apply wp_catalog_RecordEvent; [exact (conj Hi I) | exact I | exact H4]|].
        intros _ w5 H5. exact H5.
      * eapply (wp_bind_inv T stage_inv);
          [apply wp_catalog_TransitionState; [intros; exact (conj Hi I) | exact I | exact H2]|].
        intros _ w3 H3.
        eapply (wp_bind_inv T stage_inv); [apply wp_Clock_now; exact H3|].
        intros t' w4 H4.
        eapply (wp_bind_inv T stage_inv);
          [apply wp_catalog_RecordEvent; [exact (conj Hi I) | exact I | exact H4]|].
        intros _ w5 H5. exact H5.
    + intros g' w3 H3.
      eapply (wp_bind_inv T stage_inv); [apply wp_catalog_Upsert; [| exact I | exact H3]|].
      * split; [exact I|]. exists r. simpl.
        rewrite backoff_pow2 by (apply Z.mod_pos_bound; lia). reflexivity.
      * intros _ w4 H4. exact H4.
Qed.

Lemma wp_process_batch now batchIds g w :
  batchIds ⊆ ids -> stage_inv w ->
  wp T (process_batch clock opts now batchIds g) (fun _ w' => stage_inv w') w.
Proof.
  intros Hsub Hinv. unfold process_batch. destruct (dryRun opts).
  - eapply (wp_bind_inv T stage_inv).
    + apply (wp_foldM T _ (fun _ w' => stage_inv w')); [|exact Hinv].
      intros [] i w1 Hi H1.
      apply wp_catalog_RecordEvent; [exact (conj (Hsub _ Hi) I) | exact I | exact H1].
    + intros _ w1 H1. exact H1.
  - apply wp_bind.
    eapply wp_mono;
      [|apply (wp_foldM T _ (fun dl w' => dl ⊆ batchIds /\ stage_inv w'));
        [|split; [apply list_subseteq_nil | exact Hinv]]].
    + intros dl w1 [Hdl H1]. simpl.
      destruct (is_empty_list dl); [exact H1|].
      eapply (wp_bind_inv T stage_inv);
        [apply wp_storage_DeleteSnapshotPayloadBatch;
         [split; [simpl; etrans; eassumption | exact I] | exact I | exact H1]|].
      intros [[ok failed] err] w2 H2.
      apply (wp_foldM T _ (fun _ w' => stage_inv w')); [|exact H2].
      intros g' i w3 Hi H3. apply wp_finalize; [apply Hsub, Hdl, Hi | exact H3].
    + intros dl i w1 Hi [Hdl H1].
      eapply (wp_bind_inv T stage_inv);
        [apply wp_catalog_TransitionState;
         [intros; exact (conj (Hsub _ Hi) I) | exact I | exact H1]|].
      intros ok w2 H2. split; [|exact H2].
      destruct ok; [|exact Hdl].
      intros x Hx. apply elem_of_app in Hx as [Hx|Hx]; [apply Hdl, Hx|].
      apply list_elem_of_singleton in Hx as ->. exact Hi.
Qed.
End Stage.

(** The calls of the stage: each names a record of what the stage has found
    eligible, and each [Upsert] has the retry time of its record at a clock
    reading plus the backoff. *)
Lemma HardDeleteEligible_calls (g : GCMetrics) w :
  let eligible := eligible_records opts (clock (reads w)) (ListAll (catalog_ w)) in
  wp (0 < batchDeleteSize opts)%nat (HardDeleteEligible clock opts g)
     (fun _ w' =>
        exists new, calls w' = new ++ calls w /\
                    Forall (call_within (id <$> eligible)) new /\
                    Forall (retry_call clock opts) new) w.
Proof.
  intros eligible.
  eapply wp_mono with
    (Q := fun _ w' =>
            call_inv (fun c => call_within (id <$> eligible) c /\ retry_call clock opts c)
                     (fun _ _ => True) w w').
  { intros _ w' [_ (new & Hcalls & Hall)]. exists new. split; [exact Hcalls|].
    split; (eapply Forall_impl; [exact Hall|]); intros c Hc; apply Hc. }
  unfold HardDeleteEligible.
  apply wp_bind. unfold wp at 1. simpl.
  apply wp_bind. unfold wp at 1. simpl.
  apply wp_batches_gen
    with (I := fun _ w' =>
                 call_inv (fun c => call_within (id <$> eligible) c /\ retry_call clock opts c)
                          (fun _ _ => True) w w').
  - intros batchIds g0 w1 Hsub H1. apply wp_process_batch; assumption.
  - intros _. lia.
  - split; [exact I|]. exists [CallListAll]. split; [reflexivity|].
    repeat constructor.
Qed.

(** C6.  Let [now] be the clock reading the stage starts with and [eligible]
    the list it builds from the listing of the catalog.  The list has at most
    [maxDeletesPerRun] records; each of them is a record of the listing in
    state Tombstoned, with no lease ([leaseCount] is unsigned), with a
    [hardDeleteAfter] that is set and not after [now], and with a
    [nextRetryAfter] that is unset or not after [now].  The stage returns
    whenever [batchDeleteSize] is positive, and every call it makes for a
    snapshot (transition, payload deletion, [Get], event, corruption hook)
    names the id of a record of [eligible]: no other record is processed, and
    no payload is deleted before the [hardDeleteAfter] stored with it.  The
    payload ids it hands to the storage for deletion are, all batches
    together, at most [maxDeletesPerRun]. *)
Theorem hard_delete_only_eligible (g : GCMetrics) w :
  let now := clock (reads w) in
  let eligible := eligible_records opts now (ListAll (catalog_ w)) in
  (length eligible <= maxDeletesPerRun opts)%nat /\
  (forall s, s ∈ eligible ->
     s ∈ ListAll (catalog_ w) /\ state s = Tombstoned /\ leaseCount s <= 0 /\
     (exists h, hardDeleteAfter s = Some h /\ h <= now) /\
     (nextRetryAfter s = None \/ exists r, nextRetryAfter s = Some r /\ r <= now)) /\
  ((0 < batchDeleteSize opts)%nat -> is_Some (HardDeleteEligible clock opts g w)) /\
  (forall g' w', HardDeleteEligible clock opts g w = Some (g', w') ->
     exists new, calls w' = new ++ calls w /\
                 Forall (call_within (id <$> eligible)) new /\
                 (payloads_deleted new <= maxDeletesPerRun opts)%nat).
Proof.
  intros now eligible.
  destruct (eligible_records_spec now (ListAll (catalog_ w))) as [Hlen Hel].
  split; [exact Hlen|]. split.
  { intros s Hs. destruct (Hel s Hs) as [Hin He]. split; [exact Hin|].
    apply is_eligible_spec. exact He. }
  pose proof (HardDeleteEligible_calls g w) as Hwp.
  assert (Hcount : wp (0 < batchDeleteSize opts)%nat (HardDeleteEligible clock opts g)
                     (fun _ w' => count_inv (length eligible) (calls w) (calls w')) w).
  { unfold HardDeleteEligible.
    apply wp_bind. unfold wp at 1. simpl.
    apply wp_bind. unfold wp at 1. simpl.
    apply wp_batches_count; [intros _; apply Nat.le_sub_l|].
    exists [CallListAll]. split; [reflexivity | apply Nat.le_0_l]. }
  unfold wp in Hwp, Hcount. split.
  - intros HT. destruct (HardDeleteEligible clock opts g w) as [[g' w']|]; [eauto|].
    contradiction.
  - intros g' w' Heq. rewrite Heq in Hwp, Hcount.
    destruct Hwp as (new & Hcalls & Hwithin & _).
    destruct Hcount as (new' & Hcalls' & Hle).
    exists new. split; [exact Hcalls|]. split; [exact Hwithin|].
    rewrite Hcalls in Hcalls'. apply app_inv_tail in Hcalls'. subst new'.
    exact (Nat.le_trans _ _ _ Hle Hlen).
Qed.
End HardDelete.

(** ** Dry runs *)

Section DryRun.
Context {S L K : Type}.
Context {storage : IStorageBackend S}.
Context {elector : ILeaderElector L} {tracker : ICorruptionTracker K}.
Context {period : ClockPeriod} {order : Traversal} {sorter : Sort}.
Variable clock : nat -> TimePoint.
Variable policy : RetentionPolicy.
Variable opts : GCOptions.
Variable T : Prop.
Variable P : Call -> Prop.
Variable w0 : @World JournalCatalog S L K.
Hypothesis P_Get : forall i, P (CallGet i).

Local Abbreviation inv := (call_inv P (unchanged w0) w0).
Local Abbreviation vals := ((map_to_list (items_ (catalog_ w0))).*2).

Lemma wp_MarkLiveWithParents_listed fuel :
  forall s live w,
    inv w -> s ∈ vals ->
    (length (filter (fun v => id v ∉ live) vals) < fuel)%nat ->
    wp T (MarkLiveWithParents fuel s live) (fun _ w' => inv w') w.
Proof.
  induction fuel as [|fuel IH]; intros s live w Hinv Hs Hfuel; [lia|]. simpl.
  destruct (decide (id s ∈ live)) as [Hin|Hin]; [exact Hinv|].
  destruct (parentId s) as [parent|]; [|exact Hinv].
  apply wp_bind. unfold wp at 1. simpl.
  assert (Hinv' : inv (log (CallGet parent) w)).
  { eapply call_inv_log; [exact Hinv | apply P_Get | apply Hinv | reflexivity]. }
  unfold JournalCatalog_Get. destruct Hinv as [[Hitems _] _]. rewrite Hitems.
  destruct (items_ (catalog_ w0) !! parent) as [p|] eqn:Hp; [|exact Hinv'].
  apply IH; [exact Hinv' | |].
  - apply list_elem_of_fmap. exists (parent, p). split; [reflexivity|].
    apply elem_of_map_to_list. exact Hp.
  - assert (length (filter (fun v => id v ∉ {[id s]} ∪ live) vals)
            < length (filter (fun v => id v ∉ live) vals))%nat; [|lia].
    apply (length_filter_narrow _ _ _ s); [| exact Hs | exact Hin |].
    + intros y Hy Hy'. apply Hy. apply elem_of_union. right. exact Hy'.
    + intros Hs'. apply Hs'. apply elem_of_union. left. apply elem_of_singleton. reflexivity.
Qed.

Lemma wp_MarkLiveWithParents fuel s live w :
  inv w ->
  (Datatypes.S (length (filter (fun v => id v ∉ live) vals)) < fuel)%nat ->
  wp T (MarkLiveWithParents fuel s live) (fun _ w' => inv w') w.
Proof.
  intros Hinv Hfuel. destruct fuel as [|fuel]; [lia|]. simpl.
  destruct (decide (id s ∈ live)) as [Hin|Hin]; [exact Hinv|].
  destruct (parentId s) as [parent|]; [|exact Hinv].
  apply wp_bind. unfold wp at 1. simpl.
  assert (Hinv' : inv (log (CallGet parent) w)).
  { eapply call_inv_log; [exact Hinv | apply P_Get | apply Hinv | reflexivity]. }
  unfold JournalCatalog_Get. destruct Hinv as [[Hitems _] _]. rewrite Hitems.
  destruct (items_ (catalog_ w0) !! parent) as [p|] eqn:Hp; [|exact Hinv'].
  apply wp_MarkLiveWithParents_listed; [exact Hinv' | |].
  - apply list_elem_of_fmap. exists (parent, p). split; [reflexivity|].
    apply elem_of_map_to_list. exact Hp.
  - assert (length (filter (fun v => id v ∉ {[id s]} ∪ live) vals)
            <= length (filter (fun v => id v ∉ live) vals))%nat; [|lia].
    clear. induction vals as [|y l IH]; [reflexivity|].
    rewrite !filter_cons.
    destruct (decide (id y ∉ {[id s]} ∪ live)) as [Hq|Hq].
    + destruct (decide (id y ∉ live)) as [Hp|Hp]; [simpl; lia|].
      destruct Hp. intros Hy. apply Hq. apply elem_of_union. right. exact Hy.
    + destruct (decide (id y ∉ live)); simpl; lia.
Qed.

Lemma wp_mark s live w :
  inv w -> wp T (mark s live) (fun _ w' => inv w') w.
Proof.
  intros Hinv. unfold mark. apply wp_bind. unfold wp at 1, mark_fuel. cbv beta iota.
  apply wp_MarkLiveWithParents; [exact Hinv|].
  change (ListAll (catalog_ w)) with (traverse (items_ (catalog_ w))).
  rewrite (Permutation_length (traverse_values (items_ (catalog_ w)))).
  destruct Hinv as [[-> _] _].
  pose proof (length_filter (fun v => id v ∉ live) vals). lia.
Qed.

Lemma wp_ComputeLiveSet all w :
  inv w -> wp T (ComputeLiveSet clock policy all) (fun _ w' => inv w') w.
Proof.
  intros Hinv. unfold ComputeLiveSet.
  eapply (wp_bind_inv T inv); [apply wp_Clock_now; exact Hinv|].
  intros now w1 H1.
  eapply (wp_bind_inv T inv).
  - apply (wp_foldM T _ (fun _ w' => inv w')); [|exact H1].
    intros live s w2 _ H2. apply wp_mark. exact H2.
  - intros live w2 H2.
    apply (wp_foldM T _ (fun _ w' => inv w')); [|exact H2].
    intros live' s w3 _ H3.
    destruct (decide (state s = Deleted)); [exact H3|].
    eapply (wp_bind_inv T inv).
    { destruct (_ <=? _); [apply wp_mark; exact H3 | exact H3]. }
    intros live1 w4 H4.
    eapply (wp_bind_inv T inv).
    { destruct (_ <? _); [apply wp_mark; exact H4 | exact H4]. }
    intros live2 w5 H5.
    destruct (has_pin_tag s); [apply wp_mark; exact H5 | exact H5].
Qed.
End DryRun.

Section DryRunPass.
Context {S L K : Type}.
Context {storage : IStorageBackend S}.
Context {elector : ILeaderElector L} {tracker : ICorruptionTracker K}.
Context {period : ClockPeriod} {order : Traversal} {sorter : Sort}.
Variable clock : nat -> TimePoint.
Variable policy : RetentionPolicy.
Variable opts : GCOptions.
Variable w0 : @World JournalCatalog S L K.
Hypothesis Hdry : dryRun opts = true.

Local Abbreviation T := (0 < batchDeleteSize opts)%nat.
Local Abbreviation inv := (call_inv dry_run_call (unchanged w0) w0).
Local Abbreviation invm := (fun (g : GCMetrics) w => inv w /\ dry_metrics g).

Lemma wp_dry_event e w :
  dry_run_call (CallRecordEvent e) -> inv w ->
  wp T (catalog_RecordEvent e) (fun _ w' => inv w') w.
Proof.
  intros He Hinv. apply wp_catalog_RecordEvent; [exact He | | exact Hinv].
  destruct Hinv as [[Hitems Hst] _]. split; [exact Hitems | exact Hst].
Qed.

Lemma wp_TombstoneCandidates_dry all live g w :
  invm g w -> wp T (TombstoneCandidates clock opts all live g) invm w.
Proof.
  intros [Hinv Hg]. unfold TombstoneCandidates.
  eapply (wp_bind_inv T inv); [apply wp_Clock_now; exact Hinv|].
  intros now w1 H1.
  eapply (wp_seq T invm).
  - apply (wp_foldM T _ invm); [|split; assumption].
    intros g1 s w2 _ [H2 Hg1].
    destruct (negb _); [split; assumption|].
    destruct (bool_decide _); [split; assumption|].
    destruct (_ <? _); [split; assumption|].
    rewrite Hdry.
    eapply (wp_bind_inv T inv); [apply wp_dry_event; [left; reflexivity | exact H2]|].
    intros _ w3 H3. split; assumption.
  - intros g1 w2 [H2 Hg1].
    apply (wp_foldM T _ invm); [|split; assumption].
    intros g2 s w3 _ [H3 Hg2].
    destruct (negb _); [split; assumption|].
    destruct (bool_decide _); [split; assumption|].
    destruct (_ <? _); [|split; assumption].
    eapply (wp_bind_inv T inv); [apply wp_Clock_now; exact H3|].
    intros t w4 H4.
    destruct (_ <=? _); [|split; assumption].
    eapply (wp_bind_inv T inv); [apply wp_Clock_now; exact H4|].
    intros t' w5 H5.
    eapply (wp_bind_inv T inv);
      [apply wp_dry_event; [right; right; reflexivity | exact H5]|].
    intros _ w6 H6. split; [exact H6|]. exact Hg2.
Qed.

Lemma wp_process_batch_dry now batchIds g w :
  invm g w -> wp T (process_batch clock opts now batchIds g) invm w.
Proof.
  intros [Hinv Hg]. unfold process_batch. rewrite Hdry.
  eapply (wp_bind_inv T inv).
  - apply (wp_foldM T _ (fun _ w' => inv w')); [|exact Hinv].
    intros [] i w1 _ H1. apply wp_dry_event; [right; left; reflexivity | exact H1].
  - intros _ w1 H1. split; assumption.
Qed.

Lemma wp_HardDeleteEligible_dry g w :
  invm g w -> wp T (HardDeleteEligible clock opts g) invm w.
Proof.
  intros [Hinv Hg]. unfold HardDeleteEligible.
  eapply (wp_bind_inv T inv); [apply wp_Clock_now; exact Hinv|].
  intros now w1 H1.
  eapply (wp_bind_inv T inv); [apply wp_catalog_ListAll; [exact I | exact H1]|].
  intros all w2 H2.
  apply wp_batches_gen; [| intros _; lia | split; assumption].
  intros batchIds g' w3 _ H3. apply wp_process_batch_dry. exact H3.
Qed.

Lemma wp_RunOnce_dry w :
  inv w -> wp T (RunOnce clock policy opts) invm w.
Proof.
  intros Hinv. unfold RunOnce.
  eapply (wp_bind_inv T inv); [apply wp_leader_refuses; [intros; exact I | exact Hinv]|].
  intros refused w1 H1.
  destruct refused; [split; [exact H1 | repeat split]|].
  eapply (wp_bind_inv T inv); [apply wp_catalog_ListAll; [exact I | exact H1]|].
  intros all w2 H2.
  eapply (wp_bind_inv T inv);
    [apply wp_ComputeLiveSet; [intros; exact I | exact H2]|].
  intros live w3 H3.
  eapply (wp_seq T invm).
  { destruct (enableTombstoneStage opts).
    - apply wp_TombstoneCandidates_dry. split; [exact H3 | repeat split].
    - split; [exact H3 | repeat split]. }
  intros g1 w4 H4.
  eapply (wp_seq T invm).
  { destruct (enableHardDeleteStage opts).
    - apply wp_HardDeleteEligible_dry. exact H4.
    - exact H4. }
  intros g2 w5 [H5 Hg2].
  eapply (wp_bind_inv T inv); [apply wp_leader_Release; [exact I | exact H5]|].
  intros _ w6 H6. split; assumption.
Qed.
End DryRunPass.

(** C7.  With [dryRun], a pass over a journal catalog leaves the index of
    the catalog (every record, so every state) and the storage as they were;
    the calls it makes are reads of the catalog, the leader handshake and
    events of type DRYRUN_TOMBSTONE, DRYRUN_DELETE or INACTIVE_ELIGIBLE: no
    transition, no [Upsert], no payload deletion; and the counters
    [tombstoned], [deleted], [quarantined] and [deleteFailed] are zero.  The
    pass returns whenever [batchDeleteSize] is positive. *)
Theorem dry_run_purity
    {S L K : Type} {storage : IStorageBackend S}
    {elector : ILeaderElector L} {tracker : ICorruptionTracker K}
    {period : ClockPeriod} {order : Traversal} {sorter : Sort}
    (clock : nat -> TimePoint) (policy : RetentionPolicy) (opts : GCOptions)
    (w : @World JournalCatalog S L K) :
  dryRun opts = true ->
  ((0 < batchDeleteSize opts)%nat -> is_Some (RunOnce clock policy opts w)) /\
  (forall g w', RunOnce clock policy opts w = Some (g, w') ->
     items_ (catalog_ w') = items_ (catalog_ w) /\
     storage_ w' = storage_ w /\
     (exists new, calls w' = new ++ calls w /\ Forall dry_run_call new) /\
     tombstoned g = 0%nat /\ deleted g = 0%nat /\ quarantined g = 0%nat /\
     deleteFailed g = 0%nat).
Proof.
  intros Hdry.
  assert (Hwp := wp_RunOnce_dry clock policy opts w Hdry w
                   (call_inv_refl _ _ w (conj eq_refl eq_refl))).
  unfold wp in Hwp. split.
  - intros HT. destruct (RunOnce clock policy opts w) as [[g w']|]; [eauto | contradiction].
  - intros g w' Heq. rewrite Heq in Hwp.
    destruct Hwp as [[[Hitems Hst] Hcalls] Hg]. repeat split; try assumption; apply Hg.
Qed.

(** ** Passes return *)

Section Returns.
Context {S L K : Type}.
Context {storage : IStorageBackend S}.
Context {elector : ILeaderElector L} {tracker : ICorruptionTracker K}.
Context {period : ClockPeriod} {order : Traversal} {sorter : Sort}.
Variable clock : nat -> TimePoint.
Variable policy : RetentionPolicy.
Variable opts : GCOptions.
Implicit Types w : @World JournalCatalog S L K.

Local Abbreviation T := (0 < batchDeleteSize opts)%nat.
Local Abbreviation any := (fun (_ : GCMetrics) (_ : @World JournalCatalog S L K) => True).

Lemma TombstoneCandidates_returns all live g w :
  wp T (TombstoneCandidates clock opts all live g) any w.
Proof.
  unfold TombstoneCandidates. apply wp_bind. unfold wp at 1. simpl.
  eapply (wp_seq T any).
  - apply (wp_foldM T _ any); [|exact I].
    intros g1 s w1 _ _.
    destruct (negb _); [exact I|].
    destruct (bool_decide _); [exact I|].
    destruct (_ <? _); [exact I|].
    destruct (dryRun opts); [exact I|].
    unfold wp, bind, catalog_TransitionState. simpl.
    destruct (JournalCatalog_TransitionState (id s) Active Tombstoned (catalog_ w1))
      as [[] c]; simpl; [|exact I].
    destruct (JournalCatalog_Get (id s) c); exact I.
  - intros g1 w1 _.
    apply (wp_foldM T _ any); [|exact I].
    intros g2 s w2 _ _.
    destruct (negb _); [exact I|].
    destruct (bool_decide _); [exact I|].
    destruct (_ <? _); [|exact I].
    unfold wp, bind, Clock_now. simpl.
    destruct (_ <=? _); exact I.
Qed.

(** A pass over a journal catalog returns whenever [batchDeleteSize] is
    positive: the recursion along the parents and the loop over the batches
    end. *)
Lemma RunOnce_returns w :
  (0 < batchDeleteSize opts)%nat -> is_Some (RunOnce clock policy opts w).
Proof.
  intros HT.
  assert (Hwp : wp T (RunOnce clock policy opts) any w).
  { unfold RunOnce. apply wp_bind.
    assert (Hrefuse : exists r w1, leader_refuses w = Some (r, w1)).
    { unfold leader_refuses. destruct (leader_ w) as [l|]; [|eauto].
      destruct (TryAcquire l) as [ok l']. eauto. }
    destruct Hrefuse as (r & w1 & Hr). unfold wp at 1. rewrite Hr.
    destruct r; [exact I|].
    apply wp_bind. unfold wp at 1. simpl.
    eapply (wp_seq T (fun _ _ => True)).
    { eapply wp_mono; [|apply (wp_ComputeLiveSet clock policy T (fun _ => True) (log CallListAll w1) (fun _ => I));
                         apply call_inv_refl; split; reflexivity].
      intros; exact I. }
    intros live w2 _.
    eapply (wp_seq T any).
    { destruct (enableTombstoneStage opts); [apply TombstoneCandidates_returns | exact I]. }
    intros g1 w3 _.
    eapply (wp_seq T any).
    { destruct (enableHardDeleteStage opts); [|exact I].
      eapply wp_mono; [|apply HardDeleteEligible_calls]. intros; exact I. }
    intros g2 w4 _.
    unfold wp, bind, leader_Release. destruct (leader_ w4); exact I. }
  unfold wp in Hwp. destruct (RunOnce clock policy opts w) as [[g w']|]; [eauto|].
  contradiction.
Qed.
End Returns.

(** ** Retry backoff *)

Section Backoff.
Context {S L K : Type}.
Context {storage : IStorageBackend S}.
Context {elector : ILeaderElector L} {tracker : ICorruptionTracker K}.
Context {period : ClockPeriod} {order : Traversal}.
Variable clock : nat -> TimePoint.
Variable opts : GCOptions.

(** The failure path of [finalize]: the record written back is the copy read
    at the start, with the counter, the error and the retry time set. *)
Lemma finalize_failure
    (ok : bool) (failed : list string) (err : string) (g : GCMetrics) (i : string)
    (w : @World JournalCatalog S L K) (m : SnapshotMeta) :
  items_ (catalog_ w) !! i = Some m ->
  i ∈ failed \/ is_catastrophic ok failed err = true ->
  let n := (deleteFailures m + 1) mod 2 ^ 32 in
  let m' :=
    set_nextRetryAfter
      (Some (clock (reads w) + seconds (baseRetryBackoff opts * 2 ^ Z.min n 10)))
      (set_lastError (if is_empty_string err then "Delete failed" else err)
         (set_deleteFailures n m)) in
  exists g' w' journal,
    finalize clock opts ok failed err g i w = Some (g', w') /\
    items_ (catalog_ w') !! id m = Some m' /\
    journalFile (catalog_ w') = Some (journal +:+ "UPSERT " +:+ Serialize m' +:+ String nl "").
Proof.
  intros Hget Hfail n m'.
  assert (Hn : 0 <= n) by (apply Z.mod_pos_bound; lia).
  unfold finalize, bind, catalog_Get. simpl. unfold JournalCatalog_Get. rewrite Hget.
  assert (Hisf : negb (if is_catastrophic ok failed err then true else bool_decide (i ∈ failed))
                 = false).
  { destruct Hfail as [Hin| ->]; [|reflexivity].
    rewrite (bool_decide_eq_true_2 _ Hin). destruct (is_catastrophic _ _ _); reflexivity. }
  rewrite Hisf. simpl. fold n. rewrite (backoff_pow2 opts n Hn).
  destruct (maxDeleteFailuresBeforeQuarantine opts <=? n).
  - unfold bind, catalog_TransitionState. simpl.
    destruct (JournalCatalog_TransitionState i Deleting Quarantined (catalog_ w)) as [ok' c].
    simpl. do 3 eexists. split; [reflexivity|]. simpl.
    split; [apply lookup_insert_eq | reflexivity].
  - unfold bind, catalog_TransitionState. simpl.
    destruct (JournalCatalog_TransitionState i Deleting Tombstoned (catalog_ w)) as [ok' c].
    simpl. do 3 eexists. split; [reflexivity|]. simpl.
    split; [apply lookup_insert_eq | reflexivity].
Qed.

(** The state the failure path leaves is the one of the copy it read: the
    transition it makes in between is overwritten. *)
Lemma finalize_failure_state
    (ok : bool) (failed : list string) (err : string) (g : GCMetrics) (i : string)
    (w : @World JournalCatalog S L K) (m : SnapshotMeta) :
  items_ (catalog_ w) !! i = Some m ->
  i ∈ failed \/ is_catastrophic ok failed err = true ->
  exists g' w' m',
    finalize clock opts ok failed err g i w = Some (g', w') /\
    items_ (catalog_ w') !! id m = Some m' /\ state m' = state m.
Proof.
  intros Hget Hfail.
  destruct (finalize_failure ok failed err g i w m Hget Hfail) as (g' & w' & _ & Hrun & Hm & _).
  eexists g', w', _. split; [exact Hrun|]. split; [exact Hm | reflexivity].
Qed.

End Backoff.


(** ** Failed deletions *)

(** C1.  The first failure of scenario D, with the threshold at three
    failures: the pass reverts X to Tombstoned, and then writes back the
    copy of the record it read while X was in Deleting.  At the end of the
    pass X is in state Deleting, with the counter at one and the retry time
    twenty seconds after the pass. *)
Theorem failed_delete_ends_in_Deleting :
  exists g w',
    pass_D 0 = Some (g, w') /\
    deleteFailed g = 1%nat /\
    In (CallTransitionState "X" Deleting Tombstoned true) (calls w') /\
    state_of "X" w' = Some Deleting /\
    deleteFailures <$> items_ (catalog_ w') !! "X" = Some 1 /\
    nextRetryAfter <$> items_ (catalog_ w') !! "X"
      = Some (Some (t0 + 4 * hour + 20 * 1000 * 1000000)).
Proof.
  vm_compute. do 2 eexists. split; [reflexivity|].
  repeat split. right. right. left. reflexivity.
Qed.

(** C2.  The third failure of scenario D: the pass moves X to Quarantined,
    records the QUARANTINE event and counts it, and then writes back the copy
    of the record it read while X was in Deleting.  At the end of the pass X
    is in state Deleting. *)
Theorem quarantined_delete_ends_in_Deleting :
  exists g w',
    pass_D 2 = Some (g, w') /\
    quarantined g = 1%nat /\
    In (CallTransitionState "X" Deleting Quarantined true) (calls w') /\
    (exists e, In (CallRecordEvent e) (calls w') /\ type e = "QUARANTINE") /\
    state_of "X" w' = Some Deleting /\
    deleteFailures <$> items_ (catalog_ w') !! "X" = Some 3.
Proof.
  vm_compute. do 2 eexists. split; [reflexivity|].
  repeat split.
  - right. right. left. reflexivity.
  - eexists. split; [right; left; reflexivity | reflexivity].
Qed.

(** ** Deleted records in the live set *)

(** C5.  With one slot for the newest record, the deleted snapshot D takes
    it: D is marked live and so is its parent P, and Q, the newest record
    that is not deleted, is not.  The pass then tombstones Q and keeps P. *)
Theorem deleted_record_takes_keep_slot :
  (exists live w',
     live_DQP = Some (live, w') /\ elements live = ["D"; "P"]) /\
  (exists g w',
     pass_DQP = Some (g, w') /\
     state_of "D" w' = Some Deleted /\ state_of "P" w' = Some Active /\
     state_of "Q" w' = Some Tombstoned).
Proof.
  split.
  - vm_compute. do 2 eexists. split; reflexivity.
  - vm_compute. do 2 eexists. repeat split.
Qed.

(** ** Strings *)

Lemma string_app_cons (a : ascii) (s t : string) : String a s +:+ t = String a (s +:+ t).
Proof. reflexivity. Qed.

Lemma string_app_nil_l (s : string) : "" +:+ s = s.
Proof. reflexivity. Qed.

Lemma string_app_nil_r (s : string) : s +:+ "" = s.
Proof. induction s as [|a s IH]; [reflexivity|]. rewrite string_app_cons, IH. reflexivity. Qed.

Lemma string_app_assoc (s t u : string) : (s +:+ t) +:+ u = s +:+ t +:+ u.
Proof. induction s as [|a s IH]; [reflexivity|]. rewrite !string_app_cons, IH. reflexivity. Qed.

Lemma contains_app (c : ascii) (s t : string) :
  contains c (s +:+ t) = contains c s || contains c t.
Proof.
  induction s as [|a s IH]; [reflexivity|].
  rewrite string_app_cons. simpl. destruct (decide (a = c)); [reflexivity | exact IH].
Qed.

Lemma has_space_contains (c : ascii) (s : string) :
  Ascii.is_space c = true -> has_space s = false -> contains c s = false.
Proof.
  intros Hc. induction s as [|a s IH]; [reflexivity|]. simpl.
  destruct (Ascii.is_space a) eqn:Ha; [discriminate|]. intros Hs.
  destruct (decide (a = c)) as [->|_]; [congruence | exact (IH Hs)].
Qed.

(** ** Decimal numbers *)

Lemma digit_val_digit_char (d : Z) : 0 <= d < 10 -> digit_val (digit_char d) = Some d.
Proof.
  intros Hd.
  assert (d = 0 \/ d = 1 \/ d = 2 \/ d = 3 \/ d = 4 \/ d = 5 \/ d = 6 \/ d = 7 \/ d = 8 \/ d = 9)
    as Hcases by lia.
  repeat (destruct Hcases as [->|Hcases]; [reflexivity|]). subst d. reflexivity.
Qed.

Lemma digit_is_plain (c : ascii) (d : Z) :
  digit_val c = Some d ->
  Ascii.is_space c = false /\ c <> "-"%char /\ c <> "+"%char /\ c <> pipe /\ c <> nl.
Proof.
  destruct c as [[] [] [] [] [] [] [] []]; try discriminate; intros _; repeat split; discriminate.
Qed.

Lemma to_digits_app (fuel : nat) :
  forall n acc rest, to_digits fuel n acc +:+ rest = to_digits fuel n (acc +:+ rest).
Proof.
  induction fuel as [|fuel IH]; intros n acc rest; [reflexivity|]. simpl.
  destruct (n / 10 =? 0); [reflexivity|]. rewrite IH. reflexivity.
Qed.

Lemma to_digits_starts_with_digit (fuel : nat) :
  forall n acc, starts_with_digit (to_digits (Datatypes.S fuel) n acc) = true.
Proof.
  assert (Hgen : forall f n acc,
             starts_with_digit acc = true -> starts_with_digit (to_digits f n acc) = true).
  { induction f as [|f IH]; intros n acc Hacc; [exact Hacc|]. simpl.
    assert (Hd : starts_with_digit (String (digit_char (n mod 10)) acc) = true).
    { simpl. rewrite digit_val_digit_char; [reflexivity|]. apply Z.mod_pos_bound. lia. }
    destruct (n / 10 =? 0); [exact Hd | apply IH, Hd]. }
  intros n acc. simpl.
  assert (Hd : starts_with_digit (String (digit_char (n mod 10)) acc) = true).
  { simpl. rewrite digit_val_digit_char; [reflexivity|]. apply Z.mod_pos_bound. lia. }
  destruct (n / 10 =? 0); [exact Hd | apply Hgen, Hd].
Qed.

Lemma to_digits_contains (c : ascii) (fuel : nat) :
  digit_val c = None ->
  forall n acc, contains c acc = false -> contains c (to_digits fuel n acc) = false.
Proof.
  intros Hc. induction fuel as [|fuel IH]; intros n acc Hacc; [exact Hacc|]. simpl.
  assert (Hd : contains c (String (digit_char (n mod 10)) acc) = false).
  { simpl. destruct (decide (digit_char (n mod 10) = c)) as [<-|_]; [|exact Hacc].
    rewrite digit_val_digit_char in Hc; [discriminate|]. apply Z.mod_pos_bound. lia. }
  destruct (n / 10 =? 0); [exact Hd | apply IH, Hd].
Qed.

(** Reading back the digits of [n] appends them to the number read so far. *)
Lemma read_digits_to_digits (fuel : nat) :
  forall n, 0 <= n < 2 ^ Z.of_nat fuel ->
    exists k, 0 <= k /\
      forall acc tail, read_digits acc (to_digits fuel n tail) = read_digits (acc * 10 ^ k + n) tail.
Proof.
  induction fuel as [|fuel IH]; intros n Hn.
  - exists 0. split; [lia|]. intros acc tail. simpl in *. f_equal. lia.
  - simpl to_digits.
    assert (Hmod : 0 <= n mod 10 < 10) by (apply Z.mod_pos_bound; lia).
    assert (Hdiv : n = 10 * (n / 10) + n mod 10) by (apply Z.div_mod; lia).
    destruct (Z.eqb_spec (n / 10) 0) as [H0|H0].
    + exists 1. split; [lia|]. intros acc tail. simpl read_digits.
      rewrite digit_val_digit_char by exact Hmod. f_equal. lia.
    + destruct (IH (n / 10)) as (k & Hk & Hread).
      { split; [apply Z.div_pos; lia|].
        rewrite Nat2Z.inj_succ, Z.pow_succ_r in Hn by lia.
        apply Z.div_lt_upper_bound; lia. }
      exists (k + 1). split; [lia|]. intros acc tail.
      rewrite Hread. simpl read_digits.
      rewrite digit_val_digit_char by exact Hmod. f_equal.
      rewrite Z.pow_add_r by lia. lia.
Qed.

Lemma read_digits_stop (acc : Z) (rest : string) :
  starts_with_digit rest = false -> read_digits acc rest = (acc, rest).
Proof.
  destruct rest as [|c rest]; [reflexivity|]. simpl.
  destruct (digit_val c); [discriminate | reflexivity].
Qed.

Lemma log2_fuel (n : Z) : 0 <= n -> 0 <= n < 2 ^ Z.of_nat (Datatypes.S (Z.to_nat (Z.log2 n))).
Proof.
  intros Hn. split; [exact Hn|].
  rewrite Nat2Z.inj_succ, Z2Nat.id by apply Z.log2_nonneg.
  destruct (Z.eq_dec n 0) as [->|Hne]; [reflexivity|].
  apply Z.log2_spec. lia.
Qed.

Lemma scan_digits (s : string) :
  starts_with_digit s = true ->
  scan_integer s = let '(v, rest) := read_digits 0 s in Some (false, v, rest).
Proof.
  destruct s as [|c s]; [discriminate|]. intros Hs. unfold scan_integer.
  simpl in Hs. destruct (digit_val c) as [d|] eqn:Hd; [|discriminate].
  destruct (digit_is_plain c d Hd) as (Hsp & Hminus & Hplus & _).
  simpl skip_space. rewrite Hsp.
  assert (Hsign : (match String c s with
                   | String "-" r => (true, r)
                   | String "+" r => (false, r)
                   | _ => (false, String c s)
                   end) = (false, String c s)).
  { clear -Hminus Hplus.
    destruct c as [[] [] [] [] [] [] [] []]; try reflexivity; contradiction. }
  rewrite Hsign. simpl starts_with_digit. rewrite Hd. reflexivity.
Qed.

Lemma scan_minus (s : string) :
  starts_with_digit s = true ->
  scan_integer (String "-" s) = let '(v, rest) := read_digits 0 s in Some (true, v, rest).
Proof. intros Hs. unfold scan_integer. simpl. rewrite Hs. reflexivity. Qed.

Lemma scan_integer_to_string (z : Z) (rest : string) :
  starts_with_digit rest = false ->
  scan_integer (to_string z +:+ rest) = Some (z <? 0, Z.abs z, rest).
Proof.
  intros Hrest. unfold to_string. destruct (Z.ltb_spec z 0) as [Hneg|Hpos].
  - rewrite string_app_cons. unfold to_string_unsigned. rewrite to_digits_app.
    rewrite scan_minus by apply to_digits_starts_with_digit.
    destruct (read_digits_to_digits _ (- z) (log2_fuel (- z) ltac:(lia))) as (k & Hk & Hread).
    rewrite Hread. simpl "+:+". rewrite read_digits_stop by exact Hrest.
    do 3 f_equal. lia.
  - unfold to_string_unsigned. rewrite to_digits_app.
    rewrite scan_digits by apply to_digits_starts_with_digit.
    destruct (read_digits_to_digits _ z (log2_fuel z Hpos)) as (k & Hk & Hread).
    rewrite Hread. simpl "+:+". rewrite read_digits_stop by exact Hrest.
    do 3 f_equal. lia.
Qed.

Lemma signed_value_abs (z : Z) : signed_value (z <? 0) (Z.abs z) = z.
Proof. unfold signed_value. destruct (Z.ltb_spec z 0); lia. Qed.

Lemma scan_integer_to_string_nil (z : Z) :
  scan_integer (to_string z) = Some (z <? 0, Z.abs z, "").
Proof.
  rewrite <- (string_app_nil_r (to_string z)) at 1. apply scan_integer_to_string. reflexivity.
Qed.

Lemma stoll_to_string (z : Z) : int64_min <= z <= int64_max -> stoll (to_string z) = Some z.
Proof.
  intros Hz. unfold stoll. rewrite scan_integer_to_string_nil, signed_value_abs.
  destruct (Z.leb_spec int64_min z); [|lia]. destruct (Z.leb_spec z int64_max); [|lia].
  reflexivity.
Qed.

Lemma stoull_to_string (z : Z) : 0 <= z <= uint64_max -> stoull (to_string z) = Some z.
Proof.
  intros Hz. unfold stoull. rewrite scan_integer_to_string_nil, signed_value_abs.
  rewrite Z.abs_eq by lia. destruct (Z.leb_spec z uint64_max); [|lia].
  rewrite Z.mod_small; [reflexivity|]. unfold uint64_max in Hz. lia.
Qed.

Lemma stoi_to_string (z : Z) : int_min <= z <= int_max -> stoi (to_string z) = Some z.
Proof.
  intros Hz. unfold stoi. rewrite scan_integer_to_string_nil, signed_value_abs.
  destruct (Z.leb_spec int_min z); [|lia]. destruct (Z.leb_spec z int_max); [|lia].
  reflexivity.
Qed.

Lemma to_string_contains (c : ascii) (z : Z) :
  digit_val c = None -> c <> "-"%char -> contains c (to_string z) = false.
Proof.
  intros Hc Hminus. unfold to_string, to_string_unsigned.
  destruct (z <? 0).
  - cbn [contains]. destruct (decide ("-"%char = c)) as [<-|_]; [contradiction|].
    apply to_digits_contains; [exact Hc | reflexivity].
  - apply to_digits_contains; [exact Hc | reflexivity].
Qed.

(** ** Journal lines *)

Lemma Unescape_Escape (s : string) : Unescape (Escape s) = s.
Proof.
  induction s as [|c s IH]; [reflexivity|]. simpl.
  destruct (decide (c = nl)) as [->|Hnl]; [simpl; rewrite IH; reflexivity|].
  destruct (decide (c = cr)) as [->|Hcr]; [simpl; rewrite IH; reflexivity|].
  destruct (decide (c = backslash)) as [->|Hbs]; [simpl; rewrite IH; reflexivity|].
  simpl. destruct (decide (c = backslash)); [contradiction|]. rewrite IH. reflexivity.
Qed.

Lemma Escape_no_nl (s : string) : contains nl (Escape s) = false.
Proof.
  induction s as [|c s IH]; [reflexivity|]. simpl.
  destruct (decide (c = nl)) as [->|Hnl]; [exact IH|].
  destruct (decide (c = cr)) as [->|Hcr]; [exact IH|].
  destruct (decide (c = backslash)) as [->|Hbs]; [exact IH|].
  simpl. destruct (decide (c = nl)); [contradiction | exact IH].
Qed.

Lemma Escape_no_pipe (s : string) : contains pipe s = false -> contains pipe (Escape s) = false.
Proof.
  induction s as [|c s IH]; [reflexivity|]. simpl.
  destruct (decide (c = pipe)) as [->|Hp]; [discriminate|]. intros Hs.
  destruct (decide (c = nl)) as [->|Hnl]; [exact (IH Hs)|].
  destruct (decide (c = cr)) as [->|Hcr]; [exact (IH Hs)|].
  destruct (decide (c = backslash)) as [->|Hbs]; [exact (IH Hs)|].
  simpl. destruct (decide (c = pipe)); [contradiction | exact (IH Hs)].
Qed.

Lemma split_fields_field (a : string) :
  contains pipe a = false ->
  forall parts cur b,
    split_fields parts cur (a +:+ "|" +:+ b) = split_fields (parts ++ [cur +:+ a]) "" b.
Proof.
  induction a as [|c a IH]; intros Ha parts cur b.
  - rewrite string_app_nil_r. reflexivity.
  - simpl in Ha. destruct (decide (c = pipe)) as [|Hc]; [discriminate|].
    rewrite string_app_cons. simpl split_fields. destruct (decide (c = pipe)); [contradiction|].
    rewrite (IH Ha). rewrite string_app_assoc. reflexivity.
Qed.

Lemma split_fields_last (a : string) :
  contains pipe a = false ->
  forall parts cur, split_fields parts cur a = parts ++ [cur +:+ a].
Proof.
  induction a as [|c a IH]; intros Ha parts cur.
  - rewrite string_app_nil_r. reflexivity.
  - simpl in Ha. destruct (decide (c = pipe)) as [|Hc]; [discriminate|].
    simpl split_fields. destruct (decide (c = pipe)); [contradiction|].
    rewrite (IH Ha). rewrite string_app_assoc. reflexivity.
Qed.

Lemma state_of_to_int (s : SnapshotState) : state_of_int (state_to_int s) = s.
Proof.
  destruct s as [| | | | |p|p]; try reflexivity.
  unfold state_of_int, state_to_int.
  repeat match goal with
         | |- context [?a =? ?b] => destruct (Z.eqb_spec a b); [lia|]
         end.
  destruct (Z.ltb_spec (4 + Z.pos p) 0); [lia|].
  f_equal. replace (4 + Z.pos p - 4) with (Z.pos p) by lia. reflexivity.
Qed.

Lemma state_to_of_int (n : Z) : state_to_int (state_of_int n) = n.
Proof.
  unfold state_of_int.
  repeat match goal with
         | |- context [?a =? ?b] => destruct (Z.eqb_spec a b); [subst; reflexivity|]
         end.
  destruct (Z.ltb_spec n 0); cbn [state_to_int].
  - destruct n as [|p|p]; try lia; reflexivity.
  - rewrite Z2Pos.id by lia. lia.
Qed.

Lemma int_state_range (s : SnapshotState) :
  int_state s = true -> int_min <= state_to_int s <= int_max.
Proof. unfold int_state. rewrite andb_true_iff, !Z.leb_le. tauto. Qed.

Section RoundTrip.
Context {period : ClockPeriod}.

Lemma fromMs_toMs (t : TimePoint) : whole_ms t = true -> fromMs (toMs t) = t.
Proof.
  unfold whole_ms, fromMs, toMs. intros H. apply Z.eqb_eq in H.
  pose proof (Z.quot_rem' t (Z.pos ticks_per_ms)) as Hqr. lia.
Qed.

Lemma quot_bounds (t p : Z) : 0 <= t -> 1 <= p -> 0 <= Z.quot t p <= t.
Proof.
  intros Ht Hp. pose proof (Z.quot_rem' t p) as Hqr.
  pose proof (Z.quot_pos t p Ht ltac:(lia)) as Hq.
  pose proof (Z.rem_nonneg t p ltac:(lia) Ht) as Hr. nia.
Qed.

Lemma toMs_range (t : TimePoint) :
  int64_ticks t = true -> int64_min <= toMs t <= int64_max.
Proof.
  unfold int64_ticks, toMs. intros H. apply andb_true_iff in H as [Hlo Hhi].
  apply Z.leb_le in Hlo, Hhi.
  assert (Hp : 1 <= Z.pos ticks_per_ms) by lia.
  unfold int64_min, int64_max in *.
  destruct (Z.le_gt_cases 0 t) as [Hnn|Hneg].
  - pose proof (quot_bounds t _ Hnn Hp). lia.
  - pose proof (quot_bounds (- t) _ ltac:(lia) Hp) as Hb.
    rewrite Z.quot_opp_l in Hb by lia. lia.
Qed.

Lemma toMs_nonneg (t : TimePoint) : 0 <= t -> 0 <= toMs t.
Proof. intros Ht. unfold toMs. apply Z.quot_pos; lia. Qed.

Lemma optional_time_round_trip (o : option TimePoint) :
  journal_optional_time o = true ->
  (hd ← stoll (to_string (match o with Some t => toMs t | None => -1 end));
   Some (if 0 <=? hd then Some (fromMs hd) else None)) = Some o.
Proof.
  destruct o as [t|]; [|reflexivity]. simpl. intros H.
  apply andb_true_iff in H as [H Hnn]. apply andb_true_iff in H as [Hw Hr].
  apply Z.leb_le in Hnn.
  rewrite stoll_to_string by (apply toMs_range; exact Hr). simpl.
  destruct (Z.leb_spec 0 (toMs t)) as [_|Hlt].
  - rewrite fromMs_toMs by exact Hw. reflexivity.
  - pose proof (toMs_nonneg t Hnn). lia.
Qed.

Lemma Deserialize_Serialize (m : SnapshotMeta) :
  representable m = true -> Deserialize (Serialize m) = Some m.
Proof.
  unfold representable. rewrite !andb_true_iff, !negb_true_iff, !bool_decide_eq_true, !Z.leb_le.
  intros ((((((((((((((Hparent & Htags) & Hid) & Herr) & Hc) & Ha) & Hhd) & Hnr)
              & Hs0) & Hs1) & Hl0) & Hl1) & Hf0) & Hf1) & Hst).
  apply andb_true_iff in Hc as [Hcw Hcr]. apply andb_true_iff in Ha as [Haw Har].
  assert (Hnum : forall z, contains pipe (to_string z) = false).
  { intros z. apply to_string_contains; [reflexivity | discriminate]. }
  unfold Deserialize, Serialize.
  rewrite (split_fields_field _ Hid).
  do 8 rewrite (split_fields_field _ (Hnum _)).
  rewrite (split_fields_last _ (Escape_no_pipe _ Herr)).
  apply optional_time_round_trip in Hhd, Hnr.
  cbn [app lookup list_lookup mbind option_bind]. rewrite !string_app_nil_l.
  unfold stoul.
  rewrite (stoll_to_string _ (toMs_range _ Hcr)).
  rewrite (stoll_to_string _ (toMs_range _ Har)).
  rewrite (stoull_to_string (sizeBytes m)) by lia.
  rewrite (stoull_to_string (leaseCount m)) by (unfold uint32_max, uint64_max in *; lia).
  rewrite (stoull_to_string (deleteFailures m)) by (unfold uint32_max, uint64_max in *; lia).
  rewrite stoi_to_string by (apply int_state_range; exact Hst).
  cbn [mbind option_bind]. rewrite state_of_to_int.
  destruct (stoll (to_string match hardDeleteAfter m with Some t => toMs t | None => -1 end))
    as [hd|]; [|discriminate]. cbn [mbind option_bind] in Hhd |- *.
  destruct (stoll (to_string match nextRetryAfter m with Some t => toMs t | None => -1 end))
    as [nr|]; [|discriminate]. cbn [mbind option_bind] in Hnr |- *.
  injection Hhd as ->. injection Hnr as ->.
  rewrite !fromMs_toMs by assumption.
  rewrite !Z.mod_small by (unfold uint32_max in *; lia).
  rewrite Unescape_Escape.
  destruct m; simpl in *. subst. reflexivity.
Qed.

(** C4, amended.  For every record without parent and tags, whose id and
    [lastError] are free of the field separator and whose time points are
    whole milliseconds (the optional ones, where present, not before the
    epoch), [Deserialize] gives back the record [Serialize] was given, on
    every field: absent optional time points through the -1 they are written
    as, and a [lastError] with newlines, carriage returns and backslashes
    through its escapes. *)
Theorem serialize_round_trip (m : SnapshotMeta) :
  representable m = true -> Deserialize (Serialize m) = Some m.
Proof. exact (Deserialize_Serialize m). Qed.
End RoundTrip.

(** ** Reading the journal back *)

Lemma getlines_from_line (l : string) :
  contains nl l = false ->
  forall cur rest, getlines_from cur (l +:+ String nl rest) = (cur +:+ l) :: getlines_from "" rest.
Proof.
  induction l as [|c l IH]; intros Hl cur rest.
  - rewrite string_app_nil_r. reflexivity.
  - simpl in Hl. destruct (decide (c = nl)) as [|Hc]; [discriminate|].
    rewrite string_app_cons. simpl getlines_from. destruct (decide (c = nl)); [contradiction|].
    rewrite (IH Hl). rewrite string_app_assoc. reflexivity.
Qed.

Lemma getlines_file_of_lines (ls : list string) :
  Forall (fun l => contains nl l = false) ls -> getlines (file_of_lines ls) = ls.
Proof.
  unfold getlines. induction 1 as [|l ls Hl _ IH]; [reflexivity|].
  simpl. rewrite (getlines_from_line l Hl). rewrite IH. reflexivity.
Qed.

Lemma file_of_lines_snoc (ls : list string) (l : string) :
  file_of_lines ls +:+ l +:+ String nl "" = file_of_lines (ls ++ [l]).
Proof.
  induction ls as [|l' ls IH]; [reflexivity|].
  simpl. rewrite string_app_assoc, string_app_cons, IH. reflexivity.
Qed.

Lemma take_word_word (w : string) :
  has_space w = false ->
  forall rest, take_word (w +:+ " " +:+ rest) = (w, " " +:+ rest).
Proof.
  induction w as [|c w IH]; intros Hw rest; [reflexivity|].
  simpl in Hw. destruct (Ascii.is_space c) eqn:Hc; [discriminate|].
  rewrite string_app_cons. simpl take_word. rewrite Hc, (IH Hw). reflexivity.
Qed.

Lemma skip_space_word (w rest : string) :
  one_word w = true -> skip_space (w +:+ rest) = w +:+ rest.
Proof.
  unfold one_word. destruct w as [|c w]; [discriminate|]. simpl.
  destruct (Ascii.is_space c); [discriminate | reflexivity].
Qed.

Section Replaying.
Context {period : ClockPeriod}.

Lemma replay_lines_app (items : gmap string SnapshotMeta) (l1 l2 : list string) :
  replay_lines items (l1 ++ l2) = items' ← replay_lines items l1; replay_lines items' l2.
Proof.
  revert items. induction l1 as [|l l1 IH]; intros items; [reflexivity|].
  simpl. destruct (replay_line items l) as [items'|]; [apply IH | reflexivity].
Qed.

Lemma replay_upsert_line (items : gmap string SnapshotMeta) (m : SnapshotMeta) :
  representable m = true ->
  replay_line items ("UPSERT " +:+ Serialize m) = Some (<[id m := m]> items).
Proof.
  intros Hm. unfold replay_line.
  change (starts_with "UPSERT " ("UPSERT " +:+ Serialize m)) with true. cbv iota.
  change (substr_from 7 ("UPSERT " +:+ Serialize m)) with (Serialize m).
  rewrite (Deserialize_Serialize m Hm). reflexivity.
Qed.

Lemma to_string_first (z : Z) (rest : string) :
  exists c s, to_string z +:+ rest = String c s /\ Ascii.is_space c = false.
Proof.
  unfold to_string. destruct (z <? 0).
  - eexists _, _. split; reflexivity.
  - unfold to_string_unsigned.
    pose proof (to_digits_starts_with_digit (Z.to_nat (Z.log2 z)) z "") as H.
    destruct (to_digits _ z "") as [|c s]; [discriminate|]. simpl in H.
    destruct (digit_val c) as [d|] eqn:Hd; [|discriminate].
    exists c, (s +:+ rest). split; [reflexivity|]. apply (digit_is_plain c d Hd).
Qed.

Lemma extract_int_to_string (z : Z) (rest : string) :
  int_min <= z <= int_max -> starts_with_digit rest = false ->
  extract_int (String " " (to_string z +:+ rest)) = Extracted z rest.
Proof.
  intros Hz Hrest. unfold extract_int.
  destruct (to_string_first z rest) as (c & s & Heq & Hc).
  assert (Hskip : skip_space (String " " (to_string z +:+ rest)) = String c s).
  { change (skip_space (String " " (to_string z +:+ rest)))
      with (skip_space (to_string z +:+ rest)).
    rewrite Heq. simpl. rewrite Hc. reflexivity. }
  rewrite Hskip.
  change (scan_integer (String " " (to_string z +:+ rest)))
    with (scan_integer (to_string z +:+ rest)).
  rewrite (scan_integer_to_string z rest Hrest), signed_value_abs.
  destruct (Z.ltb_spec z int_min); [lia|]. destruct (Z.ltb_spec int_max z); [lia|].
  reflexivity.
Qed.

Lemma parse_own_state_line (i : string) (expected desired : SnapshotState) :
  one_word i = true -> int_state expected = true -> int_state desired = true ->
  parse_state_line ("STATE " +:+ i +:+ " " +:+ to_string (state_to_int expected) +:+ " " +:+
                    to_string (state_to_int desired))
  = (i, Some (state_to_int desired)).
Proof.
  intros Hi He Hd. apply int_state_range in He, Hd. unfold parse_state_line.
  set (tail := " " +:+ to_string (state_to_int expected) +:+ " " +:+
               to_string (state_to_int desired)).
  change (skip_space ("STATE " +:+ i +:+ tail)) with ("STATE" +:+ " " +:+ i +:+ tail).
  rewrite (take_word_word "STATE" eq_refl).
  change (skip_space (" " +:+ i +:+ tail)) with (skip_space (i +:+ tail)).
  rewrite (skip_space_word i tail Hi).
  unfold one_word in Hi. apply andb_true_iff in Hi as [Hne Hsp].
  apply negb_true_iff in Hsp. unfold tail. rewrite (take_word_word i Hsp).
  destruct i as [|c i]; [discriminate|].
  change (" " +:+ to_string (state_to_int expected) +:+ " " +:+
          to_string (state_to_int desired))
    with (String " " (to_string (state_to_int expected) +:+
                      String " " (to_string (state_to_int desired)))).
  rewrite (extract_int_to_string (state_to_int expected)
             (String " " (to_string (state_to_int desired))) He eq_refl).
  rewrite <- (string_app_nil_r (to_string (state_to_int desired))).
  rewrite (extract_int_to_string (state_to_int desired) "" Hd eq_refl). reflexivity.
Qed.

Lemma replay_state_line (items : gmap string SnapshotMeta) (i : string)
    (expected desired : SnapshotState) :
  one_word i = true -> int_state expected = true -> int_state desired = true ->
  replay_line items ("STATE " +:+ i +:+ " " +:+ to_string (state_to_int expected) +:+ " " +:+
                     to_string (state_to_int desired))
  = match items !! i with
    | None => Some items
    | Some m => Some (<[i := set_state desired m]> items)
    end.
Proof.
  intros Hi He Hd. unfold replay_line.
  set (line := "STATE " +:+ _).
  change (starts_with "UPSERT " line) with false.
  change (starts_with "STATE " line) with true. cbv iota.
  unfold line. rewrite (parse_own_state_line i expected desired Hi He Hd).
  destruct (items !! i) as [m|]; [|reflexivity].
  simpl. rewrite state_of_to_int. reflexivity.
Qed.

Lemma replay_event_line (items : gmap string SnapshotMeta) (rest : string) :
  replay_line items ("EVENT " +:+ rest) = Some items.
Proof. reflexivity. Qed.

Lemma Serialize_no_nl (m : SnapshotMeta) :
  has_space (id m) = false -> contains nl (Serialize m) = false.
Proof.
  intros Hid. unfold Serialize.
  assert (Hnum : forall z, contains nl (to_string z) = false).
  { intros z. apply to_string_contains; [reflexivity | discriminate]. }
  rewrite !contains_app, !Hnum, Escape_no_nl, (has_space_contains nl _ eq_refl Hid).
  reflexivity.
Qed.

Lemma journal_inv_Append (c : JournalCatalog) (items' : gmap string SnapshotMeta) (line : string) :
  journal_inv c ->
  contains nl line = false ->
  replay_line (items_ c) line = Some items' ->
  (forall k m, items' !! k = Some m -> id m = k /\ one_word k = true) ->
  journal_inv (Append line {| journalFile := journalFile c; items_ := items' |}).
Proof.
  intros [_ (ls & Hfile & Hnl & Hreplay)] Hline Hstep Hkeys. split; [exact Hkeys|].
  exists (ls ++ [line]). simpl. rewrite Hfile. split; [apply file_of_lines_snoc|].
  split; [apply Forall_app; split; [exact Hnl | repeat constructor; exact Hline]|].
  rewrite replay_lines_app, Hreplay. simpl. rewrite Hstep. reflexivity.
Qed.

Lemma journal_inv_apply_op (c : JournalCatalog) (o : CatalogOp) :
  journal_inv c -> journal_safe o = true -> journal_inv (apply_op c o).
Proof.
  intros Hinv Hsafe. pose proof Hinv as [Hkeys _].
  destruct o as [m|i expected desired|e]; simpl in *.
  - apply andb_true_iff in Hsafe as [Hrep Hword].
    assert (Hsp : has_space (id m) = false).
    { unfold one_word in Hword. apply andb_true_iff in Hword as [_ Hsp].
      apply negb_true_iff in Hsp. exact Hsp. }
    apply (journal_inv_Append c).
    + exact Hinv.
    + rewrite contains_app, (Serialize_no_nl m Hsp). reflexivity.
    + apply replay_upsert_line. exact Hrep.
    + intros k m' Hlook. destruct (decide (id m = k)) as [<-|Hne].
      * rewrite lookup_insert_eq in Hlook. injection Hlook as <-. split; [reflexivity | exact Hword].
      * rewrite lookup_insert_ne in Hlook by exact Hne. apply Hkeys. exact Hlook.
  - unfold JournalCatalog_TransitionState.
    destruct (items_ c !! i) as [m|] eqn:Hlook; [|exact Hinv].
    destruct (decide (state m = expected)) as [Hst|Hst]; [|exact Hinv].
    destruct (Hkeys i m Hlook) as [Hid Hword]. simpl.
    assert (Hsp : has_space i = false).
    { unfold one_word in Hword. apply andb_true_iff in Hword as [_ Hsp].
      apply negb_true_iff in Hsp. exact Hsp. }
    apply (journal_inv_Append c).
    + exact Hinv.
    + assert (Hnum : forall z, contains nl (to_string z) = false).
      { intros z. apply to_string_contains; [reflexivity | discriminate]. }
      rewrite !contains_app, !Hnum, (has_space_contains nl _ eq_refl Hsp). reflexivity.
    + apply andb_true_iff in Hsafe as [He Hd].
      rewrite (replay_state_line _ i expected desired Hword He Hd), Hlook. reflexivity.
    + intros k m' Hlook'. destruct (decide (i = k)) as [<-|Hne].
      * rewrite lookup_insert_eq in Hlook'. injection Hlook' as <-. split; [exact Hid | exact Hword].
      * rewrite lookup_insert_ne in Hlook' by exact Hne. apply Hkeys. exact Hlook'.
  - unfold JournalCatalog_RecordEvent.
    apply andb_true_iff in Hsafe as [Hsid Hty]. apply negb_true_iff in Hsid, Hty.
    replace c with {| journalFile := journalFile c; items_ := items_ c |} at 2
      by (destruct c; reflexivity).
    apply (journal_inv_Append c).
    + exact Hinv.
    + rewrite !contains_app, Hsid, Hty, Escape_no_nl. reflexivity.
    + apply replay_event_line.
    + exact Hkeys.
Qed.

Lemma journal_inv_fold (ops : list CatalogOp) :
  forall c, journal_inv c -> Forall (fun o => journal_safe o = true) ops ->
            journal_inv (fold_left apply_op ops c).
Proof.
  induction ops as [|o ops IH]; intros c Hinv Hsafe; [exact Hinv|].
  inversion Hsafe as [|? ? Ho Hops]; subst. simpl.
  apply IH; [apply journal_inv_apply_op; assumption | exact Hops].
Qed.

Lemma journal_inv_reopen (c : JournalCatalog) :
  journal_inv c -> open_JournalCatalog (journalFile c) = Some c.
Proof.
  intros [_ (ls & Hfile & Hnl & Hreplay)]. unfold open_JournalCatalog, Replay.
  assert (Hlines : match journalFile c with
                   | Some contents => replay_lines ∅ (getlines contents)
                   | None => Some ∅
                   end = Some (items_ c)).
  { destruct (journalFile c) as [contents|]; simpl in Hfile.
    - rewrite Hfile, (getlines_file_of_lines ls Hnl). exact Hreplay.
    - destruct ls as [|l ls]; [exact Hreplay|].
      simpl in Hfile. destruct l; discriminate. }
  rewrite Hlines. simpl. destruct c; reflexivity.
Qed.

(** C3, amended.  For every sequence of catalog operations that upserts
    only records a journal line can hold, under ids of one word, and records
    only events whose snapshot id and type are free of newlines (the states
    of its transitions being values of an [int], as all values of the
    enumeration are), constructing a catalog on the journal file the sequence
    has written gives the index the sequence has left in memory. *)
Theorem replay_reconstructs_index (ops : list CatalogOp) :
  Forall (fun o => journal_safe o = true) ops ->
  open_JournalCatalog (journalFile (run_ops ops)) = Some (run_ops ops).
Proof.
  intros Hsafe. apply journal_inv_reopen. unfold run_ops.
  apply journal_inv_fold; [|exact Hsafe].
  split; [intros k m Hlook; simpl in Hlook; rewrite lookup_empty in Hlook; discriminate|].
  exists []. repeat split. constructor.
Qed.
End Replaying.

(** ** Records and operations the journal does not hold *)

(** C4, as stated, fails: the parent and the tags are not written; a field
    separator in [lastError] cuts the field; a time point is written in whole
    milliseconds; an optional time point one millisecond before the epoch is
    written as the -1 of an absent one. *)
Lemma serialize_round_trip_fails :
  read_back with_parent <> Some with_parent /\
  read_back with_tag <> Some with_tag /\
  read_back with_pipe <> Some with_pipe /\
  read_back off_millisecond <> Some off_millisecond /\
  read_back before_epoch <> Some before_epoch.
Proof. repeat split; vm_compute; discriminate. Qed.

(** A record with optional time points present and absent, and newline,
    carriage return and backslash in [lastError]. *)
Lemma serialize_round_trip_witness : read_back with_escapes = Some with_escapes.
Proof.
  exact (serialize_round_trip (period := nanoseconds) with_escapes
           ltac:(vm_compute; reflexivity)).
Defined.

(** C3, as stated, fails: after an [Upsert] of a record with a parent the
    replayed index has the record without it; an event whose type holds a
    newline puts a line of its own into the journal, here an UPSERT of a
    record that was never in memory; the [STATE] line of an id of two words
    is read as the line of its first word. *)
Lemma replay_loses_fields :
  reopened [OpUpsert with_parent] <> Some (journal_after [OpUpsert with_parent]) /\
  reopened [OpRecordEvent forged_event] <> Some (journal_after [OpRecordEvent forged_event]) /\
  reopened [OpUpsert two_words; OpTransitionState "A B" Active Tombstoned]
    <> Some (journal_after [OpUpsert two_words; OpTransitionState "A B" Active Tombstoned]).
Proof. repeat split; vm_compute; discriminate. Qed.

(** An upsert, a transition, an event and the upsert of a failed deletion. *)
Lemma replay_reconstructs_index_witness :
  reopened journal_of_X = Some (journal_after journal_of_X).
Proof.
  exact (replay_reconstructs_index (period := nanoseconds) journal_of_X
           ltac:(repeat (constructor; [vm_compute; reflexivity|]); constructor)).
Defined.

(** ** The theorems at the scenarios *)

(** Scenario E: the five snapshots of scenario A in a dry run. *)
Lemma dry_run_purity_witness :
  dryRun options_E = true /\
  ((0 < batchDeleteSize options_E)%nat -> is_Some pass_E) /\
  (forall g w', pass_E = Some (g, w') ->
     items_ (catalog_ w') = items_ (catalog_ world_A) /\
     storage_ w' = storage_ world_A /\
     (exists new, calls w' = new ++ calls world_A /\ Forall dry_run_call new) /\
     tombstoned g = 0%nat /\ deleted g = 0%nat /\ quarantined g = 0%nat /\
     deleteFailed g = 0%nat).
Proof.
  split; [reflexivity|].
  exact (dry_run_purity (period := nanoseconds) (order := by_key) (sorter := insertion_sort)
           (stopped (t0 + 4 * hour)) policy_A options_E world_A eq_refl).
Defined.


(** ** Escaped text *)

Lemma Escape_no_cr (s : string) : contains cr (Escape s) = false.
Proof.
  induction s as [|c s IH]; [reflexivity|]. simpl.
  destruct (decide (c = nl)) as [->|Hnl]; [exact IH|].
  destruct (decide (c = cr)) as [->|Hcr]; [exact IH|].
  destruct (decide (c = backslash)) as [->|Hbs]; [exact IH|].
  simpl. destruct (decide (c = cr)); [contradiction | exact IH].
Qed.

(** X1.  [Unescape] undoes [Escape] on every string, and an escaped string
    holds neither a newline nor a carriage return: an escaped text stays on
    the journal line it is written to. *)
Theorem Escape_round_trip (s : string) :
  Unescape (Escape s) = s /\
  contains nl (Escape s) = false /\ contains cr (Escape s) = false.
Proof.
  split; [apply Unescape_Escape|]. split; [apply Escape_no_nl | apply Escape_no_cr].
Qed.

(** ** The fields of a line *)

Lemma join_fields_snoc (ps : list string) (p a : string) :
  join_fields ((p :: ps) ++ [a]) = join_fields (p :: ps) +:+ "|" +:+ a.
Proof.
  revert p. induction ps as [|q ps IH]; intros p; [reflexivity|].
  change (join_fields ((p :: q :: ps) ++ [a]))
    with (p +:+ "|" +:+ join_fields ((q :: ps) ++ [a])).
  rewrite IH. change (join_fields (p :: q :: ps)) with (p +:+ "|" +:+ join_fields (q :: ps)).
  rewrite !string_app_assoc. reflexivity.
Qed.

Lemma join_fields_last_app (ps : list string) (a b : string) :
  join_fields (ps ++ [a +:+ b]) = join_fields (ps ++ [a]) +:+ b.
Proof.
  induction ps as [|p ps IH]; [reflexivity|].
  destruct ps as [|q ps].
  - simpl. rewrite !string_app_assoc. reflexivity.
  - change (join_fields ((p :: q :: ps) ++ [a +:+ b]))
      with (p +:+ "|" +:+ join_fields ((q :: ps) ++ [a +:+ b])).
    rewrite IH.
    change (join_fields ((p :: q :: ps) ++ [a]))
      with (p +:+ "|" +:+ join_fields ((q :: ps) ++ [a])).
    rewrite !string_app_assoc. reflexivity.
Qed.

Lemma join_split_fields (line : string) :
  forall parts cur,
    join_fields (split_fields parts cur line) = join_fields (parts ++ [cur]) +:+ line.
Proof.
  induction line as [|c line IH]; intros parts cur; simpl.
  - rewrite string_app_nil_r. reflexivity.
  - destruct (decide (c = pipe)) as [->|Hc].
    + rewrite IH. destruct parts as [|p ps].
      * simpl. rewrite !string_app_nil_r. rewrite string_app_assoc. reflexivity.
      * change (join_fields (((p :: ps) ++ [cur]) ++ [""]) +:+ line
                = join_fields ((p :: ps) ++ [cur]) +:+ String pipe line).
        change ((p :: ps) ++ [cur]) with (p :: (ps ++ [cur])).
        rewrite (join_fields_snoc (ps ++ [cur]) p "").
        rewrite !string_app_assoc. reflexivity.
    + rewrite IH, join_fields_last_app, string_app_assoc. reflexivity.
Qed.

Lemma split_fields_no_pipe (line : string) :
  forall parts cur,
    Forall (fun f => contains pipe f = false) parts -> contains pipe cur = false ->
    Forall (fun f => contains pipe f = false) (split_fields parts cur line).
Proof.
  induction line as [|c line IH]; intros parts cur Hparts Hcur; simpl.
  - apply Forall_app. split; [exact Hparts | repeat constructor; exact Hcur].
  - destruct (decide (c = pipe)) as [->|Hc].
    + apply IH; [|reflexivity].
      apply Forall_app. split; [exact Hparts | repeat constructor; exact Hcur].
    + apply IH; [exact Hparts|].
      rewrite contains_app, Hcur. simpl. destruct (decide (c = pipe)); [contradiction|reflexivity].
Qed.

Lemma split_fields_length (line : string) :
  forall parts cur,
    length (split_fields parts cur line) = (length parts + S (count_char pipe line))%nat.
Proof.
  induction line as [|c line IH]; intros parts cur; simpl.
  - rewrite length_app. simpl. lia.
  - destruct (decide (c = pipe)) as [->|Hc].
    + rewrite IH, length_app. simpl. lia.
    + apply IH.
Qed.

Lemma split_join_fields (ps : list string) :
  Forall (fun f => contains pipe f = false) ps ->
  forall p acc, contains pipe p = false ->
    split_fields acc "" (join_fields (p :: ps)) = acc ++ p :: ps.
Proof.
  induction 1 as [|q ps Hq _ IH]; intros p acc Hp.
  - simpl. rewrite (split_fields_last p Hp). reflexivity.
  - change (join_fields (p :: q :: ps)) with (p +:+ "|" +:+ join_fields (q :: ps)).
    rewrite (split_fields_field p Hp), (IH q _ Hq), <- app_assoc. reflexivity.
Qed.

(** X2.  The splitting loop of [Deserialize] cuts a line at every field
    separator and nowhere else: the fields, put together with the separator
    between them, are the line; no field holds a separator; and there is one
    field more than the line has separators.  Conversely the loop gives back
    any non-empty list of fields without separator from its line. *)
Theorem split_fields_join (line : string) (p : string) (ps : list string) :
  join_fields (split_fields [] "" line) = line /\
  Forall (fun f => contains pipe f = false) (split_fields [] "" line) /\
  length (split_fields [] "" line) = S (count_char pipe line) /\
  (Forall (fun f => contains pipe f = false) (p :: ps) ->
   split_fields [] "" (join_fields (p :: ps)) = p :: ps).
Proof.
  split; [apply (join_split_fields line [] "")|].
  split; [apply split_fields_no_pipe; [constructor | reflexivity]|].
  split; [apply (split_fields_length line [] "")|].
  intros Hall. inversion Hall as [|? ? Hp Hps]; subst.
  apply (split_join_fields ps Hps p [] Hp).
Qed.

Section Lines.
Context {period : ClockPeriod}.

Lemma Deserialize_needs_ten (line : string) :
  split_fields [] "" line !! 9%nat = None -> Deserialize line = None.
Proof.
  intros H9. unfold Deserialize. rewrite H9.
  destruct (split_fields [] "" line !! 0%nat); [|reflexivity]. cbn [mbind option_bind].
  repeat match goal with
         | |- (?x ≫= _) = None => destruct x; cbn [mbind option_bind]; [|reflexivity]
         end.
  reflexivity.
Qed.

(** X3.  A line with fewer than ten fields (fewer than nine separators) is
    not deserialized: [parts.at] throws. *)
Theorem Deserialize_short_line (line : string) :
  (count_char pipe line < 9)%nat -> Deserialize line = None.
Proof.
  intros Hn. apply Deserialize_needs_ten. apply lookup_ge_None.
  rewrite (split_fields_length line [] ""). simpl. lia.
Qed.

Lemma split_fields_prefix (line : string) :
  forall pre parts cur,
    split_fields (pre ++ parts) cur line = pre ++ split_fields parts cur line.
Proof.
  induction line as [|c line IH]; intros pre parts cur; simpl.
  - rewrite app_assoc. reflexivity.
  - destruct (decide (c = pipe)); [|apply IH].
    rewrite <- app_assoc. apply IH.
Qed.

Lemma split_fields_app (a b : string) :
  forall parts cur,
    split_fields parts cur (a +:+ "|" +:+ b) = split_fields parts cur a ++ split_fields [] "" b.
Proof.
  induction a as [|c a IH]; intros parts cur.
  - simpl.
    rewrite <- (app_nil_r (parts ++ [cur])) at 1. apply split_fields_prefix.
  - rewrite string_app_cons. simpl. destruct (decide (c = pipe)); apply IH.
Qed.

(** X4.  Of a line with more than ten fields [Deserialize] reads the first
    ten: what follows a tenth separator does not change the result. *)
Theorem Deserialize_ignores_further_fields (line more : string) :
  (9 <= count_char pipe line)%nat ->
  Deserialize (line +:+ "|" +:+ more) = Deserialize line.
Proof.
  intros Hn. unfold Deserialize. rewrite split_fields_app.
  rewrite !lookup_app_l by (rewrite (split_fields_length line [] ""); simpl; lia).
  reflexivity.
Qed.

Lemma toMs_fromMs (ms : Z) : toMs (fromMs ms) = ms.
Proof. unfold toMs, fromMs. apply Z.quot_mul. lia. Qed.

Lemma whole_ms_fromMs (ms : Z) : whole_ms (fromMs ms) = true.
Proof. unfold whole_ms, fromMs. rewrite Z.rem_mul by lia. reflexivity. Qed.

Lemma truncate_ms_between (t : TimePoint) :
  (0 <= t -> 0 <= truncate_ms t <= t) /\ (t <= 0 -> t <= truncate_ms t <= 0).
Proof.
  unfold truncate_ms, fromMs, toMs.
  pose proof (Z.quot_rem' t (Z.pos ticks_per_ms)) as Hqr.
  split; intros Ht.
  - pose proof (Z.rem_nonneg t (Z.pos ticks_per_ms) ltac:(lia) Ht).
    pose proof (Z.quot_pos t (Z.pos ticks_per_ms) Ht ltac:(lia)). nia.
  - pose proof (Z.rem_nonpos t (Z.pos ticks_per_ms) ltac:(lia) Ht).
    assert (Z.quot t (Z.pos ticks_per_ms) <= 0).
    { rewrite <- (Z.opp_involutive t), Z.quot_opp_l by lia.
      pose proof (Z.quot_pos (- t) (Z.pos ticks_per_ms) ltac:(lia) ltac:(lia)). lia. }
    nia.
Qed.

Lemma truncate_ms_close (t : TimePoint) : Z.abs (t - truncate_ms t) < Z.pos ticks_per_ms.
Proof.
  unfold truncate_ms, fromMs, toMs.
  pose proof (Z.quot_rem' t (Z.pos ticks_per_ms)) as Hqr.
  pose proof (Z.rem_bound_abs t (Z.pos ticks_per_ms) ltac:(lia)) as Hb.
  replace (t - Z.quot t (Z.pos ticks_per_ms) * Z.pos ticks_per_ms)
    with (Z.rem t (Z.pos ticks_per_ms)) by lia.
  lia.
Qed.

Lemma int64_ticks_truncate (t : TimePoint) :
  int64_ticks t = true -> int64_ticks (truncate_ms t) = true.
Proof.
  unfold int64_ticks. rewrite !andb_true_iff, !Z.leb_le.
  destruct (truncate_ms_between t) as [Hpos Hneg].
  unfold int64_min, int64_max. destruct (Z.le_gt_cases 0 t); lia.
Qed.

Lemma optional_time_image (o : option TimePoint) :
  optional_int64_ticks o = true ->
  (hd ← stoll (to_string (match o with Some t => toMs t | None => -1 end));
   Some (if 0 <=? hd then Some (fromMs hd) else None)) = Some (truncate_optional o).
Proof.
  destruct o as [t|]; [|reflexivity]. simpl. intros Hr.
  rewrite stoll_to_string by (apply toMs_range; exact Hr). reflexivity.
Qed.

Lemma journal_optional_time_truncate (o : option TimePoint) :
  optional_int64_ticks o = true -> journal_optional_time (truncate_optional o) = true.
Proof.
  destruct o as [t|]; [|reflexivity]. simpl. intros Hr.
  destruct (Z.leb_spec 0 (toMs t)) as [Hnn|]; [|reflexivity]. simpl.
  unfold journal_time. rewrite (int64_ticks_truncate t Hr).
  unfold truncate_ms. rewrite whole_ms_fromMs. simpl.
  apply Z.leb_le. unfold fromMs. lia.
Qed.

Lemma Deserialize_Serialize_image (m : SnapshotMeta) :
  splittable m = true -> Deserialize (Serialize m) = Some (journal_image m).
Proof.
  unfold splittable. rewrite !andb_true_iff, !negb_true_iff, !Z.leb_le.
  intros ((((((((((((Hid & Herr) & Hcr) & Har) & Hhd) & Hnr)
              & Hs0) & Hs1) & Hl0) & Hl1) & Hf0) & Hf1) & Hst).
  assert (Hnum : forall z, contains pipe (to_string z) = false).
  { intros z. apply to_string_contains; [reflexivity | discriminate]. }
  unfold Deserialize, Serialize.
  rewrite (split_fields_field _ Hid).
  do 8 rewrite (split_fields_field _ (Hnum _)).
  rewrite (split_fields_last _ (Escape_no_pipe _ Herr)).
  apply optional_time_image in Hhd, Hnr.
  cbn [app lookup list_lookup mbind option_bind]. rewrite !string_app_nil_l.
  unfold stoul.
  rewrite (stoll_to_string _ (toMs_range _ Hcr)).
  rewrite (stoll_to_string _ (toMs_range _ Har)).
  rewrite (stoull_to_string (sizeBytes m)) by lia.
  rewrite (stoull_to_string (leaseCount m)) by (unfold uint32_max, uint64_max in *; lia).
  rewrite (stoull_to_string (deleteFailures m)) by (unfold uint32_max, uint64_max in *; lia).
  rewrite stoi_to_string by (apply int_state_range; exact Hst).
  cbn [mbind option_bind]. rewrite state_of_to_int.
  destruct (stoll (to_string match hardDeleteAfter m with Some t => toMs t | None => -1 end))
    as [hd|]; [|discriminate]. cbn [mbind option_bind] in Hhd |- *.
  destruct (stoll (to_string match nextRetryAfter m with Some t => toMs t | None => -1 end))
    as [nr|]; [|discriminate]. cbn [mbind option_bind] in Hnr |- *.
  injection Hhd as ->. injection Hnr as ->.
  rewrite !Z.mod_small by (unfold uint32_max in *; lia).
  rewrite Unescape_Escape. reflexivity.
Qed.

Lemma representable_journal_image (m : SnapshotMeta) :
  splittable m = true -> representable (journal_image m) = true.
Proof.
  unfold splittable. rewrite !andb_true_iff, !negb_true_iff.
  intros ((((((((((((Hid & Herr) & Hcr) & Har) & Hhd) & Hnr)
              & Hs0) & Hs1) & Hl0) & Hl1) & Hf0) & Hf1) & Hst).
  unfold representable, journal_image, journal_time. cbn [id created sizeBytes state parentId tags leaseCount lastAccess hardDeleteAfter deleteFailures nextRetryAfter lastError].
  rewrite (int64_ticks_truncate _ Hcr), (int64_ticks_truncate _ Har).
  rewrite (journal_optional_time_truncate _ Hhd), (journal_optional_time_truncate _ Hnr).
  unfold truncate_ms. rewrite !whole_ms_fromMs.
  rewrite Hid, Herr, Hs0, Hs1, Hl0, Hl1, Hf0, Hf1, Hst.
  rewrite !bool_decide_eq_true_2 by reflexivity. reflexivity.
Qed.

Lemma truncate_optional_Some (t : TimePoint) :
  truncate_optional (Some t)
  = if t <=? - Z.pos ticks_per_ms then None else Some (truncate_ms t).
Proof.
  unfold truncate_optional, toMs.
  assert (Hopp : Z.quot t (Z.pos ticks_per_ms) = - Z.quot (- t) (Z.pos ticks_per_ms)).
  { rewrite Z.quot_opp_l by lia. lia. }
  destruct (Z.leb_spec t (- Z.pos ticks_per_ms)) as [Hlow|Hhigh].
  - assert (Hq : 0 < Z.quot (- t) (Z.pos ticks_per_ms)) by (apply Z.quot_str_pos; lia).
    destruct (Z.leb_spec 0 (Z.quot t (Z.pos ticks_per_ms))); [lia | reflexivity].
  - destruct (Z.le_gt_cases 0 t) as [Hnn|Hneg].
    + assert (Hq : 0 <= Z.quot t (Z.pos ticks_per_ms)) by (apply Z.quot_pos; lia).
      destruct (Z.leb_spec 0 (Z.quot t (Z.pos ticks_per_ms))); [reflexivity | lia].
    + assert (Hq : Z.quot (- t) (Z.pos ticks_per_ms) = 0) by (apply Z.quot_small; lia).
      destruct (Z.leb_spec 0 (Z.quot t (Z.pos ticks_per_ms))); [reflexivity | lia].
Qed.

(** X5.  What a journal line keeps of a record.  For every record whose id
    and [lastError] hold no field separator, [Deserialize] gives back from the
    line of [Serialize] the record without its parent and its tags, with each
    time point cut to whole milliseconds towards the epoch (by less than a
    millisecond); every other member is the one written.  Of the two optional
    time points, one that is a millisecond or more before the epoch comes
    back absent, and one that is less than a millisecond before the epoch
    comes back present, at the epoch.  A record read back in this way is
    written and read back unchanged. *)
Theorem Deserialize_Serialize_truncates (m : SnapshotMeta) :
  splittable m = true ->
  Deserialize (Serialize m)
  = Some {| id := id m; created := truncate_ms (created m); sizeBytes := sizeBytes m;
            state := state m; parentId := None; tags := ∅; leaseCount := leaseCount m;
            lastAccess := truncate_ms (lastAccess m);
            hardDeleteAfter := truncate_optional (hardDeleteAfter m);
            deleteFailures := deleteFailures m;
            nextRetryAfter := truncate_optional (nextRetryAfter m);
            lastError := lastError m |} /\
  Deserialize (Serialize (journal_image m)) = Some (journal_image m) /\
  (forall t, Z.abs (t - truncate_ms t) < Z.pos ticks_per_ms /\
             Z.abs (truncate_ms t) <= Z.abs t) /\
  (forall t, truncate_optional (Some t)
             = if t <=? - Z.pos ticks_per_ms then None else Some (truncate_ms t)) /\
  truncate_optional None = None.
Proof.
  intros Hm. split; [apply Deserialize_Serialize_image; exact Hm|].
  split; [apply Deserialize_Serialize, representable_journal_image; exact Hm|].
  split; [|split; [apply truncate_optional_Some | reflexivity]].
  intros t. split; [apply truncate_ms_close|].
  destruct (truncate_ms_between t) as [Hpos Hneg]. destruct (Z.le_gt_cases 0 t); lia.
Qed.
End Lines.

(** ** The operations of the journal catalog *)

Section CatalogOperations.
Context {period : ClockPeriod} {order : Traversal}.

(** X6.  [TransitionState] is a compare-and-set on the state of one record.
    It returns true exactly when the index has a record under the id whose
    state is the expected one.  When it returns false the catalog is as it
    was, the journal included.  When it returns true the record has the
    desired state and is otherwise the same, every other record is as it
    was, and the same transition, asked for a second time, returns false
    (for a desired state other than the expected one) and changes nothing:
    of two instances that ask for it only the first is served. *)
Theorem TransitionState_compare_and_set
    (i : string) (expected desired : SnapshotState) (c : JournalCatalog) :
  let r := JournalCatalog_TransitionState i expected desired c in
  (r.1 = true <-> exists m, JournalCatalog_Get i c = Some m /\ state m = expected) /\
  (r.1 = false -> r.2 = c) /\
  (forall m, JournalCatalog_Get i c = Some m -> state m = expected ->
     JournalCatalog_Get i r.2 = Some (set_state desired m) /\
     (forall j, j <> i -> JournalCatalog_Get j r.2 = JournalCatalog_Get j c) /\
     (desired <> expected ->
      JournalCatalog_TransitionState i expected desired r.2 = (false, r.2))).
Proof.
  unfold JournalCatalog_TransitionState, JournalCatalog_Get.
  destruct (items_ c !! i) as [m|] eqn:Hget; simpl.
  2:{ split; [split; [discriminate | intros (m & Hm & _); discriminate]|].
      split; [reflexivity | intros m Hm; discriminate]. }
  destruct (decide (state m = expected)) as [Hst|Hst]; simpl.
  - split; [split; [intros _; eauto | reflexivity]|].
    split; [discriminate|].
    intros m' Hm' _. injection Hm' as <-.
    rewrite lookup_insert_eq.
    split; [reflexivity|]. split; [intros j Hj; apply lookup_insert_ne; congruence|].
    intros Hne. simpl.
    destruct (decide (desired = expected)); [contradiction | reflexivity].
  - split; [split; [discriminate | intros (m' & Hm' & Hst'); congruence]|].
    split; [reflexivity|]. intros m' Hm' Hst'. congruence.
Qed.

Lemma ListAll_length (c : JournalCatalog) :
  length (JournalCatalog_ListAll c) = size (items_ c).
Proof.
  unfold JournalCatalog_ListAll.
  rewrite (Permutation_length (traverse_values (items_ c))), length_fmap.
  apply length_map_to_list.
Qed.

Lemma ListAll_elem_of (c : JournalCatalog) (m : SnapshotMeta) :
  m ∈ JournalCatalog_ListAll c <-> exists k, JournalCatalog_Get k c = Some m.
Proof.
  unfold JournalCatalog_ListAll, JournalCatalog_Get.
  rewrite (traverse_values (items_ c)). rewrite list_elem_of_fmap. split.
  - intros ([k m'] & -> & Hin). exists k. apply elem_of_map_to_list in Hin. exact Hin.
  - intros (k & Hk). exists (k, m). split; [reflexivity|].
    apply elem_of_map_to_list. exact Hk.
Qed.

(** X7.  [Upsert] files the record under its id, whatever was there, and
    returns true: [Get] on that id gives the record, [Get] on any other id
    gives what it gave before, the record is in the listing, and the listing
    is longer by one exactly when the id was not in the index. *)
Theorem Upsert_then_Get (m : SnapshotMeta) (c : JournalCatalog) :
  let r := JournalCatalog_Upsert m c in
  r.1 = true /\
  JournalCatalog_Get (id m) r.2 = Some m /\
  (forall j, j <> id m -> JournalCatalog_Get j r.2 = JournalCatalog_Get j c) /\
  m ∈ JournalCatalog_ListAll r.2 /\
  length (JournalCatalog_ListAll r.2)
    = match JournalCatalog_Get (id m) c with
      | Some _ => length (JournalCatalog_ListAll c)
      | None => Datatypes.S (length (JournalCatalog_ListAll c))
      end.
Proof.
  simpl. split; [reflexivity|].
  assert (Hget : JournalCatalog_Get (id m) (JournalCatalog_Upsert m c).2 = Some m).
  { unfold JournalCatalog_Get. simpl. apply lookup_insert_eq. }
  split; [exact Hget|].
  split; [intros j Hj; unfold JournalCatalog_Get; simpl; apply lookup_insert_ne; congruence|].
  split; [apply ListAll_elem_of; eauto|].
  rewrite !ListAll_length. unfold JournalCatalog_Get. simpl.
  destruct (items_ c !! id m) as [m0|] eqn:Hold.
  - apply map_size_insert_Some. eauto.
  - apply map_size_insert_None. exact Hold.
Qed.

Lemma keyed_NoDup (c : JournalCatalog) :
  keyed (items_ c) -> NoDup (id <$> JournalCatalog_ListAll c).
Proof.
  intros Hkeyed. unfold JournalCatalog_ListAll.
  rewrite (traverse_values (items_ c)).
  assert (Heq : id <$> (map_to_list (items_ c)).*2 = (map_to_list (items_ c)).*1).
  { rewrite <- list_fmap_compose. apply Forall_fmap_ext, Forall_forall.
    intros [k m] Hin. apply elem_of_map_to_list in Hin.
    simpl. apply Hkeyed. exact Hin. }
  rewrite Heq. apply NoDup_fst_map_to_list.
Qed.

(** X8.  [ListAll] lists the index: a record is in the listing exactly when
    [Get] returns it for some id, and the listing has as many records as the
    index has ids.  When every record is filed under its own id, no two
    records of the listing have the same id, and a record is in the listing
    exactly when [Get] returns it for its id. *)
Theorem ListAll_lists_the_index (c : JournalCatalog) :
  (forall m, m ∈ JournalCatalog_ListAll c <-> exists k, JournalCatalog_Get k c = Some m) /\
  length (JournalCatalog_ListAll c) = size (items_ c) /\
  (keyed (items_ c) ->
   NoDup (id <$> JournalCatalog_ListAll c) /\
   forall m, m ∈ JournalCatalog_ListAll c <-> JournalCatalog_Get (id m) c = Some m).
Proof.
  split; [apply ListAll_elem_of|]. split; [apply ListAll_length|].
  intros Hkeyed. split; [apply keyed_NoDup; exact Hkeyed|].
  intros m. rewrite ListAll_elem_of. split.
  - intros (k & Hk). rewrite (Hkeyed k m Hk). exact Hk.
  - intros Hm. eauto.
Qed.

Lemma keyed_insert (items : gmap string SnapshotMeta) (m : SnapshotMeta) :
  keyed items -> keyed (<[id m := m]> items).
Proof.
  intros Hkeyed k m' Hlook. destruct (decide (id m = k)) as [<-|Hne].
  - rewrite lookup_insert_eq in Hlook. congruence.
  - rewrite lookup_insert_ne in Hlook by exact Hne. apply Hkeyed. exact Hlook.
Qed.

Lemma keyed_set_state (items : gmap string SnapshotMeta) (i : string) (m : SnapshotMeta)
    (st : SnapshotState) :
  keyed items -> items !! i = Some m -> keyed (<[i := set_state st m]> items).
Proof.
  intros Hkeyed Hm k m' Hlook. destruct (decide (i = k)) as [<-|Hne].
  - rewrite lookup_insert_eq in Hlook. injection Hlook as <-. simpl. apply Hkeyed. exact Hm.
  - rewrite lookup_insert_ne in Hlook by exact Hne. apply Hkeyed. exact Hlook.
Qed.

Lemma keyed_replay_line (items items' : gmap string SnapshotMeta) (line : string) :
  keyed items -> replay_line items line = Some items' -> keyed items'.
Proof.
  intros Hkeyed. unfold replay_line.
  destruct (starts_with "UPSERT " line).
  { destruct (Deserialize (substr_from 7 line)) as [m|]; [|discriminate].
    simpl. intros [= <-]. apply keyed_insert. exact Hkeyed. }
  destruct (starts_with "STATE " line); [|intros [= <-]; exact Hkeyed].
  destruct (parse_state_line line) as [i desired].
  destruct (items !! i) as [m|] eqn:Hm; [|intros [= <-]; exact Hkeyed].
  destruct desired as [d|]; [|discriminate].
  simpl. intros [= <-]. apply keyed_set_state; assumption.
Qed.

Lemma keyed_replay_lines (lines : list string) :
  forall items items', keyed items -> replay_lines items lines = Some items' -> keyed items'.
Proof.
  induction lines as [|l lines IH]; intros items items' Hkeyed; simpl.
  - intros [= <-]. exact Hkeyed.
  - destruct (replay_line items l) as [items1|] eqn:Hl; [|discriminate]. simpl.
    apply IH. eapply keyed_replay_line; eassumption.
Qed.

Lemma keyed_apply_op (c : JournalCatalog) (o : CatalogOp) :
  keyed (items_ c) -> keyed (items_ (apply_op c o)).
Proof.
  intros Hkeyed. destruct o as [m|i expected desired|e]; simpl.
  - apply keyed_insert. exact Hkeyed.
  - unfold JournalCatalog_TransitionState.
    destruct (items_ c !! i) as [m|] eqn:Hm; [|exact Hkeyed].
    destruct (decide (state m = expected)); [|exact Hkeyed].
    simpl. apply keyed_set_state; assumption.
  - exact Hkeyed.
Qed.

Lemma keyed_fold (ops : list CatalogOp) :
  forall c, keyed (items_ c) -> keyed (items_ (fold_left apply_op ops c)).
Proof.
  induction ops as [|o ops IH]; intros c Hkeyed; [exact Hkeyed|].
  simpl. apply IH, keyed_apply_op, Hkeyed.
Qed.

Lemma replay_lines_any_replay (lines : list string) :
  forall items items', replay_lines items lines = Some items' ->
                       replay_lines_any items lines items'.
Proof.
  induction lines as [|l lines IH]; intros items items'; simpl.
  - intros [= <-]. constructor.
  - destruct (replay_line items l) as [items1|] eqn:Hl; [|discriminate]. simpl.
    intros Hrest. econstructor; [left; exact Hl | apply IH, Hrest].
Qed.

Lemma keyed_replay_lines_any (lines : list string) items items' :
  replay_lines_any items lines items' -> keyed items -> keyed items'.
Proof.
  induction 1 as [|items l items1 ls items' Hline _ IH]; intros Hkeyed; [exact Hkeyed|].
  apply IH. destruct Hline as [Hline|(_ & _ & i & m & n & _ & Hm & ->)].
  - eapply keyed_replay_line; eassumption.
  - apply keyed_set_state; assumption.
Qed.

(** X9.  In a catalog that its constructor has built from a journal file,
    whatever the file holds, and after any sequence of [Upsert],
    [TransitionState] and [RecordEvent] on it, every record of the index is
    filed under its own id.  The catalogs the constructor builds are those of
    [open_JournalCatalog] and, for a file with a [STATE] line that leaves
    [desired] unwritten for an id of the index, those with any state in that
    record. *)
Theorem catalog_index_keyed_by_id
    (file : option string) (c : JournalCatalog) (ops : list CatalogOp) :
  (open_JournalCatalog file = Some c -> opens_as file c) /\
  (opens_as file c -> keyed (items_ (fold_left apply_op ops c))).
Proof.
  split.
  - intros Hopen. unfold open_JournalCatalog, Replay in Hopen.
    destruct file as [contents|].
    + destruct (replay_lines ∅ (getlines contents)) as [items|] eqn:Hreplay; [|discriminate].
      simpl in Hopen. injection Hopen as <-. split; [reflexivity|]. simpl.
      apply replay_lines_any_replay. exact Hreplay.
    + simpl in Hopen. injection Hopen as <-. split; reflexivity.
  - intros [_ Hopen]. apply keyed_fold.
    assert (Hempty : keyed (∅ : gmap string SnapshotMeta)).
    { intros k m Hlook. rewrite lookup_empty in Hlook. discriminate. }
    destruct file as [contents|].
    + eapply keyed_replay_lines_any; [exact Hopen | exact Hempty].
    + rewrite Hopen. exact Hempty.
Qed.

(** The records an operation appends to the journal. *)
Lemma apply_op_appends (c : JournalCatalog) (o : CatalogOp) :
  exists recs, (length recs <= 1)%nat /\
    default "" (journalFile (apply_op c o)) = default "" (journalFile c) +:+ file_of_lines recs /\
    (recs = [] -> journalFile (apply_op c o) = journalFile c).
Proof.
  destruct o as [m|i expected desired|e]; simpl.
  - exists ["UPSERT " +:+ Serialize m]. split; [simpl; lia|].
    split; [reflexivity | discriminate].
  - unfold JournalCatalog_TransitionState.
    destruct (items_ c !! i) as [m|].
    2:{ exists []. simpl. rewrite string_app_nil_r. repeat split; lia. }
    destruct (decide (state m = expected)).
    2:{ exists []. simpl. rewrite string_app_nil_r. repeat split; lia. }
    eexists [_]. split; [simpl; lia|]. split; [reflexivity | discriminate].
  - eexists [_]. split; [simpl; lia|]. split; [|discriminate].
    reflexivity.
Qed.

Lemma file_of_lines_app (l1 l2 : list string) :
  file_of_lines (l1 ++ l2) = file_of_lines l1 +:+ file_of_lines l2.
Proof.
  induction l1 as [|l l1 IH]; [reflexivity|].
  simpl. rewrite IH, string_app_assoc. reflexivity.
Qed.

(** X10.  The journal is only appended to.  After any sequence of
    operations the journal file is what it was, followed by the records the
    operations have appended, each with its newline: at most one record for
    each operation.  A journal file that exists is never removed. *)
Theorem journal_append_only (ops : list CatalogOp) (c : JournalCatalog) :
  (exists recs, (length recs <= length ops)%nat /\
     default "" (journalFile (fold_left apply_op ops c))
     = default "" (journalFile c) +:+ file_of_lines recs) /\
  (is_Some (journalFile c) -> is_Some (journalFile (fold_left apply_op ops c))).
Proof.
  revert c. induction ops as [|o ops IH]; intros c.
  - split; [|intros H; exact H]. exists []. simpl. rewrite string_app_nil_r. split; [lia|reflexivity].
  - simpl. destruct (IH (apply_op c o)) as [(recs & Hlen & Hfile) Hsome].
    destruct (apply_op_appends c o) as (rec1 & Hlen1 & Hfile1 & Hnone).
    split.
    + exists (rec1 ++ recs). split; [rewrite length_app; lia|].
      rewrite Hfile, Hfile1, file_of_lines_app, string_app_assoc. reflexivity.
    + intros Hc. apply Hsome. destruct rec1 as [|r rec1].
      * rewrite (Hnone eq_refl). exact Hc.
      * destruct (journalFile (apply_op c o)) as [f|] eqn:Hf; [eauto|].
        simpl in Hfile1. exfalso.
        destruct (default "" (journalFile c)); destruct r; discriminate.
Qed.
End CatalogOperations.

(** ** Journals that cannot be opened *)

Section TornJournal.
Context {period : ClockPeriod}.

Lemma getlines_from_last (l : string) :
  contains nl l = false ->
  forall cur, cur +:+ l <> "" -> getlines_from cur l = [cur +:+ l].
Proof.
  induction l as [|c l IH]; intros Hl cur Hne.
  - rewrite string_app_nil_r in *. simpl. destruct cur; [contradiction | reflexivity].
  - simpl in Hl. destruct (decide (c = nl)) as [|Hc]; [discriminate|].
    simpl. destruct (decide (c = nl)); [contradiction|].
    rewrite (IH Hl); rewrite string_app_assoc; [reflexivity | exact Hne].
Qed.

Lemma getlines_torn (ls : list string) (l : string) :
  Forall (fun l => contains nl l = false) ls -> contains nl l = false -> l <> "" ->
  getlines (file_of_lines ls +:+ l) = ls ++ [l].
Proof.
  intros Hls Hl Hne. unfold getlines. induction Hls as [|l' ls Hl' _ IH].
  - simpl. apply (getlines_from_last l Hl ""). exact Hne.
  - simpl. rewrite string_app_assoc, string_app_cons.
    rewrite (getlines_from_line l' Hl'). rewrite IH. reflexivity.
Qed.

Lemma replay_lines_bad (bad : string) (l1 l2 : list string) :
  (forall items, replay_line items bad = None) ->
  forall items, replay_lines items (l1 ++ bad :: l2) = None.
Proof.
  intros Hbad items. rewrite replay_lines_app.
  destruct (replay_lines items l1) as [items1|]; [|reflexivity].
  simpl. rewrite Hbad. reflexivity.
Qed.

Lemma replay_short_upsert (payload : string) (items : gmap string SnapshotMeta) :
  (count_char pipe payload < 9)%nat -> replay_line items ("UPSERT " +:+ payload) = None.
Proof.
  intros Hshort. unfold replay_line.
  change (starts_with "UPSERT " ("UPSERT " +:+ payload)) with true. cbv iota.
  change (substr_from 7 ("UPSERT " +:+ payload)) with payload.
  rewrite Deserialize_needs_ten; [reflexivity|].
  apply lookup_ge_None. rewrite (split_fields_length payload [] ""). simpl. lia.
Qed.

(** X11.  A journal with an [UPSERT] line of fewer than ten fields cannot
    be opened: [Replay] does not catch what [Deserialize] throws, and the
    constructor of the catalog throws whatever the other lines are.  This
    is so for a line in the middle of the journal, and for a last line that
    was cut short before its newline. *)
Theorem short_upsert_line_blocks_open (before after : list string) (payload : string) :
  Forall (fun l => contains nl l = false) before ->
  Forall (fun l => contains nl l = false) after ->
  contains nl payload = false ->
  (count_char pipe payload < 9)%nat ->
  open_JournalCatalog
    (Some (file_of_lines (before ++ ("UPSERT " +:+ payload) :: after))) = None /\
  open_JournalCatalog (Some (file_of_lines before +:+ "UPSERT " +:+ payload)) = None.
Proof.
  intros Hbefore Hafter Hpayload Hshort.
  assert (Hline : contains nl ("UPSERT " +:+ payload) = false).
  { rewrite contains_app, Hpayload. reflexivity. }
  unfold open_JournalCatalog, Replay. split.
  - rewrite getlines_file_of_lines.
    + rewrite replay_lines_bad; [reflexivity|].
      intros items. apply replay_short_upsert. exact Hshort.
    + apply Forall_app. split; [exact Hbefore|]. constructor; assumption.
  - rewrite (getlines_torn before ("UPSERT " +:+ payload) Hbefore Hline) by discriminate.
    rewrite (replay_lines_bad _ before []); [reflexivity|].
    intros items. apply replay_short_upsert. exact Hshort.
Qed.
End TornJournal.

(** ** The storage on the file system *)




(** ** The lock file *)

Lemma one_leader_step (p : LockPath) (c : LockCall) : one_leader p -> one_leader (lock_call p c).
Proof.
  intros [Hone Hfile]. destruct c as [k|k]; unfold lock_call, on_elector.
  - destruct (electors p !! k) as [a|] eqn:Hk; [|split; assumption].
    unfold FilesystemStorage_Exists, FileLockLeaderElector_TryAcquire. simpl.
    destruct (lock_file p) eqn:Hlock; simpl.
    + rewrite list_insert_id by exact Hk. split; [exact Hone|]. intros; reflexivity.
    + assert (Hnone : forall j, electors p !! j <> Some true).
      { intros j Hj. specialize (Hfile j Hj). congruence. }
      split; [|reflexivity].
      intros j1 j2 H1 H2. simpl in H1, H2.
      destruct (decide (k = j1)) as [<-|Hn1]; destruct (decide (k = j2)) as [<-|Hn2];
        try reflexivity.
      * rewrite list_lookup_insert_ne in H2 by exact Hn2. destruct (Hnone _ H2).
      * rewrite list_lookup_insert_ne in H1 by exact Hn1. destruct (Hnone _ H1).
      * rewrite list_lookup_insert_ne in H1 by exact Hn1. destruct (Hnone _ H1).
  - destruct (electors p !! k) as [a|] eqn:Hk; [|split; assumption].
    unfold FileLockLeaderElector_Release. simpl. destruct a; simpl.
    + assert (Hnone : forall j, j <> k -> electors p !! j <> Some true).
      { intros j Hj Hjt. apply Hj. apply Hone; assumption. }
      assert (Hafter : forall j, <[k := false]> (electors p) !! j <> Some true).
      { intros j. destruct (decide (k = j)) as [<-|Hne].
        - rewrite list_lookup_insert_eq by (eapply lookup_lt_Some; exact Hk). discriminate.
        - rewrite list_lookup_insert_ne by exact Hne. apply Hnone. congruence. }
      split; [intros j1 j2 H1 _; destruct (Hafter _ H1) | intros j Hj; destruct (Hafter _ Hj)].
    + rewrite list_insert_id by exact Hk. split; assumption.
Qed.

(** X14.  Electors on one lock path, in calls that do not overlap.  From a
    state in which at most one elector has acquired the lock, and the lock
    file exists if one has, every sequence of [TryAcquire] and [Release] by
    any of them leads to such a state: no two electors are leaders at the
    same time. *)
Theorem lock_file_one_leader (calls : list LockCall) (p : LockPath) :
  one_leader p -> one_leader (fold_left lock_call calls p).
Proof.
  revert p. induction calls as [|c calls IH]; intros p Hp; [exact Hp|].
  simpl. apply IH, one_leader_step, Hp.
Qed.

Lemma stale_lock_step (p : LockPath) (c : LockCall) :
  lock_file p = true -> Forall (fun a => a = false) (electors p) -> lock_call p c = p.
Proof.
  intros Hlock Hnone. destruct p as [file els]. simpl in *. subst file.
  assert (Hfalse : forall k a, els !! k = Some a -> a = false).
  { intros k a Hk. rewrite Forall_forall in Hnone. apply Hnone.
    eapply list_elem_of_lookup_2. exact Hk. }
  destruct c as [k|k]; unfold lock_call, on_elector; simpl;
    destruct (els !! k) as [a|] eqn:Hk; try reflexivity;
    pose proof (Hfalse k a Hk) as ->; simpl; rewrite list_insert_id by exact Hk; reflexivity.
Qed.

(** X15.  A lock file left behind blocks every elector.  When the lock file
    exists and no elector has acquired it (its holder has gone without
    [Release]), no sequence of [TryAcquire] and [Release] changes anything:
    every [TryAcquire] returns false, and no [Release] removes the file. *)
Theorem stale_lock_file_blocks (calls : list LockCall) (p : LockPath) :
  lock_file p = true -> Forall (fun a => a = false) (electors p) ->
  fold_left lock_call calls p = p /\
  forall a, (FileLockLeaderElector_TryAcquire
               {| lockFile := lock_file (fold_left lock_call calls p); acquired_ := a |}).1
            = false.
Proof.
  intros Hlock Hnone.
  assert (Hsame : fold_left lock_call calls p = p).
  { induction calls as [|c calls IH]; [reflexivity|].
    simpl. rewrite (stale_lock_step p c Hlock Hnone). exact IH. }
  split; [exact Hsame|].
  intros a. rewrite Hsame. unfold FileLockLeaderElector_TryAcquire. simpl.
  rewrite Hlock. reflexivity.
Qed.

(** ** Partial correctness *)

Section Returning.
Context {C S L K : Type}.
Implicit Types w : @World C S L K.

Lemma wp_returns (T : Prop) {A} (m : M A) (Q : A -> World -> Prop) w :
  wp T m Q w -> forall a w', m w = Some (a, w') -> Q a w'.
Proof. unfold wp. intros H a w' Heq. rewrite Heq in H. exact H. Qed.

Lemma returns_wp {A} (m : M A) (Q : A -> World -> Prop) w :
  (forall a w', m w = Some (a, w') -> Q a w') -> wp False m Q w.
Proof. unfold wp. intros H. destruct (m w) as [[a w']|]; [apply H; reflexivity | tauto]. Qed.

Lemma wp_conj (T T' : Prop) {A} (m : M A) (Q Q' : A -> World -> Prop) w :
  wp T m Q w -> wp T' m Q' w -> wp T m (fun a w' => Q a w' /\ Q' a w') w.
Proof. unfold wp. destruct (m w) as [[a w']|]; [split; assumption | tauto]. Qed.

(** A fold whose invariant knows the elements gone through and those to come. *)
Lemma wp_foldM_split (T : Prop) {A B} (f : B -> A -> M B) (I : list A -> B -> World -> Prop)
    (l : list A) :
  (forall pre a post b w, l = pre ++ a :: post -> I pre b w -> wp T (f b a) (I (pre ++ [a])) w) ->
  forall b w, I [] b w -> wp T (foldM f l b) (I l) w.
Proof.
  intros Hf.
  assert (Hgen : forall post pre b w, l = pre ++ post -> I pre b w ->
                                      wp T (foldM f post b) (I l) w).
  { induction post as [|a post IH]; intros pre b w Hl HI; simpl.
    - rewrite app_nil_r in Hl. subst pre. exact HI.
    - eapply wp_seq; [eapply Hf; [exact Hl | exact HI]|].
      intros b' w' HI'. apply (IH (pre ++ [a])); [|exact HI'].
      rewrite <- app_assoc. exact Hl. }
  intros b w HI. apply (Hgen l []); [reflexivity | exact HI].
Qed.
End Returning.

(** ** The loop over the batches *)

Section BatchLoop.
Context {C S L K : Type}.
Context {catalog : ISnapshotCatalog C} {storage : IStorageBackend S}.
Context {elector : ILeaderElector L} {tracker : ICorruptionTracker K}.
Context {period : ClockPeriod}.
Variable clock : nat -> TimePoint.
Variable opts : GCOptions.
Implicit Types w : @World C S L K.

Lemma process_batch_nil now g w : process_batch clock opts now [] g w = Some (g, w).
Proof. unfold process_batch. destruct (dryRun opts); reflexivity. Qed.

Lemma batches_stuck now eligible :
  batchDeleteSize opts = 0%nat ->
  forall fuel i g w, (i < length eligible)%nat ->
    batches clock opts fuel i now eligible g w = None.
Proof.
  intros Hzero. induction fuel as [|fuel IH]; intros i g w Hi; simpl.
  - destruct (Nat.ltb_spec i (length eligible)); [reflexivity | lia].
  - destruct (Nat.ltb_spec i (length eligible)); [|lia].
    rewrite Hzero. simpl. unfold bind. rewrite process_batch_nil.
    rewrite Nat.add_0_r. apply IH. exact Hi.
Qed.

(** X16.  The hard-delete stage returns exactly when [batchDeleteSize] is
    positive or no record is eligible.  With [batchDeleteSize = 0] and an
    eligible record the loop over the batches does not advance ([i += 0]) and
    the stage never returns. *)
Theorem HardDeleteEligible_returns_iff (g : GCMetrics) w :
  let eligible := eligible_records opts (clock (reads w)) (ListAll (catalog_ w)) in
  is_Some (HardDeleteEligible clock opts g w) <->
  (0 < batchDeleteSize opts)%nat \/ eligible = [].
Proof.
  intros eligible. split.
  - intros Hsome.
    destruct (Nat.eq_dec (batchDeleteSize opts) 0%nat) as [Hzero|Hpos]; [|left; lia].
    right. destruct eligible as [|s rest] eqn:Hel; [reflexivity|]. exfalso.
    unfold HardDeleteEligible, bind, Clock_now, catalog_ListAll in Hsome. simpl in Hsome.
    fold eligible in Hsome. rewrite Hel in Hsome.
    rewrite (batches_stuck _ (s :: rest) Hzero) in Hsome by (simpl; lia).
    destruct Hsome as [x Hx]. discriminate.
  - intros [Hpos|Hnil].
    + pose proof (HardDeleteEligible_calls clock opts g w) as Hwp. unfold wp in Hwp.
      destruct (HardDeleteEligible clock opts g w) as [[g' w']|]; [eauto | contradiction].
    + unfold HardDeleteEligible, bind, Clock_now, catalog_ListAll. simpl.
      fold eligible. rewrite Hnil. simpl. eauto.
Qed.
End BatchLoop.

(** ** The live set *)

Section LiveSet.
Context {C S L K : Type}.
Context {catalog : ISnapshotCatalog C}.
Context {period : ClockPeriod} {sorter : Sort}.
Variable clock : nat -> TimePoint.
Variable policy : RetentionPolicy.
Implicit Types w : @World C S L K.

Lemma MarkLiveWithParents_grows (fuel : nat) :
  forall s live w live' w',
    MarkLiveWithParents fuel s live w = Some (live', w') ->
    live ⊆ live' /\ id s ∈ live'.
Proof.
  induction fuel as [|fuel IH]; intros s live w live' w'; simpl; [discriminate|].
  destruct (decide (id s ∈ live)) as [Hin|Hin].
  { intros [= <- <-]. split; [reflexivity | exact Hin]. }
  assert (Hs : id s ∈ {[id s]} ∪ live) by (apply elem_of_union; left; apply elem_of_singleton; reflexivity).
  assert (Hsub : live ⊆ {[id s]} ∪ live) by (intros x Hx; apply elem_of_union; right; exact Hx).
  destruct (parentId s) as [parent|]; [|intros [= <- <-]; split; assumption].
  unfold bind, catalog_Get.
  destruct (Get parent (catalog_ w)) as [p'|]; [|intros [= <- <-]; split; assumption].
  intros Hrun. destruct (IH _ _ _ _ _ Hrun) as [Hsub' _].
  split; [etrans; eassumption | apply Hsub', Hs].
Qed.

Lemma mark_grows s live w live' w' :
  mark s live w = Some (live', w') -> live ⊆ live' /\ id s ∈ live'.
Proof. unfold mark, bind, mark_fuel. apply MarkLiveWithParents_grows. Qed.

Lemma wp_mark_grows s live w :
  wp False (mark s live) (fun live' _ => live ⊆ live' /\ id s ∈ live') w.
Proof. apply returns_wp. intros live' w'. apply mark_grows. Qed.

(** The live set holds the first [keepLastN] records of the sorted listing
    and the anchored records of the listing. *)
Lemma wp_ComputeLiveSet_anchors all w :
  wp False (ComputeLiveSet clock policy all)
     (fun live _ =>
        (forall s, s ∈ firstn (keepLastN policy) (sort_newest_first all) -> id s ∈ live) /\
        (forall s, s ∈ all -> anchored policy (clock (reads w)) s -> id s ∈ live)) w.
Proof.
  unfold ComputeLiveSet. apply wp_bind. unfold wp at 1. simpl.
  set (cutoff := clock (reads w) - hours (maxAge policy)).
  set (newest := firstn (keepLastN policy) (sort_newest_first all)).
  eapply (wp_seq False (fun live _ => forall s, s ∈ newest -> id s ∈ live)).
  - refine (wp_foldM_prefix False _ (fun pre live _ => forall s, s ∈ pre -> id s ∈ live)
              _ newest [] ∅ _ _).
    + intros pre a live w1 Hpre. eapply wp_mono; [|apply wp_mark_grows].
      intros live' _ [Hsub Ha] s Hs. apply elem_of_app in Hs as [Hs|Hs].
      * apply Hsub, Hpre, Hs.
      * apply list_elem_of_singleton in Hs as ->. exact Ha.
    + intros s Hs. inversion Hs.
  - intros live0 w1 Hnewest.
    eapply wp_mono;
      [|refine (wp_foldM_prefix False _
                  (fun pre live _ =>
                     (forall s, s ∈ newest -> id s ∈ live) /\
                     (forall s, s ∈ pre -> anchored policy (clock (reads w)) s -> id s ∈ live))
                  _ all [] live0 w1 _)].
    + intros live w2 H. exact H.
    + intros pre a live w2 [Hn Hpre].
      assert (Hkeep : forall live', live ⊆ live' ->
                 (forall s, s ∈ newest -> id s ∈ live') /\
                 (forall s, s ∈ pre -> anchored policy (clock (reads w)) s -> id s ∈ live')).
      { intros live' Hsub. split; [intros s Hs; apply Hsub, Hn, Hs|].
        intros s Hs Ha. apply Hsub, Hpre; assumption. }
      destruct (decide (state a = Deleted)) as [Hdel|Hdel].
      { destruct (Hkeep live ltac:(reflexivity)) as [H1 H2]. split; [exact H1|].
        intros s Hs Ha. apply elem_of_app in Hs as [Hs|Hs]; [apply H2; assumption|].
        apply list_elem_of_singleton in Hs as ->. destruct Ha as [Ha _]. contradiction. }
      eapply (wp_seq False (fun live1 _ => live ⊆ live1 /\ (cutoff <= created a -> id a ∈ live1))).
      { destruct (Z.leb_spec cutoff (created a)).
        - eapply wp_mono; [|apply wp_mark_grows]. intros live1 _ [Hsub Ha]. split; [exact Hsub | auto].
        - split; [reflexivity | lia]. }
      intros live1 w3 [Hsub1 Hc1].
      eapply (wp_seq False (fun live2 _ => live1 ⊆ live2 /\ (0 < leaseCount a -> id a ∈ live2))).
      { destruct (Z.ltb_spec 0 (leaseCount a)).
        - eapply wp_mono; [|apply wp_mark_grows]. intros live2 _ [Hsub Ha]. split; [exact Hsub | auto].
        - split; [reflexivity | lia]. }
      intros live2 w4 [Hsub2 Hc2].
      eapply (wp_mono False _ (fun live3 _ => live2 ⊆ live3 /\ (has_pin_tag a = true -> id a ∈ live3))).
      2:{ destruct (has_pin_tag a).
          - eapply wp_mono; [|apply wp_mark_grows]. intros live3 _ [Hsub Ha]. split; [exact Hsub | auto].
          - split; [reflexivity | discriminate]. }
      intros live3 w5 [Hsub3 Hc3].
      destruct (Hkeep live3 ltac:(etrans; [exact Hsub1|]; etrans; eassumption)) as [H1 H2].
      split; [exact H1|].
      intros s Hs Ha. apply elem_of_app in Hs as [Hs|Hs]; [apply H2; assumption|].
      apply list_elem_of_singleton in Hs as ->.
      destruct Ha as [_ [Hc|[Hc|Hc]]].
      * apply Hsub3, Hsub2, Hc1, Hc.
      * apply Hsub3, Hc2, Hc.
      * apply Hc3, Hc.
    + split; [exact Hnewest|]. intros s Hs. inversion Hs.
Qed.
End LiveSet.

Section LiveSetJournal.
Context {S L K : Type}.
Context {period : ClockPeriod} {order : Traversal} {sorter : Sort}.
Variable clock : nat -> TimePoint.
Variable policy : RetentionPolicy.
Implicit Types w : @World JournalCatalog S L K.

Lemma MarkLiveWithParents_closed (fuel : nat) :
  forall s live w live' w',
    keyed (items_ (catalog_ w)) ->
    items_ (catalog_ w) !! id s = Some s ->
    MarkLiveWithParents fuel s live w = Some (live', w') ->
    catalog_ w' = catalog_ w /\ storage_ w' = storage_ w /\
    (forall k m p,
       items_ (catalog_ w) !! k = Some m -> k ∈ live' -> k ∉ live ->
       parentId m = Some p -> is_Some (items_ (catalog_ w) !! p) -> p ∈ live') /\
    (forall k, k ∈ live' -> k ∈ live \/ is_Some (items_ (catalog_ w) !! k)).
Proof.
  induction fuel as [|fuel IH]; intros s live w live' w' Hkeyed Hs; simpl; [discriminate|].
  destruct (decide (id s ∈ live)) as [Hin|Hin].
  { intros [= <- <-]. repeat split; [intros; contradiction | auto]. }
  assert (Hnew : forall k, k ∈ {[id s]} ∪ live -> k ∉ live -> k = id s).
  { intros k Hk Hnk. apply elem_of_union in Hk as [Hk|Hk]; [|contradiction].
    apply elem_of_singleton in Hk. exact Hk. }
  assert (Hdom : forall k, k ∈ {[id s]} ∪ live -> k ∈ live \/ is_Some (items_ (catalog_ w) !! k)).
  { intros k Hk. destruct (decide (k ∈ live)) as [|Hnk]; [left; assumption|].
    right. rewrite (Hnew k Hk Hnk), Hs. eauto. }
  destruct (parentId s) as [parent|] eqn:Hparent.
  2:{ intros [= <- <-]. repeat split; [|exact Hdom].
      intros k m p Hm Hk Hnk Hp _. rewrite (Hnew k Hk Hnk), Hs in Hm. congruence. }
  unfold bind, catalog_Get. simpl. unfold JournalCatalog_Get.
  destruct (items_ (catalog_ w) !! parent) as [p'|] eqn:Hget.
  2:{ intros [= <- <-]. repeat split; [|exact Hdom].
      intros k m p Hm Hk Hnk Hp [x Hx]. rewrite (Hnew k Hk Hnk), Hs in Hm.
      assert (p = parent) by congruence. subst p. congruence. }
  intros Hrun.
  assert (Hid : id p' = parent) by (apply Hkeyed; exact Hget).
  destruct (IH p' ({[id s]} ∪ live) (log (CallGet parent) w) live' w' Hkeyed
              ltac:(simpl; rewrite Hid; exact Hget) Hrun)
    as (Hcat & Hst & Hclosed & Hdom').
  simpl in *.
  destruct (MarkLiveWithParents_grows fuel _ _ _ _ _ Hrun) as [Hsub Hp'].
  split; [exact Hcat|]. split; [exact Hst|]. split.
  - intros k m p Hm Hk Hnk Hp Hsome.
    destruct (decide (k ∈ {[id s]} ∪ live)) as [Hk1|Hk1].
    + rewrite (Hnew k Hk1 Hnk), Hs in Hm.
      assert (p = parent) by congruence. subst p. rewrite <- Hid. exact Hp'.
    + eapply Hclosed; eassumption.
  - intros k Hk. destruct (Hdom' k Hk) as [Hk1|Hk1]; [apply Hdom, Hk1 | right; exact Hk1].
Qed.

(** What [ComputeLiveSet] keeps up: the catalog and the storage are those of
    the start, the live set is closed under parents and holds ids of the
    index only. *)
Local Abbreviation live_inv w0 :=
  (fun (live : gset string) (w' : @World JournalCatalog S L K) =>
     catalog_ w' = catalog_ w0 /\ storage_ w' = storage_ w0 /\
     parents_closed (items_ (catalog_ w0)) live /\
     (forall k, k ∈ live -> is_Some (items_ (catalog_ w0) !! k))).

Lemma wp_mark_closed w0 s live w :
  keyed (items_ (catalog_ w0)) ->
  items_ (catalog_ w0) !! id s = Some s ->
  live_inv w0 live w ->
  wp False (mark s live) (live_inv w0) w.
Proof.
  intros Hkeyed Hs (Hcat & Hst & Hclosed & Hdom). apply returns_wp.
  intros live' w' Hrun. unfold mark, bind, mark_fuel in Hrun.
  destruct (MarkLiveWithParents_grows _ _ _ _ _ _ Hrun) as [Hsub _].
  apply MarkLiveWithParents_closed in Hrun as (Hcat' & Hst' & Hnew & Hdom');
    rewrite ?Hcat in *; try assumption.
  split; [congruence|]. split; [congruence|]. split.
  - intros k m p Hm Hk Hp Hsome.
    destruct (decide (k ∈ live)) as [Hold|Hold].
    + apply Hsub. eapply Hclosed; eassumption.
    + eapply Hnew; eassumption.
  - intros k Hk. destruct (Hdom' k Hk) as [Hk1|Hk1]; [apply Hdom, Hk1 | exact Hk1].
Qed.

Lemma wp_ComputeLiveSet_closed all w :
  keyed (items_ (catalog_ w)) ->
  (forall s, s ∈ all -> items_ (catalog_ w) !! id s = Some s) ->
  wp False (ComputeLiveSet clock policy all) (live_inv w) w.
Proof.
  intros Hkeyed Hall. unfold ComputeLiveSet. apply wp_bind. unfold wp at 1. simpl.
  assert (Hstart : live_inv w ∅
            {| catalog_ := catalog_ w; storage_ := storage_ w; leader_ := leader_ w;
               corruption_ := corruption_ w; reads := Datatypes.S (reads w);
               calls := calls w |}).
  { repeat split; [intros k m p _ Hk; inversion Hk | intros k Hk; inversion Hk]. }
  eapply wp_seq.
  - apply (wp_foldM False _ (live_inv w)); [|exact Hstart].
    intros live s w1 Hs H1. apply wp_mark_closed; [exact Hkeyed | | exact H1].
    apply Hall. apply subseteq_take in Hs. rewrite sort_permutes in Hs. exact Hs.
  - intros live0 w1 H0.
    apply (wp_foldM False _ (live_inv w)); [|exact H0].
    intros live s w2 Hs H2.
    destruct (decide (state s = Deleted)); [exact H2|].
    eapply wp_seq.
    { destruct (_ <=? _); [apply wp_mark_closed; [exact Hkeyed | apply Hall, Hs | exact H2]
                          | exact H2]. }
    intros live1 w3 H3. eapply wp_seq.
    { destruct (_ <? _); [apply wp_mark_closed; [exact Hkeyed | apply Hall, Hs | exact H3]
                         | exact H3]. }
    intros live2 w4 H4.
    destruct (has_pin_tag s); [apply wp_mark_closed; [exact Hkeyed | apply Hall, Hs | exact H4]
                              | exact H4].
Qed.

(** X17.  The live set of a pass over a journal catalog whose records are
    filed under their ids.  [ComputeLiveSet] returns, having changed neither
    the catalog nor the storage.  The set it returns holds the ids of the
    first [keepLastN] records of the listing sorted by [created], newest
    first, and the id of every record that is not Deleted and is created at
    or after the cutoff ([now - maxAge]), leased, or tagged pin, retain or
    legal.  It is closed under parents: with a record of the index it holds
    the parent of the record, when the index has the parent.  And it holds
    ids of the index only. *)
Theorem ComputeLiveSet_live_set w :
  keyed (items_ (catalog_ w)) ->
  let all := ListAll (catalog_ w) in
  exists live w',
    ComputeLiveSet clock policy all w = Some (live, w') /\
    catalog_ w' = catalog_ w /\ storage_ w' = storage_ w /\
    (forall s, s ∈ firstn (keepLastN policy) (sort_newest_first all) -> id s ∈ live) /\
    (forall s, s ∈ all -> anchored policy (clock (reads w)) s -> id s ∈ live) /\
    parents_closed (items_ (catalog_ w)) live /\
    (forall k, k ∈ live -> is_Some (items_ (catalog_ w) !! k)).
Proof.
  intros Hkeyed all.
  assert (Hall : forall s, s ∈ all -> items_ (catalog_ w) !! id s = Some s).
  { intros s Hs. apply (ListAll_elem_of (catalog_ w)) in Hs as (k & Hk).
    unfold JournalCatalog_Get in Hk. rewrite (Hkeyed k s Hk). exact Hk. }
  pose proof (wp_ComputeLiveSet clock policy True (fun _ => True) w (fun _ => I) all w
                (call_inv_refl _ _ w (conj eq_refl eq_refl))) as Hret.
  pose proof (wp_ComputeLiveSet_anchors clock policy all w) as Hanchors.
  pose proof (wp_ComputeLiveSet_closed all w Hkeyed Hall) as Hclosed.
  unfold wp in Hret, Hanchors, Hclosed.
  destruct (ComputeLiveSet clock policy all w) as [[live w']|]; [|exfalso; apply Hret; exact I].
  exists live, w'. split; [reflexivity|].
  destruct Hclosed as (Hcat & Hst & Hcl & Hdom). destruct Hanchors as [Hnewest Hanch].
  repeat split; assumption.
Qed.
End LiveSetJournal.

(** ** The tombstone stage *)

Section TombstoneStage.
Context {S L K : Type}.
Context {storage : IStorageBackend S}.
Context {elector : ILeaderElector L} {tracker : ICorruptionTracker K}.
Context {period : ClockPeriod} {order : Traversal}.
Variable clock : nat -> TimePoint.
Variable opts : GCOptions.
Variable live : gset string.
Variable t : TimePoint.
Variable w0 : @World JournalCatalog S L K.
Variable g0 : GCMetrics.
Implicit Types w : @World JournalCatalog S L K.

(** The index after the candidates of [pre] have been tombstoned. *)
Local Abbreviation tombstoned_index pre :=
  (fun (g : GCMetrics) w =>
     (forall k m, items_ (catalog_ w0) !! k = Some m ->
        items_ (catalog_ w) !! k
        = Some (if tombstone_candidate live m && bool_decide (k ∈ id <$> pre)
                then tombstoned_at t m else m)) /\
     (forall k, items_ (catalog_ w0) !! k = None -> items_ (catalog_ w) !! k = None) /\
     tombstoned g
     = Nat.add (tombstoned g0)
               (length (filter (fun s => tombstone_candidate live s = true) pre)) /\
     storage_ w = storage_ w0).

Lemma tombstoned_index_skip pre a g w :
  items_ (catalog_ w0) !! id a = Some a ->
  tombstone_candidate live a = false ->
  tombstoned_index pre g w -> tombstoned_index (pre ++ [a]) g w.
Proof.
  intros Ha Hcand (Hitems & Hnone & Hcount & Hst).
  split; [|split; [exact Hnone|split; [|exact Hst]]].
  - intros k m Hm. rewrite (Hitems k m Hm).
    destruct (tombstone_candidate live m) eqn:Hm'; [|reflexivity]. simpl.
    assert (Hne : k <> id a) by (intros ->; congruence).
    f_equal. rewrite fmap_app. simpl.
    rewrite (bool_decide_ext (k ∈ (id <$> pre) ++ [id a]) (k ∈ id <$> pre)); [reflexivity|].
    rewrite elem_of_app, list_elem_of_singleton. tauto.
  - rewrite filter_app, filter_cons_False by congruence. rewrite filter_nil, app_nil_r.
    exact Hcount.
Qed.

Lemma tombstoned_index_metrics pre g g' w :
  tombstoned g' = tombstoned g ->
  tombstoned_index pre g w -> tombstoned_index pre g' w.
Proof. intros Heq (H1 & H2 & H3 & H4). rewrite <- Heq in H3. repeat split; assumption. Qed.

Lemma tombstoned_index_world pre g w w' :
  items_ (catalog_ w') = items_ (catalog_ w) -> storage_ w' = storage_ w ->
  tombstoned_index pre g w -> tombstoned_index pre g w'.
Proof. intros Hi Hs (H1 & H2 & H3 & H4). rewrite Hi, Hs. repeat split; assumption. Qed.

Hypothesis Hdry : dryRun opts = false.
Hypothesis Hkeyed : keyed (items_ (catalog_ w0)).

Lemma wp_tombstone_candidate now pre a post g w :
  t = now + hours (gracePeriod opts) ->
  NoDup (id <$> pre ++ a :: post) ->
  items_ (catalog_ w0) !! id a = Some a ->
  tombstone_candidate live a = true ->
  tombstoned_index pre g w ->
  wp True
     (bind (catalog_TransitionState (id a) Active Tombstoned) (fun ok =>
        if ok then
          bind (catalog_Get (id a)) (fun cur =>
            match cur with
            | Some m =>
                bind (catalog_Upsert
                        (set_lastError ""
                           (set_nextRetryAfter None
                              (set_hardDeleteAfter (Some (now + hours (gracePeriod opts))) m))))
                  (fun _ =>
                     bind (catalog_RecordEvent
                             {| when := now; snapshotId := id a; type := "TOMBSTONE";
                                details := "Soft-deleted; hardDeleteAfter set" |})
                       (fun _ => ret (incr_tombstoned g)))
            | None => ret g
            end)
        else ret g))
     (tombstoned_index (pre ++ [a])) w.
Proof.
  intros Ht Hnodup Ha Hcand (Hitems & Hnone & Hcount & Hst).
  assert (Hfresh : id a ∉ id <$> pre).
  { rewrite fmap_app, fmap_cons in Hnodup. apply NoDup_app in Hnodup as (_ & Hdisj & _).
    intros Hin. apply (Hdisj _ Hin). left. }
  assert (Hcur : items_ (catalog_ w) !! id a = Some a).
  { rewrite (Hitems _ _ Ha), (bool_decide_eq_false_2 _ Hfresh), andb_false_r. reflexivity. }
  assert (Hact : state a = Active).
  { unfold tombstone_candidate in Hcand. rewrite !andb_true_iff in Hcand.
    destruct Hcand as [[Hact _] _]. apply bool_decide_eq_true in Hact. exact Hact. }
  unfold wp, bind, catalog_TransitionState, catalog_Get, catalog_Upsert, catalog_RecordEvent.
  cbn [TransitionState Get Upsert RecordEvent JournalCatalog_catalog].
  unfold JournalCatalog_TransitionState. rewrite Hcur, decide_True by exact Hact.
  unfold JournalCatalog_Get, JournalCatalog_Upsert, JournalCatalog_RecordEvent, Append,
    log, with_catalog, ret.
  cbn [catalog_ storage_ items_ journalFile leader_ corruption_ reads calls].
  rewrite lookup_insert_eq.
  cbn [catalog_ storage_ items_ journalFile leader_ corruption_ reads calls].
  rewrite <- Ht.
  change (set_lastError "" (set_nextRetryAfter None (set_hardDeleteAfter (Some t)
            (set_state Tombstoned a)))) with (tombstoned_at t a).
  change (id (tombstoned_at t a)) with (id a).
  split; [|split; [|split; [|exact Hst]]].
  - intros k m Hm. destruct (decide (k = id a)) as [->|Hne].
    + rewrite lookup_insert_eq. assert (m = a) by congruence. subst m.
      rewrite Hcand. simpl. rewrite bool_decide_eq_true_2; [reflexivity|].
      rewrite fmap_app. apply elem_of_app. right. left.
    + rewrite !lookup_insert_ne by congruence. rewrite (Hitems k m Hm).
      rewrite fmap_app. simpl.
      rewrite (bool_decide_ext (k ∈ (id <$> pre) ++ [id a]) (k ∈ id <$> pre)); [reflexivity|].
      rewrite elem_of_app, list_elem_of_singleton. tauto.
  - intros k Hk. rewrite !lookup_insert_ne by congruence. apply Hnone, Hk.
  - simpl. rewrite Hcount, filter_app, filter_cons_True by exact Hcand.
    rewrite filter_nil, length_app. simpl. lia.
Qed.

Lemma wp_TombstoneCandidates_index all g w :
  NoDup (id <$> all) ->
  (forall s, s ∈ all -> items_ (catalog_ w0) !! id s = Some s) ->
  t = clock (reads w) + hours (gracePeriod opts) ->
  tombstoned_index [] g w ->
  wp True (TombstoneCandidates clock opts all live g) (tombstoned_index all) w.
Proof.
  intros Hnodup Hall Ht Hinv. unfold TombstoneCandidates.
  apply wp_bind. unfold wp at 1. cbn [Clock_now].
  eapply wp_seq.
  - apply (wp_foldM_split True _ (fun pre => tombstoned_index pre) all).
    + intros pre a post g1 w1 Hsplit H1.
      assert (Ha : items_ (catalog_ w0) !! id a = Some a).
      { apply Hall. rewrite Hsplit. apply elem_of_app. right. left. }
      destruct (tombstone_candidate live a) eqn:Hcand.
      * unfold tombstone_candidate in Hcand. rewrite !andb_true_iff, !negb_true_iff in Hcand.
        destruct Hcand as [[Hact Hlive] Hlease].
        rewrite Hact, Hlive, Hlease, Hdry. cbn [negb].
        apply (wp_tombstone_candidate (clock (reads w)) pre a post);
          [exact Ht | rewrite <- Hsplit; exact Hnodup | exact Ha | | exact H1].
        unfold tombstone_candidate. rewrite Hact, Hlive, Hlease. reflexivity.
      * assert (Hskip : tombstoned_index (pre ++ [a]) g1 w1).
        { apply tombstoned_index_skip; assumption. }
        unfold tombstone_candidate in Hcand.
        destruct (bool_decide (state a = Active)); [|exact Hskip].
        destruct (bool_decide (id a ∈ live)); [exact Hskip|].
        destruct (0 <? leaseCount a); [exact Hskip | discriminate].
    + eapply tombstoned_index_world; [| |exact Hinv]; reflexivity.
  - intros g1 w1 H1.
    apply (wp_foldM True _ (tombstoned_index all)); [|exact H1].
    intros g2 s w2 _ H2.
    destruct (negb _); [exact H2|].
    destruct (bool_decide _); [exact H2|].
    destruct (_ <? _); [|exact H2].
    unfold wp, bind, Clock_now, catalog_RecordEvent.
    cbn [RecordEvent JournalCatalog_catalog].
    destruct (_ <=? _); cbn [ret].
    + eapply tombstoned_index_metrics; [|eapply tombstoned_index_world; [| |exact H2]];
        reflexivity.
    + eapply tombstoned_index_world; [| |exact H2]; reflexivity.
Qed.
End TombstoneStage.

(** X18.  The tombstone stage on a journal catalog whose records are filed
    under their ids, the listing being the one of the catalog, outside of a
    dry run.  The stage returns.  A record is a candidate when it is Active,
    its id is not in the live set and it has no lease.  After the stage every
    candidate is Tombstoned, with [hardDeleteAfter] at the clock reading of
    the stage plus [gracePeriod], without retry time and with an empty
    [lastError]; every other record is as it was, and the index has the same
    ids.  [tombstoned] has grown by the number of candidates, and the storage
    is as it was. *)
Theorem TombstoneCandidates_tombstones
    {S L K : Type} {storage : IStorageBackend S}
    {elector : ILeaderElector L} {tracker : ICorruptionTracker K}
    {period : ClockPeriod} {order : Traversal}
    (clock : nat -> TimePoint) (opts : GCOptions) (live : gset string) (g : GCMetrics)
    (w : @World JournalCatalog S L K) :
  dryRun opts = false ->
  keyed (items_ (catalog_ w)) ->
  let all := ListAll (catalog_ w) in
  let t := clock (reads w) + hours (gracePeriod opts) in
  exists g' w',
    TombstoneCandidates clock opts all live g w = Some (g', w') /\
    (forall k, items_ (catalog_ w') !! k
               = (fun m => if tombstone_candidate live m then tombstoned_at t m else m)
                   <$> items_ (catalog_ w) !! k) /\
    tombstoned g'
    = Nat.add (tombstoned g) (length (filter (fun s => tombstone_candidate live s = true) all)) /\
    storage_ w' = storage_ w.
Proof.
  intros Hdry Hkeyed all t.
  assert (Hall : forall s, s ∈ all -> items_ (catalog_ w) !! id s = Some s).
  { intros s Hs. apply (ListAll_elem_of (catalog_ w)) in Hs as (k & Hk).
    unfold JournalCatalog_Get in Hk. rewrite (Hkeyed k s Hk). exact Hk. }
  assert (Hstart : (forall k m, items_ (catalog_ w) !! k = Some m ->
                      items_ (catalog_ w) !! k
                      = Some (if tombstone_candidate live m && bool_decide (k ∈ id <$> [])
                              then tombstoned_at t m else m)) /\
                   (forall k, items_ (catalog_ w) !! k = None -> items_ (catalog_ w) !! k = None) /\
                   tombstoned g
                   = Nat.add (tombstoned g)
                       (length (filter (fun s => tombstone_candidate live s = true) [])) /\
                   storage_ w = storage_ w).
  { split; [|split; [auto|split; [simpl; lia | reflexivity]]].
    intros k m Hm. rewrite Hm, andb_false_r. reflexivity. }
  pose proof (wp_TombstoneCandidates_index clock opts live t w g Hdry all g w
                (keyed_NoDup (catalog_ w) Hkeyed) Hall eq_refl Hstart) as Hwp.
  unfold wp in Hwp.
  destruct (TombstoneCandidates clock opts all live g w) as [[g' w']|]; [|exfalso; apply Hwp; exact I].
  exists g', w'. split; [reflexivity|].
  destruct Hwp as (Hitems & Hnone & Hcount & Hst).
  split; [|split; assumption].
  intros k. destruct (items_ (catalog_ w) !! k) as [m|] eqn:Hm; simpl.
  - rewrite (Hitems k m Hm). rewrite bool_decide_eq_true_2, andb_true_r; [reflexivity|].
    apply list_elem_of_fmap. exists m. split; [symmetry; apply Hkeyed; exact Hm|].
    apply (ListAll_elem_of (catalog_ w)). exists k. exact Hm.
  - apply Hnone, Hm.
Qed.

(** ** The calls of the stages *)

Section StageCalls.
Context {C S L K : Type}.
Context {catalog : ISnapshotCatalog C} {storage : IStorageBackend S}.
Context {elector : ILeaderElector L} {tracker : ICorruptionTracker K}.
Context {period : ClockPeriod} {sorter : Sort}.
Variable clock : nat -> TimePoint.
Implicit Types w : @World C S L K.

Section StagePrimitives.
Variable T : Prop.
Variable P : Call -> Prop.
Variable J : S -> Prop.
Variable w0 : @World C S L K.

Lemma stage_inv_refl w : J (storage_ w) -> stage_inv P J w w.
Proof. intros HJ. split; [reflexivity|]. split; [exact HJ|]. exists []. split; [reflexivity | constructor]. Qed.

Lemma stage_inv_step w w' :
  stage_inv P J w0 w -> leader_ w' = leader_ w -> storage_ w' = storage_ w ->
  calls w' = calls w -> stage_inv P J w0 w'.
Proof.
  intros (Hl & HJ & new & Hc & HP) Hl' Hs' Hc'.
  split; [congruence|]. split; [rewrite Hs'; exact HJ|].
  exists new. rewrite Hc'. split; assumption.
Qed.

Lemma stage_inv_log w w' c :
  stage_inv P J w0 w -> P c -> leader_ w' = leader_ w -> J (storage_ w') ->
  calls w' = c :: calls w -> stage_inv P J w0 w'.
Proof.
  intros (Hl & _ & new & Hc & HP) Hc' Hl' HJ Heq.
  split; [congruence|]. split; [exact HJ|].
  exists (c :: new). rewrite Heq, Hc. split; [reflexivity | constructor; assumption].
Qed.

Lemma wp_stage_now w :
  stage_inv P J w0 w -> wp T (Clock_now clock) (fun _ w' => stage_inv P J w0 w') w.
Proof. intros H. eapply stage_inv_step; [exact H | reflexivity..]. Qed.

Lemma wp_stage_ListAll w :
  P CallListAll -> stage_inv P J w0 w ->
  wp T catalog_ListAll (fun _ w' => stage_inv P J w0 w') w.
Proof. intros HP H. eapply stage_inv_log; [exact H | exact HP | reflexivity | apply H | reflexivity]. Qed.

Lemma wp_stage_Get i w :
  P (CallGet i) -> stage_inv P J w0 w ->
  wp T (catalog_Get i) (fun _ w' => stage_inv P J w0 w') w.
Proof. intros HP H. eapply stage_inv_log; [exact H | exact HP | reflexivity | apply H | reflexivity]. Qed.

Lemma wp_stage_TransitionState i e d w :
  (forall ok, P (CallTransitionState i e d ok)) -> stage_inv P J w0 w ->
  wp T (catalog_TransitionState i e d) (fun _ w' => stage_inv P J w0 w') w.
Proof.
  intros HP H. unfold wp, catalog_TransitionState.
  destruct (TransitionState i e d (catalog_ w)) as [ok c].
  eapply stage_inv_log; [exact H | apply HP | reflexivity | apply H | reflexivity].
Qed.

Lemma wp_stage_Upsert m w :
  P (CallUpsert m) -> stage_inv P J w0 w ->
  wp T (catalog_Upsert m) (fun _ w' => stage_inv P J w0 w') w.
Proof.
  intros HP H. unfold wp, catalog_Upsert.
  destruct (Upsert m (catalog_ w)) as [ok c].
  eapply stage_inv_log; [exact H | apply HP | reflexivity | apply H | reflexivity].
Qed.

Lemma wp_stage_RecordEvent e w :
  P (CallRecordEvent e) -> stage_inv P J w0 w ->
  wp T (catalog_RecordEvent e) (fun _ w' => stage_inv P J w0 w') w.
Proof. intros HP H. eapply stage_inv_log; [exact H | exact HP | reflexivity | apply H | reflexivity]. Qed.

Lemma wp_stage_Forget i w :
  P (CallForgetCorruptionForSnapshot i) -> stage_inv P J w0 w ->
  wp T (corruption_Forget i) (fun _ w' => stage_inv P J w0 w') w.
Proof.
  intros HP H. unfold wp, corruption_Forget. destruct (corruption_ w) as [k|].
  - eapply stage_inv_log; [exact H | exact HP | reflexivity | apply H | reflexivity].
  - exact H.
Qed.

Lemma wp_stage_Delete ids failed err w :
  P (CallDeleteSnapshotPayloadBatch ids) -> (forall s, J s) -> stage_inv P J w0 w ->
  wp T (storage_DeleteSnapshotPayloadBatch ids failed err)
     (fun _ w' => stage_inv P J w0 w') w.
Proof.
  intros HP HJ H. unfold wp, storage_DeleteSnapshotPayloadBatch.
  destruct (DeleteSnapshotPayloadBatch ids failed err (storage_ w)) as [[[ok fl] er] s].
  eapply stage_inv_log; [exact H | exact HP | reflexivity | apply HJ | reflexivity].
Qed.
End StagePrimitives.

(** *** The live set *)

Section LiveSetCalls.
Variable policy : RetentionPolicy.
Variable w0 : @World C S L K.
Variable rd : nat.

(** [ComputeLiveSet] reads the catalog and the clock only. *)
Local Abbreviation inv :=
  (fun w : @World C S L K =>
     catalog_ w = catalog_ w0 /\ storage_ w = storage_ w0 /\ leader_ w = leader_ w0 /\
     reads w = rd /\
     exists gets, calls w = gets ++ calls w0 /\ Forall live_set_call gets).

Lemma live_set_inv_Get i w : inv w -> inv (log (CallGet i) w).
Proof.
  intros (Hc & Hs & Hl & Hr & gets & Hcalls & Hgets). repeat split; try assumption.
  exists (CallGet i :: gets). simpl. rewrite Hcalls. split; [reflexivity|].
  constructor; [exact I | exact Hgets].
Qed.

Lemma wp_MarkLiveWithParents_calls (fuel : nat) :
  forall s live w, inv w -> wp False (MarkLiveWithParents fuel s live) (fun _ w' => inv w') w.
Proof.
  induction fuel as [|fuel IH]; intros s live w Hinv; simpl; [unfold wp, diverge; tauto|].
  destruct (decide (id s ∈ live)); [exact Hinv|].
  destruct (parentId s) as [parent|]; [|exact Hinv].
  apply wp_bind. unfold wp at 1, catalog_Get.
  destruct (Get parent (catalog_ w)) as [p'|]; [apply IH|]; apply live_set_inv_Get, Hinv.
Qed.

Lemma wp_mark_calls s live w :
  inv w -> wp False (mark s live) (fun _ w' => inv w') w.
Proof.
  intros Hinv. unfold mark. apply wp_bind. unfold wp at 1, mark_fuel.
  apply wp_MarkLiveWithParents_calls. exact Hinv.
Qed.

Lemma wp_ComputeLiveSet_calls all w :
  catalog_ w = catalog_ w0 -> storage_ w = storage_ w0 -> leader_ w = leader_ w0 ->
  calls w = calls w0 -> Datatypes.S (reads w) = rd ->
  wp False (ComputeLiveSet clock policy all) (fun _ w' => inv w') w.
Proof.
  intros Hc Hs Hl Hcalls Hr. unfold ComputeLiveSet.
  apply wp_bind. unfold wp at 1. cbn [Clock_now].
  eapply wp_seq.
  - apply (wp_foldM False _ (fun _ w' => inv w')).
    + intros live s w2 _ H2. apply wp_mark_calls. exact H2.
    + repeat split; try assumption. exists []. split; [exact Hcalls | constructor].
  - intros live w2 H2.
    apply (wp_foldM False _ (fun _ w' => inv w')); [|exact H2].
    intros live' s w3 _ H3.
    destruct (decide (state s = Deleted)); [exact H3|].
    eapply (wp_seq False (fun _ w' => inv w')).
    { destruct (_ <=? _); [apply wp_mark_calls; exact H3 | exact H3]. }
    intros live1 w4 H4.
    eapply (wp_seq False (fun _ w' => inv w')).
    { destruct (_ <? _); [apply wp_mark_calls; exact H4 | exact H4]. }
    intros live2 w5 H5.
    destruct (has_pin_tag s); [apply wp_mark_calls; exact H5 | exact H5].
Qed.
End LiveSetCalls.

(** *** The tombstone stage *)

Ltac metrics :=
  unfold tombstone_metrics, hard_delete_metrics in *;
  rewrite ?length_app in *; simpl in *; lia.

Section TombstoneCalls.
Variable opts : GCOptions.
Variable all : list SnapshotMeta.
Variable live : gset string.
Variable J : S -> Prop.
Variable w0 : @World C S L K.

Local Abbreviation cand :=
  (fun i => exists s, s ∈ all /\ id s = i /\ state s = Active /\ (id s ∉ live) /\
                      leaseCount s <= 0).

Lemma wp_TombstoneCandidates_calls (T : Prop) g w :
  let t := clock (reads w) + hours (gracePeriod opts) in
  stage_inv (tombstone_call (dryRun opts) cand t) J w0 w ->
  wp T (TombstoneCandidates clock opts all live g)
     (fun g' w' => stage_inv (tombstone_call (dryRun opts) cand t) J w0 w' /\
                   tombstone_metrics (length all) (length all) g g') w.
Proof.
  intros t Hinv. unfold TombstoneCandidates.
  apply wp_bind. unfold wp at 1. cbn [Clock_now]. fold t.
  set (P := tombstone_call (dryRun opts) cand t).
  assert (Hstart : stage_inv P J w0
                     {| catalog_ := catalog_ w; storage_ := storage_ w; leader_ := leader_ w;
                        corruption_ := corruption_ w; reads := Datatypes.S (reads w);
                        calls := calls w |}).
  { eapply stage_inv_step; [exact Hinv | reflexivity..]. }
  eapply wp_seq.
  - apply (wp_foldM_split T _
             (fun pre g' w' => stage_inv P J w0 w' /\ tombstone_metrics (length pre) 0 g g') all).
    2:{ split; [exact Hstart | metrics]. }
    intros pre s post g1 w1 Hsplit [H1 Hg1].
    assert (Hs : s ∈ all) by (rewrite Hsplit; apply elem_of_app; right; left).
    assert (Hskip : tombstone_metrics (length (pre ++ [s])) 0 g g1) by metrics.
    destruct (bool_decide_reflect (state s = Active)) as [Hact|Hact]; [|split; assumption].
    cbn [negb].
    destruct (bool_decide_reflect (id s ∈ live)) as [Hlive|Hlive]; [split; assumption|].
    destruct (Z.ltb_spec 0 (leaseCount s)) as [Hlease|Hlease]; [split; assumption|].
    assert (Hcand : cand (id s)) by (exists s; repeat split; assumption).
    destruct (dryRun opts) eqn:Hdry.
    { eapply wp_seq.
      - apply (wp_stage_RecordEvent T P J w0); [|exact H1].
        unfold P. rewrite ?Hdry. right. split; [exact Hcand | reflexivity].
      - intros u1 w2 H2. split; assumption. }
    eapply wp_seq.
    { apply (wp_stage_TransitionState T P J w0); [|exact H1].
      intros ok. unfold P. rewrite ?Hdry. repeat split. exact Hcand. }
    intros ok w2 H2. destruct ok; [|split; assumption].
    eapply wp_seq.
    { apply (wp_stage_Get T P J w0); [|exact H2].
      unfold P. rewrite ?Hdry. split; [reflexivity | exact Hcand]. }
    intros [m|] w3 H3; [|split; assumption].
    eapply wp_seq.
    { apply (wp_stage_Upsert T P J w0); [|exact H3].
      unfold P. rewrite ?Hdry. repeat split. }
    intros u2 w4 H4.
    eapply wp_seq.
    { apply (wp_stage_RecordEvent T P J w0); [|exact H4].
      unfold P. rewrite ?Hdry. right. split; [exact Hcand | reflexivity]. }
    intros u3 w5 H5. split; [exact H5 | metrics].
  - intros g1 w1 [H1 Hg1].
    apply (wp_foldM_split T _
             (fun pre g' w' => stage_inv P J w0 w' /\
                               tombstone_metrics (length all) (length pre) g g') all).
    2:{ split; [exact H1 | metrics]. }
    intros pre s post g2 w2 _ [H2 Hg2].
    assert (Hskip : tombstone_metrics (length all) (length (pre ++ [s])) g g2) by metrics.
    destruct (negb _); [split; assumption|].
    destruct (bool_decide _); [split; assumption|].
    destruct (_ <? _); [|split; assumption].
    eapply wp_seq; [apply (wp_stage_now T P J w0); exact H2|].
    intros t1 w3 H3.
    destruct (_ <=? _); [|split; assumption].
    eapply wp_seq; [apply (wp_stage_now T P J w0); exact H3|].
    intros t2 w4 H4.
    eapply wp_seq.
    { apply (wp_stage_RecordEvent T P J w0); [|exact H4]. left. reflexivity. }
    intros u1 w5 H5. split; [exact H5 | metrics].
Qed.
End TombstoneCalls.

(** *** The hard-delete stage *)

Section HardDeleteCalls.
Variable opts : GCOptions.
Variable dry : bool.
Variable w0 : @World C S L K.
Variable g0 : GCMetrics.
Hypothesis Hdry : dryRun opts = dry.

Local Abbreviation P := (hard_delete_call dry).
Local Abbreviation JT := (fun _ : S => True).
Local Abbreviation hinv n :=
  (fun (g : GCMetrics) (w : @World C S L K) =>
     stage_inv P JT w0 w /\ hard_delete_metrics n g0 g).

Lemma wp_finalize_shape (T : Prop) ok failed err n g i w :
  dry = false -> hinv n g w ->
  wp T (finalize clock opts ok failed err g i) (hinv (Datatypes.S n)) w.
Proof.
  intros Hfalse [Hinv Hg]. unfold finalize.
  assert (Htrans : forall d ok', d = Deleted \/ d = Quarantined \/ d = Tombstoned ->
                                 P (CallTransitionState i Deleting d ok')).
  { intros d ok' Hd. simpl. split; [exact Hfalse|]. right. split; [reflexivity | exact Hd]. }
  assert (Hevent : forall e, type e = "DELETE_OK" \/ type e = "QUARANTINE" \/ type e = "DELETE_FAIL" ->
                             P (CallRecordEvent e)).
  { intros e He. simpl. rewrite Hfalse. exact He. }
  eapply wp_seq; [apply (wp_stage_Get T P JT w0); [exact Hfalse | exact Hinv]|].
  intros [m|] w1 H1; [|split; [exact H1 | metrics]].
  destruct (negb _).
  - eapply wp_seq; [apply (wp_stage_TransitionState T P JT w0); [intros; apply Htrans; auto | exact H1]|].
    intros u1 w2 H2.
    eapply wp_seq; [apply (wp_stage_now T P JT w0); exact H2|].
    intros t w3 H3.
    eapply wp_seq; [apply (wp_stage_RecordEvent T P JT w0); [apply Hevent; auto | exact H3]|].
    intros u2 w4 H4.
    eapply wp_seq; [apply (wp_stage_Forget T P JT w0); [exact Hfalse | exact H4]|].
    intros u3 w5 H5. split; [exact H5 | metrics].
  - eapply wp_seq; [apply (wp_stage_now T P JT w0); exact H1|].
    intros t w2 H2.
    eapply (wp_seq T (hinv (Datatypes.S n))).
    + destruct (_ <=? _).
      * eapply wp_seq;
          [apply (wp_stage_TransitionState T P JT w0); [intros; apply Htrans; auto | exact H2]|].
        intros u1 w3 H3.
        eapply wp_seq; [apply (wp_stage_now T P JT w0); exact H3|].
        intros t' w4 H4.
        eapply wp_seq; [apply (wp_stage_RecordEvent T P JT w0); [apply Hevent; auto | exact H4]|].
        intros u2 w5 H5. split; [exact H5 | metrics].
      * eapply wp_seq;
          [apply (wp_stage_TransitionState T P JT w0); [intros; apply Htrans; auto | exact H2]|].
        intros u1 w3 H3.
        eapply wp_seq; [apply (wp_stage_now T P JT w0); exact H3|].
        intros t' w4 H4.
        eapply wp_seq; [apply (wp_stage_RecordEvent T P JT w0); [apply Hevent; auto | exact H4]|].
        intros u2 w5 H5. split; [exact H5 | metrics].
    + intros g' w3 [H3 Hg'].
      eapply wp_seq; [apply (wp_stage_Upsert T P JT w0); [exact Hfalse | exact H3]|].
      intros u1 w4 H4. split; [exact H4 | exact Hg'].
Qed.

Lemma wp_process_batch_shape (T : Prop) now batchIds n g w :
  hinv n g w ->
  wp T (process_batch clock opts now batchIds g) (hinv (n + length batchIds)) w.
Proof.
  intros [Hinv Hg]. unfold process_batch. rewrite Hdry. destruct dry eqn:Hd.
  - eapply wp_seq.
    + apply (wp_foldM T _ (fun _ w' => stage_inv (hard_delete_call true) JT w0 w')); [|exact Hinv].
      intros [] i w1 _ H1.
      apply (wp_stage_RecordEvent T (hard_delete_call true) JT w0); [|exact H1]. reflexivity.
    + intros u1 w1 H1. split; [exact H1 | metrics].
  - eapply wp_seq.
    + refine (wp_foldM_prefix T _
                (fun pre dl w' => stage_inv (hard_delete_call false) JT w0 w' /\
                                  (length dl <= length pre)%nat)
                _ batchIds [] [] w _); [|split; [exact Hinv | reflexivity]].
      intros pre i dl w1 [H1 Hlen].
      eapply wp_seq.
      * apply (wp_stage_TransitionState T (hard_delete_call false) JT w0); [|exact H1].
        intros ok. simpl. split; [reflexivity|]. left. split; reflexivity.
      * intros ok w2 H2. split; [exact H2|].
        rewrite length_app. simpl. destruct ok; [rewrite length_app; simpl|]; lia.
    + intros dl w1 [H1 Hlen]. simpl in Hlen.
      destruct dl as [|i dl]; [split; [exact H1 | metrics]|]. cbn [is_empty_list].
      eapply wp_seq.
      * apply (wp_stage_Delete T (hard_delete_call false) JT w0); [|intros; exact I|exact H1].
        simpl. split; [reflexivity | discriminate].
      * intros [[ok failed] err] w2 H2.
        eapply wp_mono;
          [|refine (wp_foldM_prefix T _
                      (fun pre g' w' => stage_inv (hard_delete_call false) JT w0 w' /\
                                        hard_delete_metrics (n + length pre) g0 g')
                      _ (i :: dl) [] g w2 _)].
        -- intros g' w3 [H3 Hg']. split; [exact H3 | metrics].
        -- intros pre j g' w3 [H3 Hg'].
           pose proof (wp_finalize_shape T ok failed err (n + length pre) g' j w3 Hd) as Hfin.
           rewrite Hd in Hfin. eapply wp_mono; [|apply Hfin; split; assumption].
           intros g'' w4 [H4 Hg'']. split; [exact H4 | metrics].
        -- split; [exact H2 | metrics].
Qed.

Lemma wp_batches_shape now eligible :
  forall fuel i g w,
    ((0 < batchDeleteSize opts)%nat -> (length eligible - i <= fuel)%nat) ->
    hinv (i `min` length eligible) g w ->
    wp (0 < batchDeleteSize opts)%nat (batches clock opts fuel i now eligible g)
       (hinv (length eligible)) w.
Proof.
  induction fuel as [|fuel IH]; intros i g w Hfuel [Hinv Hg]; simpl.
  - destruct (Nat.ltb_spec i (length eligible)).
    + intros HT. specialize (Hfuel HT). lia.
    + split; [exact Hinv | metrics].
  - destruct (Nat.ltb_spec i (length eligible)).
    2:{ split; [exact Hinv | metrics]. }
    eapply wp_seq.
    + apply wp_process_batch_shape. split; [exact Hinv | exact Hg].
    + intros g' w1 [H1 Hg']. apply IH.
      * intros HT. specialize (Hfuel HT). lia.
      * split; [exact H1|].
        rewrite length_fmap, length_take, length_drop in Hg'. metrics.
Qed.

Lemma wp_HardDeleteEligible_shape g w :
  g = g0 -> stage_inv P JT w0 w ->
  wp (0 < batchDeleteSize opts)%nat (HardDeleteEligible clock opts g)
     (hinv (maxDeletesPerRun opts)) w.
Proof.
  intros -> Hinv. unfold HardDeleteEligible.
  apply wp_bind. unfold wp at 1. cbn [Clock_now].
  apply wp_bind. unfold wp at 1, catalog_ListAll.
  set (eligible := eligible_records opts _ _).
  eapply wp_mono; [|apply (wp_batches_shape _ eligible)].
  - intros g' w' [H' Hg']. split; [exact H'|].
    pose proof (proj1 (eligible_records_spec opts (clock (reads w)) (ListAll (catalog_ w))))
      as Hlen.
    change (length eligible <= maxDeletesPerRun opts)%nat in Hlen.
    clearbody eligible. metrics.
  - intros _. lia.
  - split; [|metrics].
    assert (H1 : stage_inv P JT w0
                   {| catalog_ := catalog_ w; storage_ := storage_ w; leader_ := leader_ w;
                      corruption_ := corruption_ w; reads := Datatypes.S (reads w);
                      calls := calls w |}).
    { eapply stage_inv_step; [exact Hinv | reflexivity..]. }
    eapply (stage_inv_log P JT w0 _ _ CallListAll); [exact H1|exact I|reflexivity|exact I|reflexivity].
Qed.
End HardDeleteCalls.
End StageCalls.

(** ** The phases of a pass *)

Lemma tombstone_call_mono (dry : bool) (cand cand' : string -> Prop) (t : TimePoint) (c : Call) :
  (forall i, cand i -> cand' i) -> tombstone_call dry cand t c -> tombstone_call dry cand' t c.
Proof.
  intros Hsub. destruct c; simpl; try tauto.
  - intros [H1 H2]. auto.
  - intros (H1 & H2 & H3 & H4). auto.
  - intros [H|[H1 H2]]; [left; exact H | right; auto].
Qed.

Section Pass.
Context {C S L K : Type}.
Context {catalog : ISnapshotCatalog C} {storage : IStorageBackend S}.
Context {elector : ILeaderElector L} {tracker : ICorruptionTracker K}.
Context {period : ClockPeriod} {sorter : Sort}.
Variable clock : nat -> TimePoint.
Variable policy : RetentionPolicy.
Variable opts : GCOptions.
Implicit Types w : @World C S L K.

Lemma leader_refuses_spec w refused w1 :
  leader_refuses w = Some (refused, w1) ->
  catalog_ w1 = catalog_ w /\ storage_ w1 = storage_ w /\ reads w1 = reads w /\
  match leader_ w with
  | None => refused = false /\ leader_ w1 = None /\ calls w1 = calls w
  | Some l =>
      refused = negb (TryAcquire l).1 /\ leader_ w1 = Some (TryAcquire l).2 /\
      calls w1 = CallTryAcquire (TryAcquire l).1 :: calls w
  end.
Proof.
  unfold leader_refuses. destruct (leader_ w) as [l|] eqn:Hl.
  - destruct (TryAcquire l) as [ok l']. intros [= <- <-]. simpl. repeat split.
  - intros [= <- <-]. repeat split. exact Hl.
Qed.

Lemma leader_Release_spec w u w1 :
  leader_Release w = Some (u, w1) ->
  storage_ w1 = storage_ w /\ leader_ w1 = Release <$> leader_ w /\
  calls w1 = release_calls (leader_ w) ++ calls w.
Proof.
  unfold leader_Release. destruct (leader_ w) as [l|] eqn:Hl.
  - intros [= <- <-]. simpl. repeat split.
  - intros [= <- <-]. rewrite Hl. repeat split.
Qed.

(** The outcome of a pass: refused by the elector, or the listing, the
    live set, the two stages and the release, in this order. *)
Lemma RunOnce_phases w g w' :
  RunOnce clock policy opts w = Some (g, w') ->
  let all := ListAll (catalog_ w) in
  let now := clock (reads w) in
  let t := clock (Datatypes.S (reads w)) + hours (gracePeriod opts) in
  (exists l, leader_ w = Some l /\ (TryAcquire l).1 = false /\ g = zero_metrics /\
             calls w' = CallTryAcquire false :: calls w /\ storage_ w' = storage_ w) \/
  ((forall l, leader_ w = Some l -> (TryAcquire l).1 = true) /\
   leader_ w' = (fun l => Release (TryAcquire l).2) <$> leader_ w /\
   exists gets tomb hard g1,
     calls w' = release_calls (leader_ w) ++ hard ++ tomb ++ gets ++
                CallListAll :: acquire_calls (leader_ w) ++ calls w /\
     Forall live_set_call gets /\
     Forall (tombstone_call (dryRun opts) (unprotected policy now all) t) tomb /\
     Forall (hard_delete_call (dryRun opts)) hard /\
     (enableTombstoneStage opts = false -> tomb = []) /\
     (enableHardDeleteStage opts = false -> hard = [] /\ storage_ w' = storage_ w) /\
     tombstone_metrics (length all) (length all) (set_scanned (length all) zero_metrics) g1 /\
     hard_delete_metrics (maxDeletesPerRun opts) g1 g).
Proof.
  intros Hrun all now t. unfold RunOnce, bind in Hrun.
  destruct (leader_refuses w) as [[refused w1]|] eqn:Hlead; [|discriminate].
  apply leader_refuses_spec in Hlead as (Hc1 & Hs1 & Hr1 & Hl1).
  destruct refused.
  { left. injection Hrun as <- <-.
    destruct (leader_ w) as [l|]; [|destruct Hl1; discriminate].
    destruct Hl1 as (Hneg & Hlw & Hcalls). exists l.
    destruct (TryAcquire l).1; [discriminate|]. repeat split; assumption. }
  right.
  unfold catalog_ListAll in Hrun. rewrite Hc1 in Hrun. fold all in Hrun.
  set (w2 := log CallListAll w1) in Hrun.
  destruct (ComputeLiveSet clock policy all w2) as [[live w3]|] eqn:Hlive; [|discriminate].
  pose proof (wp_returns _ _ _ _
                (wp_ComputeLiveSet_calls clock policy w2 (Datatypes.S (reads w2)) all w2
                   eq_refl eq_refl eq_refl eq_refl eq_refl) _ _ Hlive)
    as (Hc3 & Hs3 & Hl3 & Hr3 & gets & Hcalls3 & Hgets).
  pose proof (wp_returns _ _ _ _ (wp_ComputeLiveSet_anchors clock policy all w2) _ _ Hlive)
    as [Hnewest Hanch].
  change (reads w2) with (reads w1) in Hr3, Hanch. rewrite Hr1 in Hr3, Hanch.
  set (g0 := set_scanned (length all) zero_metrics) in Hrun.
  (* the tombstone stage *)
  remember (if enableTombstoneStage opts
            then TombstoneCandidates clock opts all live g0 else ret g0) as tomb_stage eqn:Htomb.
  destruct (tomb_stage w3) as [[g1 w4]|] eqn:Hrun4; [|discriminate].
  assert (Hstage4 :
            stage_inv (tombstone_call (dryRun opts) (unprotected policy now all) t)
                      (fun s => s = storage_ w3) w3 w4 /\
            tombstone_metrics (length all) (length all) g0 g1 /\
            (enableTombstoneStage opts = false -> calls w4 = calls w3)).
  { subst tomb_stage. destruct (enableTombstoneStage opts).
    - pose proof (wp_returns _ _ _ _
                    (wp_TombstoneCandidates_calls clock opts all live (fun s => s = storage_ w3)
                       w3 True g0 w3 (stage_inv_refl _ _ w3 eq_refl)) _ _ Hrun4) as [Hinv Hm].
      split; [|split; [exact Hm | discriminate]].
      destruct Hinv as (Hl4 & Hs4 & new & Hcalls4 & Hnew).
      split; [exact Hl4|]. split; [exact Hs4|]. exists new. split; [exact Hcalls4|].
      eapply Forall_impl; [exact Hnew|]. intros c Hc. rewrite Hr3 in Hc.
      eapply tombstone_call_mono; [|exact Hc].
      intros i (s & Hs & Hid & Hact & Hlive' & Hlease).
      exists s. repeat split; try assumption.
      + intros Ha. apply Hlive', Hanch; assumption.
      + intros Hn. apply Hlive', Hnewest, Hn.
    - injection Hrun4 as <- <-. split; [apply stage_inv_refl; reflexivity|].
      split; [|reflexivity]. unfold tombstone_metrics. repeat split; lia. }
  destruct Hstage4 as ((Hl4 & Hs4 & tomb & Hcalls4 & Htomb4) & Hm4 & Htomb_off).
  (* the hard-delete stage *)
  remember (if enableHardDeleteStage opts
            then HardDeleteEligible clock opts g1 else ret g1) as hard_stage eqn:Hhard.
  destruct (hard_stage w4) as [[g2 w5]|] eqn:Hrun5; [|discriminate].
  assert (Hstage5 :
            stage_inv (hard_delete_call (dryRun opts)) (fun _ => True) w4 w5 /\
            hard_delete_metrics (maxDeletesPerRun opts) g1 g2 /\
            (enableHardDeleteStage opts = false -> w5 = w4)).
  { subst hard_stage. destruct (enableHardDeleteStage opts).
    - pose proof (wp_returns _ _ _ _
                    (wp_HardDeleteEligible_shape clock opts (dryRun opts) w4 g1 eq_refl g1 w4
                       eq_refl (stage_inv_refl _ _ w4 I)) _ _ Hrun5) as [Hinv Hm].
      split; [exact Hinv|]. split; [exact Hm | discriminate].
    - injection Hrun5 as <- <-. split; [apply stage_inv_refl; exact I|].
      split; [|reflexivity]. unfold hard_delete_metrics. repeat split; lia. }
  destruct Hstage5 as ((Hl5 & _ & hard & Hcalls5 & Hhard5) & Hm5 & Hhard_off).
  (* the release *)
  destruct (leader_Release w5) as [[u w6]|] eqn:Hrel; [|discriminate].
  injection Hrun as <- <-.
  apply leader_Release_spec in Hrel as (Hs6 & Hl6 & Hcalls6).
  assert (Hleader5 : leader_ w5 = leader_ w1) by (rewrite Hl5, Hl4, Hl3; reflexivity).
  assert (Hacq : (forall l, leader_ w = Some l -> (TryAcquire l).1 = true) /\
                 leader_ w1 = (fun l => (TryAcquire l).2) <$> leader_ w /\
                 calls w1 = acquire_calls (leader_ w) ++ calls w).
  { destruct (leader_ w) as [l|].
    - destruct Hl1 as (Hneg & Hlw & Hcalls). destruct (TryAcquire l).1 eqn:Hok; [|discriminate].
      split; [intros l0 [= <-]; exact Hok|]. split; assumption.
    - destruct Hl1 as (_ & Hlw & Hcalls). split; [intros l0 Hl0; discriminate|].
      split; assumption. }
  destruct Hacq as (Hok & Hlw1 & Hcalls1).
  split; [exact Hok|]. split.
  { rewrite Hl6, Hleader5, Hlw1. destruct (leader_ w); reflexivity. }
  exists gets, tomb, hard, g1. split.
  { rewrite Hcalls6, Hcalls5, Hcalls4, Hcalls3. unfold w2. simpl. rewrite Hcalls1.
    rewrite Hleader5, Hlw1.
    replace (release_calls ((fun l => (TryAcquire l).2) <$> leader_ w))
      with (release_calls (leader_ w)) by (destruct (leader_ w); reflexivity).
    rewrite <- ?app_assoc. reflexivity. }
  split; [exact Hgets|]. split; [exact Htomb4|]. split; [exact Hhard5|]. split.
  { intros Hoff. specialize (Htomb_off Hoff). rewrite Hcalls4 in Htomb_off.
    destruct tomb as [|c tomb]; [reflexivity|]. exfalso.
    apply (f_equal length) in Htomb_off. rewrite length_app in Htomb_off. simpl in Htomb_off. lia. }
  split; [|split; [exact Hm4 | exact Hm5]].
  intros Hoff. specialize (Hhard_off Hoff). subst w5. split.
  - destruct hard as [|c hard]; [reflexivity|]. exfalso.
    apply (f_equal length) in Hcalls5. rewrite length_app in Hcalls5. simpl in Hcalls5. lia.
  - rewrite Hs6, Hs4, Hs3. unfold w2. simpl. exact Hs1.
Qed.
End Pass.

Lemma stage_call_not_leader (c : Call) :
  live_set_call c \/ (exists dry cand t, tombstone_call dry cand t c) \/
  (exists dry, hard_delete_call dry c) \/ c = CallListAll ->
  ~ leader_call c.
Proof.
  intros [H|[(dry & cand & t & H)|[(dry & H)|H]]] Hl; destruct c; simpl in *;
    try contradiction; discriminate.
Qed.

Section PassProperties.
Context {S L K : Type}.
Context {storage : IStorageBackend S}.
Context {elector : ILeaderElector L} {tracker : ICorruptionTracker K}.
Context {period : ClockPeriod} {order : Traversal} {sorter : Sort}.
Variable clock : nat -> TimePoint.
Variable policy : RetentionPolicy.
Variable opts : GCOptions.
Implicit Types w : @World JournalCatalog S L K.

(** X19.  A pass that acquires leadership releases it.  When [TryAcquire]
    returns true and the pass returns (it does for a positive
    [batchDeleteSize]), the first call of the pass is that [TryAcquire], its
    last call is [Release], it makes no other call on the elector, and the
    elector is left as [Release] leaves it after the acquisition. *)
Theorem RunOnce_acquires_and_releases w (l : L) :
  leader_ w = Some l -> (TryAcquire l).1 = true ->
  (0 < batchDeleteSize opts)%nat ->
  exists g w' mid,
    RunOnce clock policy opts w = Some (g, w') /\
    leader_ w' = Some (Release (TryAcquire l).2) /\
    calls w' = CallRelease :: mid ++ CallTryAcquire true :: calls w /\
    Forall (fun c => ~ leader_call c) mid.
Proof.
  intros Hl Hok Hpos.
  destruct (RunOnce_returns clock policy opts w Hpos) as [[g w'] Hrun].
  exists g, w'.
  destruct (RunOnce_phases clock policy opts w g w' Hrun)
    as [(l0 & Hl0 & Hno & _)|(_ & Hleader & gets & tomb & hard & g1 & Hcalls & Hg & Ht & Hh & _)].
  { congruence. }
  rewrite Hl in Hleader, Hcalls. simpl in Hleader, Hcalls.
  exists (hard ++ tomb ++ gets ++ [CallListAll]).
  split; [exact Hrun|]. split; [exact Hleader|]. split.
  { rewrite Hcalls. rewrite <- !app_assoc. reflexivity. }
  rewrite !Forall_app. repeat split.
  - eapply Forall_impl; [exact Hh|]. intros c Hc. apply stage_call_not_leader. eauto 6.
  - eapply Forall_impl; [exact Ht|]. intros c Hc. apply stage_call_not_leader. eauto 8.
  - eapply Forall_impl; [exact Hg|]. intros c Hc. apply stage_call_not_leader. eauto.
  - repeat constructor. intros H. exact H.
Qed.

(** X20.  A pass tombstones unprotected records only.  Every transition
    from Active that a pass asks of the catalog is a transition to
    Tombstoned, outside of a dry run, of a record of the listing taken at the
    start of the pass that is Active and has no lease, that is not anchored
    (created at or after the cutoff, leased, or tagged pin, retain or legal)
    and that is not among the [keepLastN] newest of the listing. *)
Theorem RunOnce_tombstones_unprotected_only w :
  ((0 < batchDeleteSize opts)%nat -> is_Some (RunOnce clock policy opts w)) /\
  forall g w', RunOnce clock policy opts w = Some (g, w') ->
    exists new, calls w' = new ++ calls w /\
      forall i d ok, CallTransitionState i Active d ok ∈ new ->
        d = Tombstoned /\ dryRun opts = false /\ enableTombstoneStage opts = true /\
        unprotected policy (clock (reads w)) (ListAll (catalog_ w)) i.
Proof.
  split; [apply RunOnce_returns|].
  intros g w' Hrun.
  destruct (RunOnce_phases clock policy opts w g w' Hrun)
    as [(l0 & Hl0 & Hno & _ & Hcalls & _)
       |(_ & _ & gets & tomb & hard & g1 & Hcalls & Hg & Ht & Hh & Htoff & _)].
  { exists [CallTryAcquire false]. split; [exact Hcalls|].
    intros i d ok Hin. apply list_elem_of_singleton in Hin. discriminate. }
  exists (release_calls (leader_ w) ++ hard ++ tomb ++ gets ++
          CallListAll :: acquire_calls (leader_ w)).
  split; [rewrite Hcalls, <- ?app_assoc; reflexivity|].
  intros i d ok Hin.
  rewrite !elem_of_app, elem_of_cons in Hin.
  destruct Hin as [Hin|[Hin|[Hin|[Hin|[Hin|Hin]]]]].
  - destruct (leader_ w); simpl in Hin; [|inversion Hin].
    apply list_elem_of_singleton in Hin. discriminate.
  - rewrite Forall_forall in Hh. specialize (Hh _ Hin). simpl in Hh.
    destruct Hh as [_ [[He _]|[He _]]]; discriminate.
  - rewrite Forall_forall in Ht. specialize (Ht _ Hin). simpl in Ht.
    destruct Ht as (Hdry & _ & Hd & Hun). repeat split; try assumption.
    destruct (enableTombstoneStage opts); [reflexivity|].
    rewrite (Htoff eq_refl) in Hin. inversion Hin.
  - rewrite Forall_forall in Hg. specialize (Hg _ Hin). destruct Hg.
  - discriminate.
  - destruct (leader_ w); simpl in Hin; [|inversion Hin].
    apply list_elem_of_singleton in Hin. discriminate.
Qed.

(** X21.  The order of a pass.  A pass that the elector refuses makes that
    one call and leaves the storage as it was.  Every other pass makes, in
    this order: the acquisition (with an elector), [ListAll], the [Get]s of
    the live set, the calls of the tombstone stage, the calls of the
    hard-delete stage, the release (with an elector).  The tombstone stage
    asks for transitions from Active to Tombstoned only, the hard-delete
    stage for transitions from Tombstoned to Deleting and from Deleting to
    Deleted, Quarantined or Tombstoned only, and for no deletion of an empty
    batch; the events are those of the stage.  A disabled stage makes no
    call; with the hard-delete stage disabled the storage is left as it
    was. *)
Theorem RunOnce_stage_order w :
  ((0 < batchDeleteSize opts)%nat -> is_Some (RunOnce clock policy opts w)) /\
  forall g w', RunOnce clock policy opts w = Some (g, w') ->
    (exists l, leader_ w = Some l /\ (TryAcquire l).1 = false /\
               calls w' = CallTryAcquire false :: calls w /\ storage_ w' = storage_ w) \/
    (forall l, leader_ w = Some l -> (TryAcquire l).1 = true) /\
    exists gets tomb hard,
      calls w' = release_calls (leader_ w) ++ hard ++ tomb ++ gets ++
                 CallListAll :: acquire_calls (leader_ w) ++ calls w /\
      Forall live_set_call gets /\
      Forall (tombstone_call (dryRun opts)
                (unprotected policy (clock (reads w)) (ListAll (catalog_ w)))
                (clock (Datatypes.S (reads w)) + hours (gracePeriod opts))) tomb /\
      Forall (hard_delete_call (dryRun opts)) hard /\
      (enableTombstoneStage opts = false -> tomb = []) /\
      (enableHardDeleteStage opts = false -> hard = [] /\ storage_ w' = storage_ w).
Proof.
  split; [apply RunOnce_returns|].
  intros g w' Hrun.
  destruct (RunOnce_phases clock policy opts w g w' Hrun)
    as [(l0 & Hl0 & Hno & _ & Hcalls & Hst)
       |(Hacq & _ & gets & tomb & hard & g1 & Hcalls & Hg & Ht & Hh & Htoff & Hhoff & _)].
  { left. exists l0. repeat split; assumption. }
  right. split; [exact Hacq|].
  exists gets, tomb, hard. repeat split; try assumption; apply Hhoff; assumption.
Qed.

(** X22.  The counters of a pass.  [scanned] is the length of the listing
    (of a pass that the elector refuses all counters are zero).  [tombstoned]
    and [inactiveLoadedSignals] do not exceed [scanned], [deleted] and
    [deleteFailed] together do not exceed [maxDeletesPerRun], and
    [quarantined] does not exceed [deleteFailed]. *)
Theorem RunOnce_metrics w :
  ((0 < batchDeleteSize opts)%nat -> is_Some (RunOnce clock policy opts w)) /\
  forall g w', RunOnce clock policy opts w = Some (g, w') ->
    (g = zero_metrics \/ scanned g = length (ListAll (catalog_ w))) /\
    (tombstoned g <= scanned g)%nat /\
    (inactiveLoadedSignals g <= scanned g)%nat /\
    (deleted g + deleteFailed g <= maxDeletesPerRun opts)%nat /\
    (quarantined g <= deleteFailed g)%nat.
Proof.
  split; [apply RunOnce_returns|].
  intros g w' Hrun.
  destruct (RunOnce_phases clock policy opts w g w' Hrun)
    as [(l0 & Hl0 & Hno & -> & _)
       |(_ & _ & gets & tomb & hard & g1 & _ & _ & _ & _ & _ & _ & Hm1 & Hm2)].
  { split; [left; reflexivity|]. simpl. repeat split; lia. }
  unfold tombstone_metrics, hard_delete_metrics in *. simpl in *.
  split; [right; lia|]. repeat split; lia.
Qed.
End PassProperties.

(** ** The records a pass leaves alone *)

Lemma frame_refl (ids : list string) (items : gmap string SnapshotMeta) :
  keyed items -> frame ids items items.
Proof. intros Hk. split; [exact Hk|]. split; [tauto | reflexivity]. Qed.

Lemma frame_trans (ids1 ids2 : list string) (a b c : gmap string SnapshotMeta) :
  frame ids1 a b -> frame ids2 b c ->
  keyed c /\ (forall k, is_Some (c !! k) <-> is_Some (a !! k)) /\
  (forall k, k ∉ ids1 -> k ∉ ids2 -> c !! k = a !! k).
Proof.
  intros (_ & Hdom1 & Hout1) (Hk2 & Hdom2 & Hout2).
  split; [exact Hk2|]. split.
  - intros k. rewrite Hdom2. apply Hdom1.
  - intros k H1 H2. rewrite (Hout2 k H2). apply Hout1, H1.
Qed.

Section FrameOperations.
Context {period : ClockPeriod}.
Variable ids : list string.
Variable items0 : gmap string SnapshotMeta.

Lemma frame_TransitionState (i : string) (e d : SnapshotState) (c : JournalCatalog) :
  i ∈ ids -> frame ids items0 (items_ c) ->
  frame ids items0 (items_ (JournalCatalog_TransitionState i e d c).2).
Proof.
  intros Hi (Hk & Hdom & Hout). unfold JournalCatalog_TransitionState.
  destruct (items_ c !! i) as [m|] eqn:Hm; [|repeat split; assumption || apply Hdom].
  destruct (decide (state m = e)); [|repeat split; assumption || apply Hdom].
  simpl. split; [apply keyed_set_state; assumption|]. split.
  - intros k. rewrite <- Hdom. destruct (decide (i = k)) as [<-|Hne].
    + rewrite lookup_insert_eq, Hm. split; eauto.
    + rewrite lookup_insert_ne by exact Hne. reflexivity.
  - intros k Hkout. rewrite lookup_insert_ne by (intros ->; contradiction).
    apply Hout, Hkout.
Qed.

Lemma frame_Upsert (m : SnapshotMeta) (c : JournalCatalog) :
  id m ∈ ids -> is_Some (items0 !! id m) -> frame ids items0 (items_ c) ->
  frame ids items0 (items_ (JournalCatalog_Upsert m c).2).
Proof.
  intros Hi Hsome (Hk & Hdom & Hout). simpl.
  split; [apply keyed_insert; exact Hk|]. split.
  - intros k. destruct (decide (id m = k)) as [<-|Hne].
    + rewrite lookup_insert_eq. split; [intros _; exact Hsome | eauto].
    + rewrite lookup_insert_ne by exact Hne. apply Hdom.
  - intros k Hkout. rewrite lookup_insert_ne by (intros Heq; apply Hkout; rewrite <- Heq; exact Hi).
    apply Hout, Hkout.
Qed.
End FrameOperations.

Section FrameStages.
Context {S L K : Type}.
Context {storage : IStorageBackend S}.
Context {elector : ILeaderElector L} {tracker : ICorruptionTracker K}.
Context {period : ClockPeriod} {order : Traversal}.
Variable clock : nat -> TimePoint.
Variable opts : GCOptions.
Variable T : Prop.
Variable ids : list string.
Variable items0 : gmap string SnapshotMeta.
Implicit Types w : @World JournalCatalog S L K.

Local Abbreviation inv := (fun w => frame ids items0 (items_ (catalog_ w))).

Lemma wp_frame_now w :
  inv w -> wp T (Clock_now clock) (fun _ w' => inv w') w.
Proof. intros H. exact H. Qed.

Lemma wp_frame_Get i w :
  inv w ->
  wp T (catalog_Get i)
     (fun cur w' => inv w' /\ forall m, cur = Some m -> id m = i /\ is_Some (items0 !! i)) w.
Proof.
  intros H. unfold wp, catalog_Get. simpl. split; [exact H|].
  unfold JournalCatalog_Get. intros m Hm. destruct H as (Hk & Hdom & _).
  split; [apply Hk; exact Hm | apply Hdom; eexists; exact Hm].
Qed.

Lemma wp_frame_TransitionState i e d w :
  i ∈ ids -> inv w -> wp T (catalog_TransitionState i e d) (fun _ w' => inv w') w.
Proof.
  intros Hi H. unfold wp, catalog_TransitionState.
  pose proof (frame_TransitionState ids items0 i e d (catalog_ w) Hi H) as H'.
  cbn [TransitionState JournalCatalog_catalog].
  destruct (JournalCatalog_TransitionState i e d (catalog_ w)) as [ok c]. exact H'.
Qed.

Lemma wp_frame_Upsert m w :
  id m ∈ ids -> is_Some (items0 !! id m) -> inv w ->
  wp T (catalog_Upsert m) (fun _ w' => inv w') w.
Proof.
  intros Hi Hsome H. unfold wp, catalog_Upsert.
  pose proof (frame_Upsert ids items0 m (catalog_ w) Hi Hsome H) as H'.
  cbn [Upsert JournalCatalog_catalog].
  destruct (JournalCatalog_Upsert m (catalog_ w)) as [ok c]. exact H'.
Qed.

Lemma wp_frame_RecordEvent e w :
  inv w -> wp T (catalog_RecordEvent e) (fun _ w' => inv w') w.
Proof. intros H. exact H. Qed.

Lemma wp_frame_Forget i w :
  inv w -> wp T (corruption_Forget i) (fun _ w' => inv w') w.
Proof. intros H. unfold wp, corruption_Forget. destruct (corruption_ w); exact H. Qed.

Lemma wp_frame_Delete batch failed err w :
  inv w -> wp T (storage_DeleteSnapshotPayloadBatch batch failed err) (fun _ w' => inv w') w.
Proof.
  intros H. unfold wp, storage_DeleteSnapshotPayloadBatch.
  destruct (DeleteSnapshotPayloadBatch batch failed err (storage_ w)) as [[[ok fl] er] s].
  exact H.
Qed.

(** *** The hard-delete stage *)

Lemma wp_finalize_frame ok failed err g i w :
  i ∈ ids -> inv w -> wp T (finalize clock opts ok failed err g i) (fun _ w' => inv w') w.
Proof.
  intros Hi Hinv. unfold finalize.
  eapply wp_seq; [apply wp_frame_Get; exact Hinv|].
  intros [m|] w1 [H1 Hcur]; [|exact H1].
  destruct (Hcur m eq_refl) as [Hid Hsome].
  destruct (negb _).
  - eapply wp_seq; [apply (wp_frame_TransitionState i); [exact Hi | exact H1]|].
    intros u1 w2 H2.
    eapply wp_seq; [apply wp_frame_now; exact H2|].
    intros t w3 H3.
    eapply wp_seq; [apply wp_frame_RecordEvent; exact H3|].
    intros u2 w4 H4.
    eapply wp_seq; [apply wp_frame_Forget; exact H4|].
    intros u3 w5 H5. exact H5.
  - eapply wp_seq; [apply wp_frame_now; exact H1|].
    intros t w2 H2.
    eapply (wp_seq T (fun _ w' => inv w')).
    + destruct (_ <=? _).
      * eapply wp_seq; [apply (wp_frame_TransitionState i); [exact Hi | exact H2]|].
        intros u1 w3 H3.
        eapply wp_seq; [apply wp_frame_now; exact H3|].
        intros t' w4 H4.
        eapply wp_seq; [apply wp_frame_RecordEvent; exact H4|].
        intros u2 w5 H5. exact H5.
      * eapply wp_seq; [apply (wp_frame_TransitionState i); [exact Hi | exact H2]|].
        intros u1 w3 H3.
        eapply wp_seq; [apply wp_frame_now; exact H3|].
        intros t' w4 H4.
        eapply wp_seq; [apply wp_frame_RecordEvent; exact H4|].
        intros u2 w5 H5. exact H5.
    + intros g' w3 H3.
      eapply wp_seq.
      * apply wp_frame_Upsert; [| |exact H3]; cbn [id set_nextRetryAfter set_lastError
                                                   set_deleteFailures]; rewrite Hid; assumption.
      * intros u1 w4 H4. exact H4.
Qed.

Lemma wp_process_batch_frame now batchIds g w :
  batchIds ⊆ ids -> inv w ->
  wp T (process_batch clock opts now batchIds g) (fun _ w' => inv w') w.
Proof.
  intros Hsub Hinv. unfold process_batch. destruct (dryRun opts).
  - eapply wp_seq.
    + apply (wp_foldM T _ (fun _ w' => inv w')); [|exact Hinv].
      intros [] i w1 _ H1. apply wp_frame_RecordEvent. exact H1.
    + intros u1 w1 H1. exact H1.
  - eapply wp_seq.
    + apply (wp_foldM T _ (fun dl w' => dl ⊆ batchIds /\ inv w'));
        [|split; [apply list_subseteq_nil | exact Hinv]].
      intros dl i w1 Hi [Hdl H1].
      eapply wp_seq; [apply (wp_frame_TransitionState i); [apply Hsub, Hi | exact H1]|].
      intros ok w2 H2. split; [|exact H2].
      destruct ok; [|exact Hdl].
      intros x Hx. apply elem_of_app in Hx as [Hx|Hx]; [apply Hdl, Hx|].
      apply list_elem_of_singleton in Hx. subst x. exact Hi.
    + intros dl w1 [Hdl H1].
      destruct (is_empty_list dl); [exact H1|].
      eapply wp_seq; [apply wp_frame_Delete; exact H1|].
      intros [[ok failed] err] w2 H2.
      apply (wp_foldM T _ (fun _ w' => inv w')); [|exact H2].
      intros g' j w3 Hj H3. apply wp_finalize_frame; [apply Hsub, Hdl, Hj | exact H3].
Qed.

(** *** The tombstone stage *)

Lemma wp_TombstoneCandidates_frame all live g w :
  (forall s, s ∈ all -> tombstone_candidate live s = true -> id s ∈ ids) ->
  inv w ->
  wp T (TombstoneCandidates clock opts all live g) (fun _ w' => inv w') w.
Proof.
  intros Hids Hinv. unfold TombstoneCandidates.
  eapply wp_seq; [apply wp_frame_now; exact Hinv|].
  intros now w1 H1.
  eapply wp_seq.
  - apply (wp_foldM T _ (fun _ w' => inv w')); [|exact H1].
    intros g1 s w2 Hs H2.
    pose proof (Hids s Hs) as Hcand. unfold tombstone_candidate in Hcand.
    destruct (bool_decide (state s = Active)); [|exact H2]. cbn [negb].
    destruct (bool_decide (id s ∈ live)); [exact H2|].
    destruct (0 <? leaseCount s); [exact H2|].
    specialize (Hcand eq_refl).
    destruct (dryRun opts).
    + eapply wp_seq; [apply wp_frame_RecordEvent; exact H2|].
      intros u1 w3 H3. exact H3.
    + eapply wp_seq; [apply (wp_frame_TransitionState (id s)); [exact Hcand | exact H2]|].
      intros ok w3 H3. destruct ok; [|exact H3].
      eapply wp_seq; [apply wp_frame_Get; exact H3|].
      intros [m|] w4 [H4 Hcur]; [|exact H4].
      destruct (Hcur m eq_refl) as [Hid Hsome].
      eapply wp_seq.
      * apply wp_frame_Upsert; [| |exact H4];
          cbn [id set_nextRetryAfter set_lastError set_hardDeleteAfter]; rewrite Hid; assumption.
      * intros u1 w5 H5.
        eapply wp_seq; [apply wp_frame_RecordEvent; exact H5|].
        intros u2 w6 H6. exact H6.
  - intros g1 w2 H2.
    apply (wp_foldM T _ (fun _ w' => inv w')); [|exact H2].
    intros g2 s w3 _ H3.
    destruct (negb _); [exact H3|].
    destruct (bool_decide _); [exact H3|].
    destruct (_ <? _); [|exact H3].
    eapply wp_seq; [apply wp_frame_now; exact H3|].
    intros t w4 H4. destruct (_ <=? _); [|exact H4].
    eapply wp_seq; [apply wp_frame_now; exact H4|].
    intros t' w5 H5.
    eapply wp_seq; [apply wp_frame_RecordEvent; exact H5|].
    intros u1 w6 H6. exact H6.
Qed.
End FrameStages.

Section FramePass.
Context {S L K : Type}.
Context {storage : IStorageBackend S}.
Context {elector : ILeaderElector L} {tracker : ICorruptionTracker K}.
Context {period : ClockPeriod} {order : Traversal} {sorter : Sort}.
Variable clock : nat -> TimePoint.
Variable policy : RetentionPolicy.
Variable opts : GCOptions.
Implicit Types w : @World JournalCatalog S L K.

Lemma wp_HardDeleteEligible_frame g w :
  keyed (items_ (catalog_ w)) ->
  wp (0 < batchDeleteSize opts)%nat (HardDeleteEligible clock opts g)
     (fun _ w' =>
        frame (id <$> eligible_records opts (clock (reads w)) (ListAll (catalog_ w)))
              (items_ (catalog_ w)) (items_ (catalog_ w'))) w.
Proof.
  intros Hkeyed. unfold HardDeleteEligible.
  apply wp_bind. unfold wp at 1. cbn [Clock_now].
  apply wp_bind. unfold wp at 1, catalog_ListAll.
  set (eligible := eligible_records opts _ _).
  refine (wp_batches_gen clock opts
            (fun _ w' => frame (id <$> eligible) (items_ (catalog_ w)) (items_ (catalog_ w')))
            _ eligible _ (length eligible) 0%nat g _ _ _).
  - intros batchIds g1 w1 Hsub H1.
    apply (wp_process_batch_frame clock opts _ (id <$> eligible) (items_ (catalog_ w)));
      assumption.
  - intros _. lia.
  - apply frame_refl. exact Hkeyed.
Qed.

Lemma leader_Release_catalog w u w1 :
  leader_Release w = Some (u, w1) -> catalog_ w1 = catalog_ w.
Proof.
  unfold leader_Release. destruct (leader_ w); intros [= <- <-]; reflexivity.
Qed.

(** X23.  The records a pass leaves alone.  Of an index whose records are
    filed under their ids, a pass changes no id: it adds no record and
    removes none.  A record is after the pass as it was before, unless it was
    Active and unprotected (without lease, not anchored, not among the
    [keepLastN] newest), or it was Tombstoned and eligible for hard deletion
    at a reading of the clock.  So a record that is Deleting, Deleted or
    Quarantined, and a record that is protected, is never changed. *)
Theorem RunOnce_leaves_other_records w :
  keyed (items_ (catalog_ w)) ->
  ((0 < batchDeleteSize opts)%nat -> is_Some (RunOnce clock policy opts w)) /\
  forall g w', RunOnce clock policy opts w = Some (g, w') ->
    keyed (items_ (catalog_ w')) /\
    (forall k, is_Some (items_ (catalog_ w') !! k) <-> is_Some (items_ (catalog_ w) !! k)) /\
    forall k m, items_ (catalog_ w) !! k = Some m ->
      items_ (catalog_ w') !! k = Some m \/
      (state m = Active /\ unprotected policy (clock (reads w)) (ListAll (catalog_ w)) k) \/
      (state m = Tombstoned /\ exists n, is_eligible (clock n) m = true).
Proof.
  intros Hkeyed. split; [apply RunOnce_returns|].
  intros g w' Hrun. unfold RunOnce, bind in Hrun.
  destruct (leader_refuses w) as [[refused w1]|] eqn:Hlead; [|discriminate].
  apply leader_refuses_spec in Hlead as (Hc1 & _ & Hr1 & _).
  destruct refused.
  { injection Hrun as <- <-. rewrite Hc1.
    split; [exact Hkeyed|]. split; [tauto|]. intros k m Hm. left. exact Hm. }
  unfold catalog_ListAll in Hrun. rewrite Hc1 in Hrun.
  set (all := ListAll (catalog_ w)) in *.
  set (w2 := log CallListAll w1) in Hrun.
  destruct (ComputeLiveSet clock policy all w2) as [[live w3]|] eqn:Hlive; [|discriminate].
  pose proof (wp_returns _ _ _ _
                (wp_ComputeLiveSet_calls clock policy w2 (Datatypes.S (reads w2)) all w2
                   eq_refl eq_refl eq_refl eq_refl eq_refl) _ _ Hlive)
    as (Hc3 & _).
  pose proof (wp_returns _ _ _ _ (wp_ComputeLiveSet_anchors clock policy all w2) _ _ Hlive)
    as [Hnewest Hanch].
  change (reads w2) with (reads w1) in Hanch. rewrite Hr1 in Hanch.
  change (catalog_ w2) with (catalog_ w1) in Hc3. rewrite Hc1 in Hc3.
  assert (Hall : forall s, s ∈ all -> items_ (catalog_ w) !! id s = Some s).
  { intros s Hs. apply (ListAll_elem_of (catalog_ w)) in Hs as (k & Hk).
    unfold JournalCatalog_Get in Hk. rewrite (Hkeyed k s Hk). exact Hk. }
  (* the tombstone stage *)
  set (ids1 := id <$> filter (fun s => tombstone_candidate live s = true) all).
  remember (if enableTombstoneStage opts
            then TombstoneCandidates clock opts all live (set_scanned (length all) zero_metrics)
            else ret (set_scanned (length all) zero_metrics)) as tomb_stage eqn:Htomb.
  destruct (tomb_stage w3) as [[g1 w4]|] eqn:Hrun4; [|discriminate].
  assert (H4 : frame ids1 (items_ (catalog_ w)) (items_ (catalog_ w4))).
  { subst tomb_stage. destruct (enableTombstoneStage opts).
    - refine (wp_returns _ _ _ _
                (wp_TombstoneCandidates_frame clock opts True ids1 (items_ (catalog_ w))
                   all live _ w3 _ _) _ _ Hrun4).
      + intros s Hs Hcand. apply list_elem_of_fmap_2. apply list_elem_of_filter. tauto.
      + rewrite Hc3. apply frame_refl. exact Hkeyed.
    - injection Hrun4 as <- <-. rewrite Hc3. apply frame_refl. exact Hkeyed. }
  (* the hard-delete stage *)
  set (eligible := eligible_records opts (clock (reads w4)) (ListAll (catalog_ w4))).
  remember (if enableHardDeleteStage opts
            then HardDeleteEligible clock opts g1 else ret g1) as hard_stage eqn:Hhard.
  destruct (hard_stage w4) as [[g2 w5]|] eqn:Hrun5; [|discriminate].
  assert (H5 : frame (id <$> eligible) (items_ (catalog_ w4)) (items_ (catalog_ w5))).
  { subst hard_stage. destruct (enableHardDeleteStage opts).
    - exact (wp_returns _ _ _ _ (wp_HardDeleteEligible_frame g1 w4 (proj1 H4)) _ _ Hrun5).
    - injection Hrun5 as <- <-. apply frame_refl. exact (proj1 H4). }
  destruct (leader_Release w5) as [[u w6]|] eqn:Hrel; [|discriminate].
  injection Hrun as <- <-.
  apply leader_Release_catalog in Hrel. rewrite Hrel.
  destruct (frame_trans _ _ _ _ _ H4 H5) as (Hk5 & Hdom5 & Hout5).
  split; [exact Hk5|]. split; [exact Hdom5|].
  intros k m Hm.
  destruct (decide (k ∈ ids1)) as [Hin1|Hout1].
  { right. left. apply list_elem_of_fmap in Hin1 as (s & -> & Hs).
    apply list_elem_of_filter in Hs as [Hcand Hs].
    assert (s = m) by (pose proof (Hall s Hs); congruence). subst s.
    unfold tombstone_candidate in Hcand. rewrite !andb_true_iff, !negb_true_iff in Hcand.
    destruct Hcand as [[Hact Hlive'] Hlease].
    apply bool_decide_eq_true in Hact. apply bool_decide_eq_false in Hlive'.
    apply Z.ltb_ge in Hlease.
    split; [exact Hact|]. exists m. repeat split; try assumption.
    - intros Ha. apply Hlive', Hanch; assumption.
    - intros Hn. apply Hlive', Hnewest, Hn. }
  assert (Hm4 : items_ (catalog_ w4) !! k = Some m).
  { destruct H4 as (_ & _ & Hout4). rewrite (Hout4 k Hout1). exact Hm. }
  destruct (decide (k ∈ id <$> eligible)) as [Hin2|Hout2].
  { right. right. apply list_elem_of_fmap in Hin2 as (s & -> & Hs).
    apply eligible_records_spec in Hs as [Hs He].
    apply (ListAll_elem_of (catalog_ w4)) in Hs as (k' & Hk').
    unfold JournalCatalog_Get in Hk'.
    pose proof (proj1 H4 k' s Hk') as Hid. rewrite <- Hid in Hk'.
    assert (s = m) by congruence. subst s.
    split; [apply (is_eligible_spec (clock (reads w4)) m), He|].
    exists (reads w4). exact He. }
  left. rewrite (Hout5 k Hout1 Hout2). exact Hm.
Qed.
End FramePass.

(** ** The further theorems at the scenarios *)

Lemma keyed_catalog_of (l : list SnapshotMeta) : keyed (items_ (catalog_of l)).
Proof.
  unfold catalog_of. simpl. induction l as [|s l IH]; simpl.
  - intros k m Hk. rewrite lookup_empty in Hk. discriminate.
  - apply keyed_insert, IH.
Qed.

(** A line of five fields. *)
Lemma Deserialize_short_line_witness :
  Deserialize (period := nanoseconds) "X|1704067200000|1|1|0" = None.
Proof.
  exact (Deserialize_short_line (period := nanoseconds) "X|1704067200000|1|1|0"
           ltac:(vm_compute; lia)).
Defined.

(** The line of a record, and two fields more. *)
Lemma Deserialize_ignores_further_fields_witness :
  Deserialize (period := nanoseconds) (written with_escapes +:+ "|" +:+ "A|pin")
  = Deserialize (period := nanoseconds) (written with_escapes).
Proof.
  exact (Deserialize_ignores_further_fields (period := nanoseconds)
           (written with_escapes) "A|pin" ltac:(vm_compute; lia)).
Defined.

(** A record created a nanosecond after a whole millisecond, with a parent;
    a [hardDeleteAfter] a nanosecond before the epoch, and one a millisecond
    before it. *)
Lemma Deserialize_Serialize_truncates_witness :
  read_back off_millisecond_child = Some (snapshot "B" t0 Active None) /\
  read_back (snapshot "B" t0 Active None) = Some (snapshot "B" t0 Active None) /\
  read_back just_before_epoch
  = Some (set_hardDeleteAfter (Some 0) (snapshot "A" t0 Tombstoned None)) /\
  read_back before_epoch = Some (snapshot "A" t0 Tombstoned None).
Proof.
  destruct (Deserialize_Serialize_truncates (period := nanoseconds) off_millisecond_child
              ltac:(vm_compute; reflexivity)) as (Hread & Hagain & _).
  destruct (Deserialize_Serialize_truncates (period := nanoseconds) just_before_epoch
              ltac:(vm_compute; reflexivity)) as (Hjust & _).
  destruct (Deserialize_Serialize_truncates (period := nanoseconds) before_epoch
              ltac:(vm_compute; reflexivity)) as (Hbefore & _).
  split; [exact Hread|]. split; [exact Hagain|]. split; [exact Hjust | exact Hbefore].
Defined.

(** A journal whose last line leaves [desired] unwritten, the catalog in
    which the read gave 7, and one more transition. *)
Lemma catalog_index_keyed_by_id_witness :
  opens_as (period := nanoseconds) (Some cut_state_journal) catalog_of_cut_journal /\
  keyed (items_ (fold_left (apply_op (period := nanoseconds))
                   [OpTransitionState "X" (Above 3) Tombstoned] catalog_of_cut_journal)).
Proof.
  assert (Hopens : opens_as (period := nanoseconds) (Some cut_state_journal)
                     catalog_of_cut_journal).
  { split; [reflexivity|].
    change (getlines cut_state_journal)
      with ["UPSERT " +:+ written (snapshot_X 0); "STATE X 1"].
    apply (replay_any_cons _ _ {["X" := snapshot_X 0]}).
    { left. vm_compute. reflexivity. }
    apply (replay_any_cons _ _ (items_ catalog_of_cut_journal)); [|constructor].
    right. split; [reflexivity|]. split; [reflexivity|].
    exists "X", (snapshot_X 0), 7. split; [vm_compute; reflexivity|].
    split; [|vm_compute]; reflexivity. }
  split; [exact Hopens|].
  exact (proj2 (catalog_index_keyed_by_id (period := nanoseconds) (Some cut_state_journal)
                  catalog_of_cut_journal [OpTransitionState "X" (Above 3) Tombstoned])
           Hopens).
Defined.

(** An [UPSERT] line of two fields, between two lines and at the end. *)
Lemma short_upsert_line_blocks_open_witness :
  open_JournalCatalog (period := nanoseconds)
    (Some (file_of_lines (["UPSERT " +:+ written (snapshot_X 0)]
                          ++ ("UPSERT " +:+ "X|1704067200000") :: ["STATE X 1 2"]))) = None /\
  open_JournalCatalog (period := nanoseconds)
    (Some (file_of_lines ["UPSERT " +:+ written (snapshot_X 0)]
           +:+ "UPSERT " +:+ "X|1704067200000")) = None.
Proof.
  exact (short_upsert_line_blocks_open (period := nanoseconds)
           ["UPSERT " +:+ written (snapshot_X 0)] ["STATE X 1 2"] "X|1704067200000"
           ltac:(repeat constructor) ltac:(repeat constructor)
           ltac:(vm_compute; reflexivity) ltac:(vm_compute; lia)).
Defined.

(** Two electors that acquire and release in turn. *)
Lemma lock_file_one_leader_witness :
  one_leader (fold_left lock_call
                [DoTryAcquire 0; DoTryAcquire 1; DoRelease 1; DoRelease 0; DoTryAcquire 1]
                free_path).
Proof.
  apply (lock_file_one_leader
           [DoTryAcquire 0; DoTryAcquire 1; DoRelease 1; DoRelease 0; DoTryAcquire 1]
           free_path).
  split.
  - intros j k Hj. destruct j as [|[|j]]; simpl in Hj; discriminate.
  - intros k Hk. destruct k as [|[|k]]; simpl in Hk; discriminate.
Defined.

(** Two electors and the lock file of a third. *)
Lemma stale_lock_file_blocks_witness :
  fold_left lock_call [DoTryAcquire 0; DoRelease 1; DoTryAcquire 1] stale_path = stale_path.
Proof.
  exact (proj1 (stale_lock_file_blocks [DoTryAcquire 0; DoRelease 1; DoTryAcquire 1] stale_path
                  eq_refl ltac:(repeat constructor))).
Defined.

(** Scenario B: B is the newest, A its parent. *)
Lemma ComputeLiveSet_live_set_witness :
  exists live w',
    live_B = Some (live, w') /\
    "B" ∈ live /\ "A" ∈ live.
Proof.
  destruct (ComputeLiveSet_live_set (period := nanoseconds) (order := by_key)
              (sorter := insertion_sort) (stopped (t0 + 4 * hour)) policy_keep1 world_B
              (keyed_catalog_of _))
    as (live & w' & Hrun & _ & _ & Hnewest & _ & Hclosed & _).
  exists live, w'. split; [exact Hrun|].
  assert (HB : "B" ∈ live).
  { apply (Hnewest (snapshot "B" (t0 + hour) Active (Some "A"))).
    vm_compute. apply list_elem_of_here. }
  split; [exact HB|].
  apply (Hclosed "B" (snapshot "B" (t0 + hour) Active (Some "A")) "A");
    [reflexivity | exact HB | reflexivity | eexists; reflexivity].
Defined.

(** Scenario A with the three newest snapshots live: s0 and s1 are
    tombstoned. *)
Lemma TombstoneCandidates_tombstones_witness :
  exists g' w',
    tombstone_A = Some (g', w') /\
    state_of "s0" w' = Some Tombstoned /\ state_of "s1" w' = Some Tombstoned /\
    state_of "s2" w' = Some Active /\
    tombstoned g' = 2%nat.
Proof.
  destruct (TombstoneCandidates_tombstones (period := nanoseconds) (order := by_key)
              (stopped (t0 + 4 * hour)) default_options {["s2"; "s3"; "s4"]} zero_metrics
              world_A eq_refl (keyed_catalog_of _))
    as (g' & w' & Hrun & Hindex & Hcount & _).
  exists g', w'. split; [exact Hrun|].
  unfold state_of. rewrite !Hindex. repeat split. exact Hcount.
Defined.

(** Scenario G: the lock file does not exist before the pass, and not after
    it. *)
Lemma RunOnce_acquires_and_releases_witness :
  exists g w' mid,
    pass_G = Some (g, w') /\
    leader_ w' = Some {| lockFile := false; acquired_ := false |} /\
    calls w' = CallRelease :: mid ++ [CallTryAcquire true] /\
    Forall (fun c => ~ leader_call c) mid.
Proof.
  exact (RunOnce_acquires_and_releases (period := nanoseconds) (order := by_key)
           (sorter := insertion_sort) (stopped (t0 + 4 * hour)) default_policy default_options
           world_G {| lockFile := false; acquired_ := false |} eq_refl eq_refl
           ltac:(simpl; lia)).
Defined.

(** The deleted snapshot D of the listing with P and Q is as it was. *)
Lemma RunOnce_leaves_other_records_witness :
  exists g w',
    pass_DQP = Some (g, w') /\
    items_ (catalog_ w') !! "D" = Some (snapshot "D" (t0 + 2 * hour) Deleted (Some "P")).
Proof.
  destruct (RunOnce_leaves_other_records (period := nanoseconds) (order := by_key)
              (sorter := insertion_sort) (stopped (t0 + 4 * hour)) policy_keep1
              default_options world_DQP (keyed_catalog_of _)) as [Hret Hframe].
  destruct (Hret ltac:(simpl; lia)) as [[g w'] Hrun]. exists g, w'.
  split; [exact Hrun|].
  destruct (Hframe g w' Hrun) as (_ & _ & Hrec).
  destruct (Hrec "D" (snapshot "D" (t0 + 2 * hour) Deleted (Some "P"))
              ltac:(vm_compute; reflexivity))
    as [H|[[H _]|[H _]]]; [exact H | discriminate H | discriminate H].
Defined.



